(** * mdistiller-ddp: evaluation utilities and learning-rate schedule

    A shallow embedding of [mdistiller/engine/utils.py]: the running
    average [AverageMeter], the evaluation loop [validate], the learning
    rate schedule [adjust_learning_rate], the top-k [accuracy] and the
    checkpoint helpers.

    Conventions of the embedding.
    - Python exceptions are values of [exn]; a function that may raise
      returns a [result].
    - Python [int] is [Z].
    - Python [float] has two readings.  [Binary64] and [Float32] are the
      IEEE 754 doubles and singles of the standard library's [SpecFloat],
      every operation rounded to nearest; [Schedule64] is the schedule and
      [accuracy_with] the accuracy computed with them, as the code computes.
      [Schedule], [AverageMeter], [accuracy] and [Validate] leave the
      rounding out: learning rates are real numbers ([R], so that [cos] and
      [PI] are the real ones), meter values and accuracies are rationals
      ([Q]).  What is proved of them holds in exact arithmetic.
    - A Python [dict] is a [gmap]; the optimizer's parameter groups are a
      list of dictionaries from option names to values. *)

From stdpp Require Import base option list strings gmap sorting pretty.
From Stdlib Require Import ZArith Zpower QArith Qround Reals Lra Lia Psatz SpecFloat.
From Stdlib.Strings Require Import Byte.

(** ** Exceptions *)

Inductive exn : Type :=
| NotImplementedError (arg : string)
| KeyError (key : string)
| IndexError
| ZeroDivisionError
| OverflowError
| ValueError
| RuntimeError
| OSError.

Inductive result (A : Type) : Type :=
| Ok (a : A)
| Raise (e : exn).

Arguments Ok {A} a.
Arguments Raise {A} e.

(** Sequencing: an exception raised by [c] propagates, nothing catches it. *)
#[global] Instance result_bind : MBind result := λ A B k c,
  match c with
  | Ok a => k a
  | Raise e => Raise e
  end.

#[global] Instance result_ret : MRet result := λ A a, Ok a.

#[global] Instance result_fmap : FMap result := λ A B f c,
  match c with
  | Ok a => Ok (f a)
  | Raise e => Raise e
  end.

Definition raises {A : Type} (c : result A) : Prop :=
  match c with
  | Ok _ => False
  | Raise _ => True
  end.

(** ** The learning-rate schedule *)

(** [adjust_learning_rate] in exact arithmetic: the rates are real numbers,
    every division is exact and no integer is too large for it.
    [Schedule64] below is the same function over doubles. *)
Module Schedule.

Open Scope Z_scope.

(** [cfg.SOLVER.SCHEDULE.MULTISTEP] *)
Record MULTISTEP_node : Type := {
  STAGES : list Z;
  MULTISTEP_RATE : R
}.

(** [cfg.SOLVER.SCHEDULE.COSINE] *)
Record COSINE_node : Type := {
  WARMUP : Z;
  COSINE_RATE : R
}.

(** [cfg.SOLVER.SCHEDULE] *)
Record SCHEDULE_node : Type := {
  TYPE : string;
  MULTISTEP : MULTISTEP_node;
  COSINE : COSINE_node
}.

(** [cfg.SOLVER] *)
Record SOLVER_node : Type := {
  LR : R;
  BATCH_SIZE : Z;
  EPOCHS : Z;
  SCHEDULE : SCHEDULE_node
}.

(** [cfg]; [DATASET_TYPE] is [cfg.DATASET.TYPE]. *)
Record CfgNode : Type := {
  SOLVER : SOLVER_node;
  DATASET_TYPE : string
}.

(** A parameter group is a dictionary of options; ["lr"] is one of them. *)
Record Optimizer : Type := {
  param_groups : list (gmap string R)
}.

(** [for param_group in optimizer.param_groups: param_group["lr"] = new_lr] *)
Definition set_lr (new_lr : R) (optimizer : Optimizer) : Optimizer :=
  {| param_groups := (fun param_group => <["lr" := new_lr]> param_group)
                     <$> param_groups optimizer |}.

(** [optimizer.param_groups[0]["lr"]] *)
Definition first_lr (optimizer : Optimizer) : result R :=
  match param_groups optimizer with
  | [] => Raise IndexError
  | param_group :: _ =>
      match param_group !! "lr" with
      | Some lr => Ok lr
      | None => Raise (KeyError "lr")
      end
  end.

(** The dictionary literal of line 101. *)
Definition dataset_sizes : gmap string Z :=
  <["imagenet" := 1281167]> (<["cifar100" := 50000]> ∅).

(** [d[key]] on a dictionary. *)
Definition getitem {V : Type} (d : gmap string V) (key : string) : result V :=
  match d !! key with
  | Some v => Ok v
  | None => Raise (KeyError key)
  end.

(** [int(ceil(a / b))] for integers [a] and [b].  The quotient of two
    integers is computed in floating point and then rounded up; for the
    dataset sizes of [dataset_sizes] and a divisor below [2 ^ 1022] in
    magnitude the floating-point quotient never crosses an integer, so the
    result is the ceiling of the exact quotient ([ceil_div_exact]). *)
Definition ceil_div (a b : Z) : result Z :=
  if b =? 0 then Raise ZeroDivisionError else Ok (- ((- a) / b)).

(** [x / n] for a float [x] and an integer [n]: the exact quotient. *)
Definition float_div_int (x : R) (n : Z) : result R :=
  if n =? 0 then Raise ZeroDivisionError else Ok (x / IZR n)%R.

(** [a / b] for two integers (true division): the exact quotient. *)
Definition int_truediv (a b : Z) : result R :=
  if b =? 0 then Raise ZeroDivisionError else Ok (IZR a / IZR b)%R.

(** [np.sum(epoch > np.asarray(stages))] *)
Definition count_exceeded (epoch : Z) (stages : list Z) : nat :=
  length (filter (fun stage => stage < epoch) stages).

Definition multistep_lr (epoch bidx : Z) (cfg : CfgNode) (optimizer : Optimizer)
  : result (R * Optimizer) :=
  if bidx =? 0 then
    let steps := count_exceeded epoch (STAGES (MULTISTEP (SCHEDULE (SOLVER cfg)))) in
    if (0 <? steps)%nat then
      let new_lr :=
        (LR (SOLVER cfg) * MULTISTEP_RATE (MULTISTEP (SCHEDULE (SOLVER cfg))) ^ steps)%R in
      Ok (new_lr, set_lr new_lr optimizer)
    else Ok (LR (SOLVER cfg), optimizer)
  else
    lr ← first_lr optimizer; Ok (lr, optimizer).

Definition cosine_lr (epoch bidx : Z) (cfg : CfgNode) (optimizer : Optimizer)
  : result (R * Optimizer) :=
  let warmup_epochs := WARMUP (COSINE (SCHEDULE (SOLVER cfg))) in
  dataset_size ← getitem dataset_sizes (DATASET_TYPE cfg);
  num_epoch_batches ← ceil_div dataset_size (BATCH_SIZE (SOLVER cfg));
  let num_warmup_batches := num_epoch_batches * warmup_epochs in
  let base_lr := LR (SOLVER cfg) in
  let global_bidx := (epoch - 1) * num_epoch_batches + bidx in
  new_lr ←
    (if global_bidx <? num_warmup_batches then
       q ← float_div_int base_lr num_warmup_batches;
       Ok (q * IZR (global_bidx + 1))%R
     else
       let cos_bidx := global_bidx - num_warmup_batches in
       let num_cos_batches := num_epoch_batches * (EPOCHS (SOLVER cfg) - warmup_epochs) in
       let last_lr := (base_lr * COSINE_RATE (COSINE (SCHEDULE (SOLVER cfg))))%R in
       q ← int_truediv cos_bidx num_cos_batches;
       Ok ((cos (q * PI) + 1.0) * 0.5 * (base_lr - last_lr) + last_lr)%R);
  Ok (new_lr, set_lr new_lr optimizer).

Definition adjust_learning_rate (epoch bidx : Z) (cfg : CfgNode) (optimizer : Optimizer)
  : result (R * Optimizer) :=
  let ty := TYPE (SCHEDULE (SOLVER cfg)) in
  if String.eqb ty "MULTISTEP" then multistep_lr epoch bidx cfg optimizer
  else if String.eqb ty "COSINE" then cosine_lr epoch bidx cfg optimizer
  else Raise (NotImplementedError ty).

(** The batches of one epoch as the spec words them:
    [ceil(dataset_size / batch_size)], the ceiling of the exact quotient. *)
Definition spec_batches_per_epoch (dataset_size batch_size : Z) : Z :=
  Qceiling (inject_Z dataset_size / inject_Z batch_size).

(** The number of the batch counted from the start of training. *)
Definition global_batch (batches_per_epoch epoch batch_index : Z) : Z :=
  (epoch - 1) * batches_per_epoch + batch_index.

(** A configuration with the given schedule type and batch size, the other
    fields being those of the spec's MULTISTEP example. *)
Definition example_cfg (ty : string) (batch_size : Z) : CfgNode :=
  {| SOLVER :=
       {| LR := 0.1%R; BATCH_SIZE := batch_size; EPOCHS := 240;
          SCHEDULE :=
            {| TYPE := ty;
               MULTISTEP := {| STAGES := [30; 60; 90]; MULTISTEP_RATE := 0.1%R |};
               COSINE := {| WARMUP := 5; COSINE_RATE := 0.01%R |} |} |};
     DATASET_TYPE := "cifar100" |}.

(** An optimizer with a single parameter group holding the rate [lr]. *)
Definition single_group (lr : R) : Optimizer :=
  {| param_groups := [ {["lr" := lr]} ] |}.

(** Every parameter group holds the rate [lr]. *)
Definition all_groups_hold (lr : R) (optimizer : Optimizer) : Prop :=
  Forall (fun param_group => param_group !! "lr" = Some lr) (param_groups optimizer).

End Schedule.

(** ** IEEE 754 arithmetic *)

(** A Python [float] is an IEEE 754 double.  The operations are those of
    the standard library's specification of IEEE 754 ([SpecFloat]) at
    precision 53: every result is the exact result rounded to the nearest
    double, ties to even. *)
Module Binary64.

Open Scope Z_scope.

Definition prec : Z := 53.
Definition emax : Z := 1024.

Definition float : Type := spec_float.

(** Zero or a finite number, as opposed to an infinity or a NaN. *)
Definition finite (x : float) : bool :=
  match x with
  | S754_zero _ | S754_finite _ _ _ => true
  | _ => false
  end.

(** The rational number a finite double stands for. *)
Definition value (x : float) : option Q :=
  match x with
  | S754_zero _ => Some 0%Q
  | S754_finite s m e => Some (inject_Z (cond_Zopp s (Z.pos m)) * 2 ^ e)%Q
  | _ => None
  end.

(** An integer operand of a true division, before any rounding. *)
Definition exact_int (n : Z) : float :=
  match n with
  | Z0 => S754_zero false
  | Z.pos m => S754_finite false m 0
  | Z.neg m => S754_finite true m 0
  end.

(** The conversion Python applies to an integer operand of a float
    operation: the nearest double, and [OverflowError] when the integer is
    beyond the largest one. *)
Definition of_int (n : Z) : result float :=
  match binary_normalize prec emax n 0 false with
  | S754_infinity _ => Raise OverflowError
  | x => Ok x
  end.

(** [a / b] for two integers: the quotient rounded once, [OverflowError]
    when it is beyond the largest double; a quotient too small for a double
    is zero. *)
Definition int_truediv (a b : Z) : result float :=
  if b =? 0 then Raise ZeroDivisionError
  else match SFdiv prec emax (exact_int a) (exact_int b) with
       | S754_infinity _ => Raise OverflowError
       | q => Ok q
       end.

Definition div (x y : float) : float := SFdiv prec emax x y.
Definition mul (x y : float) : float := SFmul prec emax x y.
Definition add (x y : float) : float := SFadd prec emax x y.
Definition sub (x y : float) : float := SFsub prec emax x y.

(** [x / n] for a float [x] and an integer [n]. *)
Definition float_div_int (x : float) (n : Z) : result float :=
  y ← of_int n;
  if n =? 0 then Raise ZeroDivisionError else Ok (div x y).

(** [x * n] for a float [x] and an integer [n]. *)
Definition float_mul_int (x : float) (n : Z) : result float :=
  y ← of_int n; Ok (mul x y).

(** [math.ceil(x)], an integer. *)
Definition ceil (x : float) : result Z :=
  match x with
  | S754_zero _ => Ok 0
  | S754_finite s m e =>
      let n := cond_Zopp s (Z.pos m) in
      Ok (if 0 <=? e then n * 2 ^ e else - ((- n) / 2 ^ (- e)))
  | S754_infinity _ => Raise OverflowError
  | S754_nan => Raise ValueError
  end.

(** The double a decimal literal [num / den] denotes: the nearest one. *)
Definition decimal (num den : Z) : float :=
  SFdiv prec emax (exact_int num) (exact_int den).

(** The literals [1.0], [0.5] and [100.0], and [np.pi]. *)
Definition one : float := decimal 10 10.
Definition half : float := decimal 5 10.
Definition hundred : float := decimal 1000 10.
Definition pi : float := decimal 3141592653589793 1000000000000000.

(** The routines of the platform's mathematical library behind [np.cos]
    and behind the power of a float by an integer count.  They belong to
    neither the repository nor IEEE 754: their results are left open. *)
Class Libm : Type := {
  np_cos : float → float;
  np_power : float → nat → float
}.

(** For examples that call neither routine. *)
Definition libm_unused : Libm := {|
  np_cos := λ _, S754_nan;
  np_power := λ _ _, S754_nan
|}.

End Binary64.

(** The element type of the accuracy tensors: IEEE 754 single precision. *)
Module Float32.

Open Scope Z_scope.

Definition prec : Z := 24.
Definition emax : Z := 128.

Definition float : Type := spec_float.

(** A Python scalar that meets a [float32] tensor is rounded to single
    precision first. *)
Definition of_double (x : Binary64.float) : float :=
  match x with
  | S754_finite s m e => binary_round prec emax s m e
  | _ => x
  end.

(** A count of hits as the sum of that many ones; the sum is exact up to
    [2 ^ 24]. *)
Definition of_count (n : Z) : float := binary_normalize prec emax n 0 false.

Definition mul (x y : float) : float := SFmul prec emax x y.

(** The rational number a finite [float32] stands for. *)
Definition value (x : float) : option Q := Binary64.value x.

End Float32.

(** ** The learning-rate schedule in double precision *)

(** [adjust_learning_rate] once more, with the rates as doubles and every
    operation rounded as Python and NumPy round it.  [Schedule] is this
    module with the rounding left out. *)
Module Schedule64.

Import Binary64.

Open Scope Z_scope.

Record MULTISTEP_node : Type := {
  STAGES : list Z;
  MULTISTEP_RATE : float
}.

Record COSINE_node : Type := {
  WARMUP : Z;
  COSINE_RATE : float
}.

Record SCHEDULE_node : Type := {
  TYPE : string;
  MULTISTEP : MULTISTEP_node;
  COSINE : COSINE_node
}.

Record SOLVER_node : Type := {
  LR : float;
  BATCH_SIZE : Z;
  EPOCHS : Z;
  SCHEDULE : SCHEDULE_node
}.

Record CfgNode : Type := {
  SOLVER : SOLVER_node;
  DATASET_TYPE : string
}.

Record Optimizer : Type := {
  param_groups : list (gmap string float)
}.

(** [for param_group in optimizer.param_groups: param_group["lr"] = new_lr] *)
Definition set_lr (new_lr : float) (optimizer : Optimizer) : Optimizer :=
  {| param_groups := (fun param_group => <["lr" := new_lr]> param_group)
                     <$> param_groups optimizer |}.

(** [optimizer.param_groups[0]["lr"]] *)
Definition first_lr (optimizer : Optimizer) : result float :=
  match param_groups optimizer with
  | [] => Raise IndexError
  | param_group :: _ =>
      match param_group !! "lr" with
      | Some lr => Ok lr
      | None => Raise (KeyError "lr")
      end
  end.

(** [int(ceil(a / b))] for integers [a] and [b]: the quotient is a double. *)
Definition ceil_div (a b : Z) : result Z :=
  q ← int_truediv a b; ceil q.

Section WithLibm.

Context {libm : Libm}.

Definition multistep_lr (epoch bidx : Z) (cfg : CfgNode) (optimizer : Optimizer)
  : result (float * Optimizer) :=
  if bidx =? 0 then
    let steps :=
      Schedule.count_exceeded epoch (STAGES (MULTISTEP (SCHEDULE (SOLVER cfg)))) in
    if (0 <? steps)%nat then
      let new_lr :=
        mul (LR (SOLVER cfg))
            (np_power (MULTISTEP_RATE (MULTISTEP (SCHEDULE (SOLVER cfg)))) steps) in
      Ok (new_lr, set_lr new_lr optimizer)
    else Ok (LR (SOLVER cfg), optimizer)
  else
    lr ← first_lr optimizer; Ok (lr, optimizer).

Definition cosine_lr (epoch bidx : Z) (cfg : CfgNode) (optimizer : Optimizer)
  : result (float * Optimizer) :=
  let warmup_epochs := WARMUP (COSINE (SCHEDULE (SOLVER cfg))) in
  dataset_size ← Schedule.getitem Schedule.dataset_sizes (DATASET_TYPE cfg);
  num_epoch_batches ← ceil_div dataset_size (BATCH_SIZE (SOLVER cfg));
  let num_warmup_batches := num_epoch_batches * warmup_epochs in
  let base_lr := LR (SOLVER cfg) in
  let global_bidx := (epoch - 1) * num_epoch_batches + bidx in
  new_lr ←
    (if global_bidx <? num_warmup_batches then
       q ← float_div_int base_lr num_warmup_batches;
       float_mul_int q (global_bidx + 1)
     else
       let cos_bidx := global_bidx - num_warmup_batches in
       let num_cos_batches := num_epoch_batches * (EPOCHS (SOLVER cfg) - warmup_epochs) in
       let last_lr := mul base_lr (COSINE_RATE (COSINE (SCHEDULE (SOLVER cfg)))) in
       q ← int_truediv cos_bidx num_cos_batches;
       Ok (add (mul (mul (add (np_cos (mul q pi)) one) half) (sub base_lr last_lr))
               last_lr));
  Ok (new_lr, set_lr new_lr optimizer).

Definition adjust_learning_rate (epoch bidx : Z) (cfg : CfgNode) (optimizer : Optimizer)
  : result (float * Optimizer) :=
  let ty := TYPE (SCHEDULE (SOLVER cfg)) in
  if String.eqb ty "MULTISTEP" then multistep_lr epoch bidx cfg optimizer
  else if String.eqb ty "COSINE" then cosine_lr epoch bidx cfg optimizer
  else Raise (NotImplementedError ty).

End WithLibm.

(** The configuration of [Schedule.example_cfg], its rates as doubles. *)
Definition example_cfg (ty : string) (batch_size : Z) : CfgNode :=
  {| SOLVER :=
       {| LR := decimal 1 10; BATCH_SIZE := batch_size; EPOCHS := 240;
          SCHEDULE :=
            {| TYPE := ty;
               MULTISTEP := {| STAGES := [30; 60; 90]; MULTISTEP_RATE := decimal 1 10 |};
               COSINE := {| WARMUP := 5; COSINE_RATE := decimal 1 100 |} |} |};
     DATASET_TYPE := "cifar100" |}.

(** An optimizer with a single parameter group holding the rate [lr]. *)
Definition single_group (lr : float) : Optimizer :=
  {| param_groups := [ {["lr" := lr]} ] |}.

End Schedule64.

(** ** The running average *)

(** The meter in exact arithmetic: the values it is given, its sum and its
    average are rational numbers. *)
Module AverageMeter.

Record t : Type := {
  val : Q;
  avg : Q;
  sum : Q;
  count : Z
}.

(** The fields as [reset] leaves them; [__init__] only calls [reset]. *)
Definition init : t := {| val := 0; avg := 0; sum := 0; count := 0 |}.

Definition reset (self : t) : t := init.

(** [update(val, n)]; the last line divides by the new count. *)
Definition update (self : t) (val : Q) (n : Z) : result t :=
  let sum' := (sum self + val * inject_Z n)%Q in
  let count' := (count self + n)%Z in
  if (count' =? 0)%Z then Raise ZeroDivisionError
  else Ok {| val := val; avg := (sum' / inject_Z count')%Q; sum := sum'; count := count' |}.

(** A sequence of [update(val, n)] calls, in order. *)
Fixpoint update_all (self : t) (calls : list (Q * Z)) : result t :=
  match calls with
  | [] => Ok self
  | call :: rest => self' ← update self call.1 call.2; update_all self' rest
  end.

(** The weighted sum of the values of a sequence of calls, accumulated from
    [acc] in call order, and the sum of their weights. *)
Definition weighted_sum_from (acc : Q) (calls : list (Q * Z)) : Q :=
  foldl (fun acc call => (acc + call.1 * inject_Z call.2)%Q) acc calls.

Definition total_weight_from (acc : Z) (calls : list (Q * Z)) : Z :=
  foldl (fun acc call => (acc + call.2)%Z) acc calls.

End AverageMeter.

(** ** Top-k accuracy *)

(** A score matrix of shape [[batch, classes]]: [rows] has one list of
    [ncols] scores per sample. *)
Record Tensor2 : Type := {
  ncols : nat;
  rows : list (list Q)
}.

Definition well_shaped (output : Tensor2) : Prop :=
  Forall (fun row => length row = ncols output) (rows output).

(** [max(topk)]; the maximum of an empty tuple is a [ValueError]. *)
Definition py_max (topk : list nat) : result nat :=
  match topk with
  | [] => Raise ValueError
  | k :: ks => Ok (foldr Nat.max k ks)
  end.

(** Modelled from the spec: the order in which [torch.topk] lists the
    classes of a row (the routine belongs to the tensor library, not to the
    repository).  A (class, score) pair is inserted in a list sorted by
    descending score before the first entry that does not score strictly
    higher. *)
Fixpoint insert_desc (x : nat * Q) (l : list (nat * Q)) : list (nat * Q) :=
  match l with
  | [] => [x]
  | y :: l' =>
      if Qle_bool (snd y) (snd x) then x :: y :: l' else y :: insert_desc x l'
  end.

(** Modelled from the spec: the classes of a row as [torch.topk] orders
    them, by descending score and, among equal scores, by ascending class
    index (section 4.2). *)
Definition argsort_desc (row : list Q) : list nat :=
  (foldr insert_desc [] (imap (fun i x => (i, x)) row)).*1.

(** Modelled from the spec: [torch.topk(k, largest=True, sorted=True)] on
    one row.  The routine belongs to the tensor library, not to the
    repository; the spec fixes its choice among equal scores (section 4.2:
    the lowest class index wins). *)
Definition topk_row (k : nat) (row : list Q) : list nat :=
  take k (argsort_desc row).

(** [_, pred = output.topk(maxk, 1, True, True)]: the selection fails when
    [maxk] exceeds the number of classes. *)
Definition tensor_topk (output : Tensor2) (maxk : nat) : result (list (list nat)) :=
  if (maxk <=? ncols output)%nat then Ok (topk_row maxk <$> rows output)
  else Raise RuntimeError.

(** [pred.t()]: from [[batch, maxk]] to [[maxk, batch]]. *)
Definition transpose (maxk : nat) (pred : list (list nat)) : list (list nat) :=
  (fun i => (fun sel => nth i sel 0%nat) <$> pred) <$> seq 0 maxk.

(** [target.reshape(1, -1).expand_as(pred)]: one row of labels, repeated
    along the first dimension; a single label is broadcast along the batch,
    any other size mismatch is an error. *)
Definition expand_as (target : list Z) (batch : nat) : result (list Z) :=
  if (length target =? batch)%nat then Ok target
  else match target with
       | [label] => Ok (replicate batch label)
       | _ => Raise RuntimeError
       end.

(** [pred.eq(...)], elementwise. *)
Definition tensor_eq (pred : list (list nat)) (labels : list Z) : list (list bool) :=
  (fun row => zip_with (fun c label => (Z.of_nat c =? label)%Z) row labels) <$> pred.

(** [t.reshape(-1).float().sum(0, keepdim=True)] on a boolean tensor. *)
Definition sum_flat (t : list (list bool)) : Z :=
  Z.of_nat (length (filter (fun b => b = true) (concat t))).

(** [100.0 / batch_size]: the exact quotient.  [float32_scale] below is
    the scaling with its roundings. *)
Definition percent_scale (batch_size : nat) : result Q :=
  if (batch_size =? 0)%nat then Raise ZeroDivisionError
  else Ok (100 / inject_Z (Z.of_nat batch_size))%Q.

Definition accuracy (output : Tensor2) (target : list Z) (topk : list nat)
  : result (list Q) :=
  maxk ← py_max topk;
  let batch_size := length target in
  pred ← tensor_topk output maxk;
  let pred := transpose maxk pred in
  labels ← expand_as target (length (rows output));
  let correct := tensor_eq pred labels in
  mapM (fun k =>
          let correct_k := sum_flat (take k correct) in
          scale ← percent_scale batch_size;
          Ok (inject_Z correct_k * scale)%Q)
       topk.

(** The order of the selection: a (class, score) pair ranks before another
    when it scores strictly higher, or scores the same and has the lower
    class index. *)
Definition ranks_before (p q : nat * Q) : Prop :=
  (q.2 < p.2)%Q ∨ ((q.2 == p.2)%Q ∧ (p.1 < q.1)%nat).

(** The label of a sample is among its [k] selected classes. *)
Definition in_topk (k : nat) (row : list Q) (label : Z) : bool :=
  bool_decide (label ∈ Z.of_nat <$> topk_row k row).

(** The number of [true] entries of a list. *)
Definition count_true (l : list bool) : nat :=
  length (filter (fun b => b = true) l).

(** The number of samples whose label is among their [k] selected classes. *)
Definition hits (k : nat) (output : Tensor2) (target : list Z) : nat :=
  count_true (zip_with (in_topk k) (rows output) target).

(** The same scores after an elementwise transformation, such as a change
    of temperature. *)
Definition map_scores (f : Q → Q) (output : Tensor2) : Tensor2 :=
  {| ncols := ncols output; rows := (fun row : list Q => f <$> row) <$> rows output |}.

(** A batch given sample by sample: the scores and the label of each. *)
Definition batch_of (classes : nat) (samples : list (list Q * Z)) : Tensor2 * list Z :=
  ({| ncols := classes; rows := samples.*1 |}, samples.*2).

(** ** Top-k accuracy with the library routines left open *)

(** What the tensor library documents of [topk(k, largest=True,
    sorted=True)] on a row of at least [k] scores: the positions of [k]
    distinct entries, listed by descending score, none of them scoring
    lower than an entry left out.  The order among equal scores is no part
    of it. *)
Definition topk_contract (sel : nat → list Q → list nat) : Prop :=
  ∀ k row,
    (k ≤ length row)%nat →
    length (sel k row) = k
    ∧ NoDup (sel k row)
    ∧ (∀ c, c ∈ sel k row → (c < length row)%nat)
    ∧ (∀ i j c c' s s',
         (i < j)%nat → sel k row !! i = Some c → sel k row !! j = Some c' →
         row !! c = Some s → row !! c' = Some s' → (s' <= s)%Q)
    ∧ (∀ c c' s s',
         c ∈ sel k row → c' ∉ sel k row →
         row !! c = Some s → row !! c' = Some s' → (s' <= s)%Q).

(** [accuracy] with the selection of [torch.topk] and the scaling
    [correct_k.mul_(100.0 / batch_size)] as parameters. *)
Definition accuracy_with {F : Type} (sel : nat → list Q → list nat)
    (scale : Z → nat → result F) (output : Tensor2) (target : list Z) (topk : list nat)
  : result (list F) :=
  maxk ← py_max topk;
  let batch_size := length target in
  pred ← (if (maxk <=? ncols output)%nat then Ok (sel maxk <$> rows output)
          else Raise RuntimeError);
  let pred := transpose maxk pred in
  labels ← expand_as target (length (rows output));
  let correct := tensor_eq pred labels in
  mapM (fun k => scale (sum_flat (take k correct)) batch_size) topk.

(** The scaling in exact arithmetic, as in [accuracy]. *)
Definition exact_scale (correct_k : Z) (batch_size : nat) : result Q :=
  scale ← percent_scale batch_size; Ok (inject_Z correct_k * scale)%Q.

(** The scaling as the tensor library computes it: [100.0 / batch_size] is
    a double, rounded to single precision when it meets the [float32]
    tensor that holds the count, and the product is rounded again. *)
Definition float32_scale (correct_k : Z) (batch_size : nat) : result Float32.float :=
  scale ← Binary64.float_div_int Binary64.hundred (Z.of_nat batch_size);
  Ok (Float32.mul (Float32.of_count correct_k) (Float32.of_double scale)).

(** The number of samples whose label is among the first [k] of the [maxk]
    classes selected for them. *)
Definition hits_with (sel : nat → list Q → list nat) (maxk k : nat)
    (output : Tensor2) (target : list Z) : nat :=
  count_true (zip_with (fun row label =>
                          bool_decide (label ∈ Z.of_nat <$> take k (sel maxk row)))
                       (rows output) target).

(** ** The evaluation loop *)

Module Validate.

(** What one iteration of the loop sees after the forward pass and the
    gather: the gathered scores and labels, the value of the criterion on
    them, and the wall-clock time the iteration took. *)
Record Iteration : Type := {
  output_all : Tensor2;
  target_all : list Z;
  loss : Q;
  elapsed : Q
}.

(** The progress bar: its length, how many steps were shown, the current
    description (the two averages the message is formatted from) and
    whether it was closed. *)
Record Pbar : Type := {
  total : nat;
  shown : nat;
  description : option (Q * Q);
  closed : bool
}.

Definition tqdm (num_iter : nat) : Pbar :=
  {| total := num_iter; shown := 0; description := None; closed := false |}.

Definition set_description (msg : Q * Q) (pbar : Pbar) : Pbar :=
  {| total := total pbar; shown := shown pbar;
     description := Some msg; closed := closed pbar |}.

Definition pbar_update (pbar : Pbar) : Pbar :=
  {| total := total pbar; shown := S (shown pbar);
     description := description pbar; closed := closed pbar |}.

Definition pbar_close (pbar : Pbar) : Pbar :=
  {| total := total pbar; shown := shown pbar;
     description := description pbar; closed := true |}.

Record Meters : Type := {
  batch_time : AverageMeter.t;
  losses : AverageMeter.t;
  top1 : AverageMeter.t;
  top5 : AverageMeter.t
}.

(** The body of the [for] loop, lines 44 to 67, from the call of
    [accuracy] on: what runs before it has returned the fields of [it]
    ([ValidateRun] has it raise as well). *)
Definition step (IS_MASTER : bool) (st : Meters * option Pbar) (it : Iteration)
  : result (Meters * option Pbar) :=
  let '(m, pbar) := st in
  let batch_size := Z.of_nat (length (target_all it)) in
  accs ← accuracy (output_all it) (target_all it) [1; 5]%nat;
  match accs with
  | [acc1; acc5] =>
      losses' ← AverageMeter.update (losses m) (loss it) batch_size;
      top1' ← AverageMeter.update (top1 m) acc1 batch_size;
      top5' ← AverageMeter.update (top5 m) acc5 batch_size;
      batch_time' ← AverageMeter.update (batch_time m) (elapsed it) 1;
      let m' := {| batch_time := batch_time'; losses := losses';
                   top1 := top1'; top5 := top5' |} in
      let pbar' :=
        if IS_MASTER then
          let msg := (AverageMeter.avg top1', AverageMeter.avg top5') in
          pbar_update <$> (set_description msg <$> pbar)
        else pbar in
      Ok (m', pbar')
  | _ => Raise ValueError
  end.

Fixpoint loop (IS_MASTER : bool) (st : Meters * option Pbar) (val_loader : list Iteration)
  : result (Meters * option Pbar) :=
  match val_loader with
  | [] => Ok st
  | it :: rest => st' ← step IS_MASTER st it; loop IS_MASTER st' rest
  end.

(** [validate]; [IS_MASTER_NODE] is the integer read from the environment.
    The result is the triple of averages together with the progress bar
    as the call leaves it. *)
Definition validate (IS_MASTER_NODE : Z) (val_loader : list Iteration)
  : result ((Q * Q * Q) * option Pbar) :=
  let IS_MASTER := negb (IS_MASTER_NODE =? 0)%Z in
  let m := {| batch_time := AverageMeter.init; losses := AverageMeter.init;
              top1 := AverageMeter.init; top5 := AverageMeter.init |} in
  let num_iter := length val_loader in
  let pbar := if IS_MASTER then Some (tqdm num_iter) else None in
  st ← loop IS_MASTER (m, pbar) val_loader;
  let m : Meters := st.1 in
  let pbar : option Pbar := st.2 in
  let pbar := if IS_MASTER then pbar_close <$> pbar else pbar in
  Ok ((AverageMeter.avg (top1 m), AverageMeter.avg (top5 m), AverageMeter.avg (losses m)),
      pbar).

(** The metrics a run returns, whatever it displayed. *)
Definition metrics (r : result ((Q * Q * Q) * option Pbar)) : result (Q * Q * Q) :=
  fst <$> r.

End Validate.

(** ** Checkpoints *)

Module Checkpoint.

(** Modelled from the spec: the serializer behind [torch.save] and
    [torch.load] belongs to the tensor library, and the byte format of a
    checkpoint is opaque (spec, sections 1 and 4.6).  [torch_save] is
    [torch.save(obj, f)] seen as the bytes it writes, [torch_load_cpu] is
    [torch.load(f, map_location="cpu", weights_only=False)] on the bytes
    it reads, and [to_cpu] moves a state to host memory. *)
Class Serializer (State : Type) : Type := {
  torch_save : State → list byte;
  torch_load_cpu : list byte → result State;
  to_cpu : State → State
}.

(** Modelled from the spec: [load] deserializes the blob back into host
    memory in the same representation (section 4.6). *)
Class SerializerLaws (State : Type) `{Serializer State} : Prop := {
  load_save : ∀ obj, torch_load_cpu (torch_save obj) = Ok (to_cpu obj);
  to_cpu_idemp : ∀ obj, to_cpu (to_cpu obj) = to_cpu obj
}.

(** Two states are equivalent when they agree once both are in host memory. *)
Definition equivalent {State : Type} `{Serializer State} (a b : State) : Prop :=
  to_cpu a = to_cpu b.

(** The files, each under the path it was opened with, and the paths
    [open(path, "wb")] can create or truncate.  Two spellings of the path
    of one file are not identified. *)
Record FileSystem : Type := {
  files : gmap string (list byte);
  creatable : string → bool
}.

Definition save_checkpoint {State : Type} `{Serializer State}
    (obj : State) (path : string) (fs : FileSystem) : result FileSystem :=
  if creatable fs path then
    Ok {| files := <[path := torch_save obj]> (files fs); creatable := creatable fs |}
  else Raise OSError.

Definition load_checkpoint {State : Type} `{Serializer State}
    (path : string) (fs : FileSystem) : result State :=
  match files fs !! path with
  | Some blob => torch_load_cpu blob
  | None => Raise OSError
  end.

(** A small serializer: a state is a device flag ([true] for an
    accelerator) and a payload; the flag is the first byte of the blob. *)
Definition flagged_serializer : Serializer (bool * list byte) := {|
  torch_save := λ obj : bool * list byte, (if obj.1 then x01 else x00) :: obj.2;
  torch_load_cpu := λ blob : list byte,
    match blob with
    | [] => Raise RuntimeError
    | _ :: payload => Ok (false, payload)
    end;
  to_cpu := λ obj : bool * list byte, (false, obj.2)
|}.

End Checkpoint.

(** ** Log messages *)

Module Log.

(** The dictionary literal of lines 74 to 78. *)
Definition color_map : gmap string Z :=
  <["INFO" := 36%Z]> (<["TRAIN" := 32%Z]> (<["EVAL" := 31%Z]> ∅)).

(** The escape character, written ["\033"] in the source. *)
Definition ESC : string := String (Ascii.ascii_of_nat 27) "".

(** [log_msg(msg, mode)]: the colour is looked up first, then the three
    values are formatted into the template. *)
Definition log_msg (msg mode : string) : result string :=
  color ← Schedule.getitem color_map mode;
  Ok (ESC +:+ "[" +:+ pretty color +:+ "m[" +:+ mode +:+ "] " +:+ msg +:+ ESC +:+ "[0m").

(** The default of the second argument. *)
Definition log_msg_default (msg : string) : result string := log_msg msg "INFO".

End Log.

(** ** The evaluation loop, seen from its caller *)

Module ValidateView.

Import Validate.

(** [len(target_all)], the weight of an iteration in the three meters. *)
Definition batch_size (it : Iteration) : Z := Z.of_nat (length (target_all it)).

(** The [i]-th accuracy of an iteration, 0 for top-1 and 1 for top-5
    (meaningful when the [accuracy] call of the iteration returns). *)
Definition acc_at (i : nat) (it : Iteration) : Q :=
  match accuracy (output_all it) (target_all it) [1; 5]%nat with
  | Ok accs => nth i accs 0%Q
  | Raise _ => 0%Q
  end.

(** The updates a meter receives over a whole loader. *)
Definition meter_calls (value : Iteration → Q) (val_loader : list Iteration)
  : list (Q * Z) :=
  (fun it => (value it, batch_size it)) <$> val_loader.

(** The gathered scores are a matrix with one row per gathered label. *)
Definition shapes_agree (it : Iteration) : Prop :=
  well_shaped (output_all it)
  ∧ length (target_all it) = length (rows (output_all it)).

(** The top-1 meter and the top-5 meter have seen the same weights, and
    the top-1 meter the smaller values, none of them negative. *)
Definition top_ordered (m : Meters) : Prop :=
  AverageMeter.count (top1 m) = AverageMeter.count (top5 m)
  ∧ (0 ≤ AverageMeter.count (top1 m))%Z
  ∧ (0 <= AverageMeter.sum (top1 m))%Q
  ∧ (AverageMeter.sum (top1 m) <= AverageMeter.sum (top5 m))%Q
  ∧ (0 <= AverageMeter.avg (top1 m))%Q
  ∧ (AverageMeter.avg (top1 m) <= AverageMeter.avg (top5 m))%Q.

(** The top-5 meter has seen no value above 100. *)
Definition top_bounded (m : Meters) : Prop :=
  (0 ≤ AverageMeter.count (top5 m))%Z
  ∧ (AverageMeter.sum (top5 m) <= 100 * inject_Z (AverageMeter.count (top5 m)))%Q
  ∧ (AverageMeter.avg (top5 m) <= 100)%Q.

(** Two gathered batches over six classes: two samples, then one. *)
Definition example_loader : list Iteration :=
  [ {| output_all := {| ncols := 6; rows := [[1; 3; 2; 0; 0; 0]; [5; 5; 0; 0; 0; 0]]%Q |};
       target_all := [1; 1]%Z; loss := 1 # 2; elapsed := 1 |};
    {| output_all := {| ncols := 6; rows := [[0; 1; 2; 3; 4; 9]]%Q |};
       target_all := [0]%Z; loss := 3 # 2; elapsed := 1 |} ].

End ValidateView.

(** ** The evaluation loop and its collaborators *)

Module ValidateRun.

Import Validate.

(** The loop seen with its collaborators.  Before [accuracy] is called, an
    iteration fetches a batch from the loader and runs the forward pass, the
    two gathers and the criterion, and any of them may raise: [Ok it] is an iteration on which they returned
    what [it] records, [Raise e] one on which [e] was raised. *)
Fixpoint loop_attempts (IS_MASTER : bool) (st : Meters * option Pbar)
    (val_loader : list (result Iteration)) : result (Meters * option Pbar) :=
  match val_loader with
  | [] => Ok st
  | attempt :: rest =>
      it ← attempt;
      st' ← step IS_MASTER st it;
      loop_attempts IS_MASTER st' rest
  end.

(** [validate] over such a loader. *)
Definition validate_attempts (IS_MASTER_NODE : Z) (val_loader : list (result Iteration))
  : result ((Q * Q * Q) * option Pbar) :=
  let IS_MASTER := negb (IS_MASTER_NODE =? 0)%Z in
  let m := {| batch_time := AverageMeter.init; losses := AverageMeter.init;
              top1 := AverageMeter.init; top5 := AverageMeter.init |} in
  let num_iter := length val_loader in
  let pbar := if IS_MASTER then Some (tqdm num_iter) else None in
  st ← loop_attempts IS_MASTER (m, pbar) val_loader;
  let m : Meters := st.1 in
  let pbar : option Pbar := st.2 in
  let pbar := if IS_MASTER then pbar_close <$> pbar else pbar in
  Ok ((AverageMeter.avg (top1 m), AverageMeter.avg (top5 m), AverageMeter.avg (losses m)),
      pbar).

End ValidateRun.

(** ** The table of ImageNet models *)

Module ImagenetModels.

(** The constructors imported on lines 1 to 8 of
    [mdistiller/models/imagenet/__init__.py]. *)
Inductive constructor : Type :=
| resnet18 | resnet34 | resnet50 | resnet101 | resnet152
| MobileNetV1
| vit_tiny_patch16_224 | vit_small_patch16_224
| vit_base_patch16_224 | vit_large_patch16_224.

(** A dictionary literal: the items are inserted in order, so a later item
    with the same key replaces an earlier one. *)
Definition dict_literal {V : Type} (items : list (string * V)) : gmap string V :=
  list_to_map (reverse items).

Definition imagenet_model_items : list (string * constructor) :=
  [ ("ResNet18", resnet18);
    ("ResNet34", resnet34);
    ("ResNet50", resnet50);
    ("ResNet101", resnet101);
    ("MobileNetV1", MobileNetV1);
    ("vit_tiny", vit_tiny_patch16_224);
    ("vit_tiny.unic", vit_tiny_patch16_224);
    ("vit_small", vit_small_patch16_224);
    ("vit_base", vit_base_patch16_224);
    ("vit_base.unic", vit_base_patch16_224);
    ("vit_large", vit_large_patch16_224) ].

Definition imagenet_model_dict : gmap string constructor :=
  dict_literal imagenet_model_items.

End ImagenetModels.

(** * Properties *)

(** ** The learning-rate schedule *)

Section ScheduleFacts.

Import Schedule.
Open Scope Z_scope.

Lemma set_lr_all_groups_hold new_lr optimizer :
  all_groups_hold new_lr (set_lr new_lr optimizer).
Proof.
  unfold all_groups_hold, set_lr; simpl.
  apply Forall_fmap, Forall_true; intros param_group; simpl.
  apply lookup_insert_eq.
Qed.

Lemma set_lr_other_keys new_lr optimizer i key param_group :
  key ≠ "lr" →
  param_groups optimizer !! i = Some param_group →
  ∃ param_group', param_groups (set_lr new_lr optimizer) !! i = Some param_group'
                  ∧ param_group' !! key = param_group !! key.
Proof.
  intros Hkey Hi. exists (<["lr" := new_lr]> param_group). split.
  - unfold set_lr; simpl. rewrite list_lookup_fmap, Hi; done.
  - apply lookup_insert_ne; congruence.
Qed.

Lemma set_lr_length new_lr optimizer :
  length (param_groups (set_lr new_lr optimizer)) = length (param_groups optimizer).
Proof. unfold set_lr; simpl. apply length_fmap. Qed.

Lemma multistep_dispatch epoch bidx cfg optimizer :
  TYPE (SCHEDULE (SOLVER cfg)) = "MULTISTEP" →
  adjust_learning_rate epoch bidx cfg optimizer = multistep_lr epoch bidx cfg optimizer.
Proof. intros Hty. unfold adjust_learning_rate. rewrite Hty. reflexivity. Qed.

Lemma cosine_dispatch epoch bidx cfg optimizer :
  TYPE (SCHEDULE (SOLVER cfg)) = "COSINE" →
  adjust_learning_rate epoch bidx cfg optimizer = cosine_lr epoch bidx cfg optimizer.
Proof. intros Hty. unfold adjust_learning_rate. rewrite Hty. reflexivity. Qed.

Lemma other_dispatch epoch bidx cfg optimizer :
  TYPE (SCHEDULE (SOLVER cfg)) ≠ "MULTISTEP" →
  TYPE (SCHEDULE (SOLVER cfg)) ≠ "COSINE" →
  adjust_learning_rate epoch bidx cfg optimizer
  = Raise (NotImplementedError (TYPE (SCHEDULE (SOLVER cfg)))).
Proof.
  intros Hm Hc. unfold adjust_learning_rate.
  apply String.eqb_neq in Hm, Hc. rewrite Hm, Hc. reflexivity.
Qed.

(** Whatever the cosine branch returns, it has written it everywhere. *)
Lemma cosine_lr_writes epoch bidx cfg optimizer r optimizer' :
  cosine_lr epoch bidx cfg optimizer = Ok (r, optimizer') →
  optimizer' = set_lr r optimizer.
Proof.
  unfold cosine_lr.
  destruct (getitem dataset_sizes (DATASET_TYPE cfg)) as [n|]; simpl; [|discriminate].
  destruct (ceil_div n (BATCH_SIZE (SOLVER cfg))) as [b|]; simpl; [|discriminate].
  match goal with |- (?c ≫= _) = _ → _ => destruct c as [new_lr|] end;
    simpl; [|discriminate].
  intros [= <- <-]. reflexivity.
Qed.

(** C1, as stated, fails.  A MULTISTEP call at batch 0 of an epoch that
    exceeds no stage returns the base rate and writes nothing: an optimizer
    holding 0.5 still holds 0.5 after the call returned 0.1. *)
Lemma adjust_writes_every_rate_counterexample :
  ¬ (∀ epoch bidx cfg optimizer r optimizer',
       (TYPE (SCHEDULE (SOLVER cfg)) = "COSINE"
        ∨ (TYPE (SCHEDULE (SOLVER cfg)) = "MULTISTEP" ∧ bidx = 0)) →
       adjust_learning_rate epoch bidx cfg optimizer = Ok (r, optimizer') →
       all_groups_hold r optimizer').
Proof.
  intros Hclaim.
  specialize (Hclaim 1 0 (example_cfg "MULTISTEP" 64) (single_group 0.5%R)
                     0.1%R (single_group 0.5%R)).
  assert (Hheld : all_groups_hold 0.1%R (single_group 0.5%R)).
  { apply Hclaim; [right; split; reflexivity | reflexivity]. }
  unfold all_groups_hold, single_group in Hheld; simpl in Hheld.
  apply Forall_cons_1 in Hheld as [Hlr _].
  rewrite lookup_singleton_eq in Hlr. injection Hlr as Hlr. lra.
Qed.

(** C1, amended: every COSINE call that returns, and every MULTISTEP call
    at batch 0 of an epoch that exceeds at least one stage, writes the
    returned rate into the ["lr"] entry of every parameter group (the
    optimizer after the call is the one before it with that entry set in
    each group).  A MULTISTEP call at batch 0 of an epoch that exceeds no
    stage returns the base rate and leaves the optimizer as it was. *)
Theorem adjust_writes_computed_rate epoch bidx cfg optimizer r optimizer' :
  adjust_learning_rate epoch bidx cfg optimizer = Ok (r, optimizer') →
  let ty := TYPE (SCHEDULE (SOLVER cfg)) in
  let steps := count_exceeded epoch (STAGES (MULTISTEP (SCHEDULE (SOLVER cfg)))) in
  (ty = "COSINE" ∨ (ty = "MULTISTEP" ∧ bidx = 0 ∧ (0 < steps)%nat) →
     optimizer' = set_lr r optimizer ∧ all_groups_hold r optimizer')
  ∧ (ty = "MULTISTEP" ∧ bidx = 0 ∧ steps = 0%nat →
     r = LR (SOLVER cfg) ∧ optimizer' = optimizer).
Proof.
  intros Hcall ty steps. split.
  - intros [Hty | (Hty & -> & Hsteps)].
    + rewrite cosine_dispatch in Hcall by exact Hty.
      apply cosine_lr_writes in Hcall as ->.
      split; [reflexivity | apply set_lr_all_groups_hold].
    + rewrite multistep_dispatch in Hcall by exact Hty.
      unfold multistep_lr in Hcall; simpl in Hcall. fold steps in Hcall.
      apply Nat.ltb_lt in Hsteps. rewrite Hsteps in Hcall.
      injection Hcall as <- <-.
      split; [reflexivity | apply set_lr_all_groups_hold].
  - intros (Hty & -> & Hsteps).
    rewrite multistep_dispatch in Hcall by exact Hty.
    unfold multistep_lr in Hcall; simpl in Hcall. fold steps in Hcall.
    rewrite Hsteps in Hcall; simpl in Hcall.
    injection Hcall as <- <-. split; reflexivity.
Qed.

(** The call of the spec's example (epoch 45, one stage exceeded) on an
    optimizer holding 0.5: every group holds the returned rate afterwards. *)
Lemma adjust_writes_computed_rate_witness :
  all_groups_hold (0.1 * 0.1 ^ 1)%R
    (set_lr (0.1 * 0.1 ^ 1)%R (single_group 0.5%R)).
Proof.
  pose proof (adjust_writes_computed_rate 45 0 (example_cfg "MULTISTEP" 64)
                (single_group 0.5%R) (0.1 * 0.1 ^ 1)%R
                (set_lr (0.1 * 0.1 ^ 1)%R (single_group 0.5%R)) eq_refl) as [Hwritten _].
  apply Hwritten. right.
  split; [reflexivity | split; [reflexivity | vm_compute; lia]].
Defined.

Lemma set_lr_idemp new_lr optimizer :
  set_lr new_lr (set_lr new_lr optimizer) = set_lr new_lr optimizer.
Proof.
  unfold set_lr; simpl. f_equal.
  rewrite <- list_fmap_compose. apply list_fmap_ext.
  intros _ param_group _; simpl. apply insert_insert_eq.
Qed.

Lemma first_lr_set_lr new_lr optimizer :
  param_groups optimizer ≠ [] → first_lr (set_lr new_lr optimizer) = Ok new_lr.
Proof.
  unfold first_lr, set_lr; simpl.
  destruct (param_groups optimizer) as [|param_group rest]; [done|]; intros _; simpl.
  rewrite lookup_insert_eq. reflexivity.
Qed.

Lemma first_lr_param_groups optimizer lr :
  first_lr optimizer = Ok lr → param_groups optimizer ≠ [].
Proof. unfold first_lr. destruct (param_groups optimizer); [discriminate | done]. Qed.

(** C2, as stated, fails, even when the calls of one epoch are made in
    order on the same optimizer.  In epoch 1 no stage is exceeded: the call
    at batch 0 returns the base rate 0.1 and writes nothing, and the call at
    batch 1 returns what the optimizer holds, here 0.5. *)
Lemma multistep_rate_constant_counterexample :
  ¬ (∀ epoch bidx cfg optimizer r0 optimizer1 r optimizer2,
       TYPE (SCHEDULE (SOLVER cfg)) = "MULTISTEP" →
       adjust_learning_rate epoch 0 cfg optimizer = Ok (r0, optimizer1) →
       adjust_learning_rate epoch bidx cfg optimizer1 = Ok (r, optimizer2) →
       r = r0
       ∧ r = (LR (SOLVER cfg)
              * MULTISTEP_RATE (MULTISTEP (SCHEDULE (SOLVER cfg)))
                ^ count_exceeded epoch (STAGES (MULTISTEP (SCHEDULE (SOLVER cfg)))))%R).
Proof.
  intros Hclaim.
  destruct (Hclaim 1 1 (example_cfg "MULTISTEP" 64) (single_group 0.5%R)
                   0.1%R (single_group 0.5%R) 0.5%R (single_group 0.5%R)
                   eq_refl eq_refl eq_refl) as [Hsame _].
  lra.
Qed.

(** C2, amended.  For a MULTISTEP configuration, the call at batch 0 of an
    epoch returns [base_lr * decay_rate ^ s], [s] being the number of stages
    strictly below the epoch.  A call at any other batch index returns the
    rate the first parameter group holds and changes nothing.  Hence, once
    the batch-0 call is made, the calls at all batch indices of the epoch
    return [base_lr * decay_rate ^ s], provided the optimizer has a
    parameter group and either [s > 0] or its first group already held the
    base rate.  With base rate 0.1, stages 30, 60, 90 and decay rate 0.1,
    the call at batch 0 of epoch 45 returns 0.01. *)
Theorem multistep_rate_within_epoch epoch cfg optimizer :
  TYPE (SCHEDULE (SOLVER cfg)) = "MULTISTEP" →
  let steps := count_exceeded epoch (STAGES (MULTISTEP (SCHEDULE (SOLVER cfg)))) in
  let rate :=
    (LR (SOLVER cfg) * MULTISTEP_RATE (MULTISTEP (SCHEDULE (SOLVER cfg))) ^ steps)%R in
  (∃ optimizer1,
      adjust_learning_rate epoch 0 cfg optimizer = Ok (rate, optimizer1)
      ∧ (∀ bidx any, bidx ≠ 0 →
           adjust_learning_rate epoch bidx cfg any
           = (lr ← first_lr any; Ok (lr, any)))
      ∧ (param_groups optimizer ≠ [] →
         (0 < steps)%nat ∨ first_lr optimizer = Ok (LR (SOLVER cfg)) →
         ∀ bidx, adjust_learning_rate epoch bidx cfg optimizer1 = Ok (rate, optimizer1)))
  ∧ (∀ any, ∃ any',
       adjust_learning_rate 45 0 (example_cfg "MULTISTEP" 64) any = Ok (0.01%R, any')).
Proof.
  intros Hty steps rate. split.
  - assert (Hother : ∀ bidx any, bidx ≠ 0 →
              adjust_learning_rate epoch bidx cfg any
              = (lr ← first_lr any; Ok (lr, any))).
    { intros bidx any Hbidx. rewrite multistep_dispatch by exact Hty.
      unfold multistep_lr. apply Z.eqb_neq in Hbidx. rewrite Hbidx. reflexivity. }
    assert (Hzero : ∀ any,
              adjust_learning_rate epoch 0 cfg any
              = if (0 <? steps)%nat then Ok (rate, set_lr rate any)
                else Ok (rate, any)).
    { intros any. rewrite multistep_dispatch by exact Hty.
      unfold multistep_lr; simpl. fold steps. fold rate.
      destruct (0 <? steps)%nat eqn:Hsteps; [reflexivity|].
      apply Nat.ltb_ge in Hsteps. assert (steps = 0%nat) as Hs by lia.
      subst rate. rewrite Hs. simpl. rewrite Rmult_1_r. reflexivity. }
    exists (if (0 <? steps)%nat then set_lr rate optimizer else optimizer).
    split; [|split].
    + rewrite Hzero. destruct (0 <? steps)%nat; reflexivity.
    + exact Hother.
    + intros Hgroups Hheld bidx.
      destruct (decide (bidx = 0)) as [-> | Hbidx].
      * rewrite Hzero. destruct (0 <? steps)%nat; [|reflexivity].
        rewrite set_lr_idemp. reflexivity.
      * rewrite Hother by exact Hbidx.
        destruct (0 <? steps)%nat eqn:Hsteps.
        -- rewrite first_lr_set_lr by exact Hgroups. reflexivity.
        -- apply Nat.ltb_ge in Hsteps. destruct Hheld as [Hpos | Hheld]; [lia|].
           rewrite Hheld. simpl. assert (steps = 0%nat) as Hs by lia.
           subst rate. rewrite Hs. simpl. rewrite Rmult_1_r. reflexivity.
  - intros any. exists (set_lr 0.01%R any).
    replace 0.01%R with (0.1 * 0.1 ^ 1)%R by lra. reflexivity.
Qed.

(** The spec's example on an optimizer holding 0.5: after the call at batch
    0 of epoch 45, the call at batch 7 returns the same rate. *)
Lemma multistep_rate_within_epoch_witness :
  ∃ optimizer1,
    adjust_learning_rate 45 0 (example_cfg "MULTISTEP" 64) (single_group 0.5%R)
    = Ok ((0.1 * 0.1 ^ 1)%R, optimizer1)
    ∧ adjust_learning_rate 45 7 (example_cfg "MULTISTEP" 64) optimizer1
      = Ok ((0.1 * 0.1 ^ 1)%R, optimizer1).
Proof.
  destruct (multistep_rate_within_epoch 45 (example_cfg "MULTISTEP" 64)
              (single_group 0.5%R) eq_refl) as [(optimizer1 & Hzero & _ & Hall) _].
  exists optimizer1. split; [exact Hzero|].
  apply Hall; [discriminate | left; vm_compute; lia].
Defined.

(** The integer the code computes is the ceiling of the exact quotient. *)
Lemma ceil_div_spec a b :
  b ≠ 0 → ceil_div a b = Ok (spec_batches_per_epoch a b).
Proof.
  intros Hb. unfold ceil_div, spec_batches_per_epoch.
  apply Z.eqb_neq in Hb as Hb'. rewrite Hb'. f_equal.
  unfold Qceiling, Qfloor, Qdiv, Qinv, Qmult, Qopp, inject_Z; simpl.
  destruct b as [|p|p]; [done| |]; simpl.
  - rewrite Z.mul_1_r. reflexivity.
  - f_equal. rewrite <- Z.div_opp_opp by lia. f_equal; lia.
Qed.

Lemma ceil_div_Ok a b n : ceil_div a b = Ok n → b ≠ 0 ∧ n = spec_batches_per_epoch a b.
Proof.
  intros Hn. assert (b ≠ 0) as Hb.
  { intros ->. discriminate Hn. }
  split; [exact Hb|]. rewrite ceil_div_spec in Hn by exact Hb. congruence.
Qed.

Lemma dataset_sizes_unknown dataset :
  dataset_sizes !! dataset = None ↔ dataset ≠ "imagenet" ∧ dataset ≠ "cifar100".
Proof.
  unfold dataset_sizes. split.
  - intros Hnone. split; intros ->; vm_compute in Hnone; discriminate.
  - intros [Hi Hc]. rewrite !lookup_insert_ne by congruence. apply lookup_empty.
Qed.

End ScheduleFacts.

(** ** Rounding to a double *)

Section Binary64Facts.

Import Binary64.
Open Scope Z_scope.

Section Rounding.

Variables prec emax : Z.

(** The number of binary digits of a positive number. *)
Lemma digits2_pos_bounds m :
  2 ^ (Z.pos (digits2_pos m) - 1) ≤ Z.pos m < 2 ^ Z.pos (digits2_pos m).
Proof.
  induction m as [m IH|m IH|]; simpl digits2_pos.
  - rewrite Pos2Z.inj_succ, (Pos2Z.inj_xI m).
    replace (Z.succ (Z.pos (digits2_pos m)) - 1) with (Z.succ (Z.pos (digits2_pos m) - 1)) by lia.
    rewrite !Z.pow_succ_r by lia.
    destruct IH as [IH1 IH2]. revert IH1 IH2.
    generalize (2 ^ (Z.pos (digits2_pos m) - 1)) (2 ^ Z.pos (digits2_pos m)). lia.
  - rewrite Pos2Z.inj_succ, (Pos2Z.inj_xO m).
    replace (Z.succ (Z.pos (digits2_pos m)) - 1) with (Z.succ (Z.pos (digits2_pos m) - 1)) by lia.
    rewrite !Z.pow_succ_r by lia.
    destruct IH as [IH1 IH2]. revert IH1 IH2.
    generalize (2 ^ (Z.pos (digits2_pos m) - 1)) (2 ^ Z.pos (digits2_pos m)). lia.
  - simpl. lia.
Qed.

Lemma Zdigits2_nonneg m : 0 ≤ Zdigits2 m.
Proof. destruct m; simpl; lia. Qed.

Lemma Zdigits2_bounds m :
  0 < m → 2 ^ (Zdigits2 m - 1) ≤ m < 2 ^ Zdigits2 m.
Proof.
  destruct m as [|m|m]; [lia| |lia]. intros _. apply digits2_pos_bounds.
Qed.

Lemma Zdigits2_le m n : 0 ≤ m → 0 ≤ n → m < 2 ^ n → Zdigits2 m ≤ n.
Proof.
  intros Hm Hn Hlt. destruct (decide (m = 0)) as [->|Hne]; [simpl; lia|].
  destruct (Zdigits2_bounds m) as [Hlo _]; [lia|].
  destruct (Z.le_gt_cases (Zdigits2 m) n) as [|Hgt]; [assumption|].
  assert (2 ^ n ≤ 2 ^ (Zdigits2 m - 1)) by (apply Z.pow_le_mono_r; lia). lia.
Qed.

(** Shifting a mantissa right by one place, and by [n] places, divides it
    by 2 and by [2 ^ n]. *)
Lemma shr_1_m mrs : 0 ≤ shr_m mrs → shr_m (shr_1 mrs) = shr_m mrs / 2.
Proof.
  destruct mrs as [m r s]; simpl. intros Hm.
  destruct m as [|[m|m|]|m]; simpl; try reflexivity; try lia.
  - rewrite (Pos2Z.inj_xI m). apply Z.div_unique with 1; lia.
  - rewrite (Pos2Z.inj_xO m). apply Z.div_unique with 0; lia.
Qed.

Lemma iter_pos_shr_1_m n : ∀ mrs,
  0 ≤ shr_m mrs → shr_m (iter_pos shr_1 n mrs) = shr_m mrs / 2 ^ Z.pos n.
Proof.
  induction n as [n IH|n IH|]; intros mrs Hm; simpl iter_pos.
  - assert (0 ≤ shr_m (shr_1 mrs)) as H1 by (rewrite shr_1_m by lia; apply Z.div_pos; lia).
    assert (0 ≤ shr_m (iter_pos shr_1 n (shr_1 mrs))) as H2.
    { rewrite IH by lia. apply Z.div_pos; lia. }
    rewrite IH by lia. rewrite IH by lia. rewrite shr_1_m by lia.
    rewrite !Z.div_div by lia. f_equal.
    rewrite (Pos2Z.inj_xI n). rewrite Z.pow_add_r, Z.pow_mul_r by lia.
    change (2 ^ 2) with 4. rewrite Z.pow_1_r.
    replace (4 ^ Z.pos n) with (2 ^ Z.pos n * 2 ^ Z.pos n); [lia|].
    rewrite <- Z.pow_mul_l. reflexivity.
  - assert (0 ≤ shr_m (iter_pos shr_1 n mrs)) as H2.
    { rewrite IH by lia. apply Z.div_pos; lia. }
    rewrite IH by lia. rewrite IH by lia.
    rewrite !Z.div_div by lia. f_equal.
    rewrite (Pos2Z.inj_xO n). rewrite Z.pow_mul_r by lia.
    change (2 ^ 2) with 4.
    replace (4 ^ Z.pos n) with (2 ^ Z.pos n * 2 ^ Z.pos n); [lia|].
    rewrite <- Z.pow_mul_l. reflexivity.
  - apply shr_1_m. exact Hm.
Qed.

Lemma shr_record_of_loc_m m l : shr_m (shr_record_of_loc m l) = m.
Proof. destruct l as [|[]]; reflexivity. Qed.

(** Rounding keeps the truncated mantissa or moves to the next one. *)
Lemma round_nearest_even_bounds m l :
  m ≤ round_nearest_even m l ≤ m + 1.
Proof. destruct l as [|[]]; simpl; try destruct (Z.even m); lia. Qed.

(** The alignment step of a rounding: the mantissa is kept when it fits
    the format and shifted right to the format's exponent otherwise. *)
Lemma shr_fexp_spec m e l mrs e' :
  0 ≤ m →
  shr_fexp prec emax m e l = (mrs, e') →
  0 ≤ shr_m mrs
  ∧ ((fexp prec emax (Zdigits2 m + e) - e ≤ 0 ∧ mrs = shr_record_of_loc m l ∧ e' = e)
     ∨ (0 < fexp prec emax (Zdigits2 m + e) - e
        ∧ shr_m mrs = m / 2 ^ (fexp prec emax (Zdigits2 m + e) - e)
        ∧ e' = fexp prec emax (Zdigits2 m + e))).
Proof.
  intros Hm. unfold shr_fexp, shr.
  generalize (fexp prec emax (Zdigits2 m + e)). intros f Hshr.
  destruct (f - e) as [|p|p] eqn:Hn.
  - injection Hshr as <- <-. rewrite shr_record_of_loc_m. split; [lia | left; split; [lia | split; reflexivity]].
  - injection Hshr as <- <-.
    rewrite iter_pos_shr_1_m by (rewrite shr_record_of_loc_m; lia).
    rewrite shr_record_of_loc_m. split; [apply Z.div_pos; lia | right; split; [lia | split; [reflexivity | lia]]].
  - injection Hshr as <- <-. rewrite shr_record_of_loc_m. split; [lia | left; split; [lia | split; reflexivity]].
Qed.

End Rounding.

(** A mantissa and exponent below [2 ^ 1023] in value round to a finite
    double. *)
Lemma binary_round_aux_finite sx mx ex lx :
  0 ≤ mx → ex ≤ 971 → Zdigits2 mx + ex ≤ 1023 →
  Binary64.finite (binary_round_aux 53 1024 sx mx ex lx) = true.
Proof.
  intros Hmx Hex Hdig. unfold binary_round_aux.
  destruct (shr_fexp 53 1024 mx ex lx) as [mrs1 e1] eqn:H1.
  apply shr_fexp_spec in H1 as [Hm1 H1]; [|exact Hmx].
  set (m1 := round_nearest_even (shr_m mrs1) (loc_of_shr_record mrs1)).
  pose proof (round_nearest_even_bounds (shr_m mrs1) (loc_of_shr_record mrs1)) as Hround.
  fold m1 in Hround.
  assert (e1 ≤ 971 ∧ Zdigits2 m1 + e1 ≤ 1024) as [He1 Hd1].
  { unfold fexp, emin in H1. destruct H1 as [(Hn & -> & ->) | (Hn & Hshr & ->)].
    - split; [lia|]. rewrite shr_record_of_loc_m in Hround.
      assert (Zdigits2 m1 ≤ Zdigits2 mx + 1); [|lia].
      pose proof (Zdigits2_nonneg mx).
      apply Zdigits2_le; [lia..|].
      destruct (decide (mx = 0)) as [->|Hne]; [simpl in *; lia|].
      destruct (Zdigits2_bounds mx) as [_ Hhi]; [lia|].
      rewrite Z.pow_add_r, Z.pow_1_r by lia. lia.
    - split; [lia|].
      assert (Zdigits2 m1 ≤ 54); [|lia].
      apply Zdigits2_le; [lia..|].
      assert (shr_m mrs1 < 2 ^ 53); [|lia].
      rewrite Hshr. apply Z.div_lt_upper_bound; [lia|].
      destruct (decide (mx = 0)) as [->|Hne]; [lia|].
      destruct (Zdigits2_bounds mx) as [_ Hhi]; [lia|].
      eapply Z.lt_le_trans; [exact Hhi|].
      rewrite <- Z.pow_add_r by lia. apply Z.pow_le_mono_r; lia. }
  destruct (shr_fexp 53 1024 m1 e1 loc_Exact) as [mrs2 e2] eqn:H2.
  apply shr_fexp_spec in H2 as [Hm2 H2]; [|lia].
  assert (e2 ≤ 971) as He2.
  { unfold fexp, emin in H2. destruct H2 as [(_ & _ & ->) | (_ & _ & ->)]; lia. }
  destruct (shr_m mrs2) as [|m2|m2]; [reflexivity | | lia].
  apply Z.leb_le in He2. change (1024 - 53) with 971. rewrite He2. reflexivity.
Qed.

(** The division of two integer mantissas: the dividend is scaled by a
    power of two so that the integer quotient has 53 or 54 bits, and the
    remainder tells where the exact quotient lies. *)
Lemma SFdiv_core_binary_spec (a b : positive) q e l :
  SFdiv_core_binary 53 1024 (Z.pos a) 0 (Z.pos b) 0 = (q, e, l) →
  e = Z.min (fexp 53 1024 (Zdigits2 (Z.pos a) - Zdigits2 (Z.pos b))) 0
  ∧ q = (Z.pos a * 2 ^ (- e)) / Z.pos b
  ∧ l = new_location (Z.pos b) ((Z.pos a * 2 ^ (- e)) mod Z.pos b).
Proof.
  unfold SFdiv_core_binary.
  replace (Zdigits2 (Z.pos a) + 0 - (Zdigits2 (Z.pos b) + 0))
    with (Zdigits2 (Z.pos a) - Zdigits2 (Z.pos b)) by lia.
  change (0 - 0) with 0.
  set (e' := Z.min _ 0). assert (e' ≤ 0) as He' by lia.
  replace (0 - e') with (- e') by lia.
  set (m' := match - e' with Z.pos _ => _ | _ => _ end).
  assert (m' = Z.pos a * 2 ^ (- e')) as ->.
  { subst m'. destruct (- e') as [|p|p] eqn:Hs; [simpl; lia | | lia].
    rewrite Z.shiftl_mul_pow2 by lia. reflexivity. }
  destruct (Z.div_eucl _ _) as [q' r'] eqn:Hdiv. intros [= <- <- <-].
  unfold Z.div, Z.modulo. rewrite Hdiv. done.
Qed.

(** The quotient of two integers is finite when the dividend is below
    [2 ^ 1023]. *)
Lemma SFdiv_int_finite sa sb (a b : positive) :
  Z.pos a < 2 ^ 1023 →
  Binary64.finite (SFdiv 53 1024 (S754_finite sa a 0) (S754_finite sb b 0)) = true.
Proof.
  intros Ha. unfold SFdiv.
  destruct (SFdiv_core_binary 53 1024 (Z.pos a) 0 (Z.pos b) 0) as [[q e] l] eqn:Hcore.
  apply SFdiv_core_binary_spec in Hcore as (He & Hq & _).
  assert (e ≤ 0) as He0 by lia.
  pose proof (Zdigits2_bounds (Z.pos a) ltac:(lia)) as [Ha1 Ha2].
  pose proof (Zdigits2_bounds (Z.pos b) ltac:(lia)) as [Hb1 Hb2].
  pose proof (Zdigits2_nonneg (Z.pos a)) as Hda.
  assert (1 ≤ Zdigits2 (Z.pos b)) as Hdb by (simpl; lia).
  assert (Zdigits2 (Z.pos a) ≤ 1023) as Hda'.
  { apply Zdigits2_le; lia. }
  assert (0 ≤ q) as Hq0.
  { rewrite Hq. apply Z.div_pos; [|lia]. apply Z.mul_nonneg_nonneg; [lia|].
    apply Z.pow_nonneg. lia. }
  apply binary_round_aux_finite; [exact Hq0 | lia |].
  unfold fexp, emin in He.
  assert (Zdigits2 q ≤ Z.max 0 (Zdigits2 (Z.pos a) - e - Zdigits2 (Z.pos b) + 1)); [|lia].
  apply Zdigits2_le; [exact Hq0 | lia |].
  rewrite Hq. apply Z.div_lt_upper_bound; [lia|].
  assert (Z.pos a * 2 ^ (- e) < 2 ^ (Zdigits2 (Z.pos a) - e)) as Hlt.
  { replace (Zdigits2 (Z.pos a) - e) with (Zdigits2 (Z.pos a) + - e) by lia.
    rewrite Z.pow_add_r by lia.
    apply Z.mul_lt_mono_pos_r; [apply Z.pow_pos_nonneg; lia | exact Ha2]. }
  eapply Z.lt_le_trans; [exact Hlt|].
  eapply Z.le_trans; [|apply Z.mul_le_mono_nonneg_r; [apply Z.pow_nonneg; lia | exact Hb1]].
  rewrite <- Z.pow_add_r by lia. apply Z.pow_le_mono_r; lia.
Qed.

Lemma Zdigits2_unique m n :
  2 ^ (n - 1) ≤ m < 2 ^ n → 1 ≤ n → Zdigits2 m = n.
Proof.
  intros [Hlo Hhi] Hn.
  assert (0 < m) as Hm by (pose proof (Z.pow_pos_nonneg 2 (n - 1)); lia).
  pose proof (Zdigits2_le m n ltac:(lia) ltac:(lia) Hhi) as Hle.
  destruct (Zdigits2_bounds m Hm) as [_ Hhi'].
  destruct (Z.le_gt_cases n (Zdigits2 m)) as [|Hgt]; [lia|].
  assert (2 ^ Zdigits2 m ≤ 2 ^ (n - 1)); [|lia].
  apply Z.pow_le_mono_r; lia.
Qed.

(** The position of the exact quotient between two neighbouring
    mantissas, read off the remainder. *)
Lemma new_location_spec b r :
  0 < b → 0 ≤ r < b →
  new_location b r = if r =? 0 then loc_Exact else loc_Inexact (2 * r ?= b).
Proof.
  intros Hb Hr. unfold new_location, new_location_even, new_location_odd.
  destruct (Z.even b) eqn:Heven; [reflexivity|].
  destruct (r =? 0); [reflexivity|]. f_equal.
  assert (Z.odd b = true) as Hodd by (rewrite <- Z.negb_even, Heven; reflexivity).
  apply Z.odd_spec in Hodd as [c ->].
  destruct (Z.compare_spec (2 * r + 1) (2 * c + 1)) as [Heq | Hlt | Hgt];
    symmetry; [apply Z.compare_lt_iff | apply Z.compare_lt_iff | apply Z.compare_gt_iff]; lia.
Qed.

(** The ceiling of [m / d], by its bracket. *)
Lemma Zceil_unique d m N :
  0 < d → (N - 1) * d < m ≤ N * d → - ((- m) / d) = N.
Proof.
  intros Hd [Hlo Hhi].
  assert ((- m) / d = - N); [|lia].
  symmetry. apply Z.div_unique with (N * d - m); lia.
Qed.

(** The final normalisation of a rounded mantissa, which can have carried
    into a 54th bit, does not change the number, nor its ceiling. *)
Lemma ceil_carry (m1 e1 : Z) sx :
  2 ^ 52 ≤ m1 ≤ 2 ^ 53 → -1074 ≤ e1 ≤ 0 →
  ∃ m2 e2,
    (let '(mrs2, e2) := shr_fexp 53 1024 m1 e1 loc_Exact in
     match shr_m mrs2 with
     | 0 => S754_zero sx
     | Z.pos m => if e2 <=? 1024 - 53 then S754_finite sx m e2 else S754_infinity sx
     | Z.neg _ => S754_nan
     end) = S754_finite sx m2 e2
    ∧ Binary64.ceil (S754_finite sx m2 e2)
      = Ok (- ((- cond_Zopp sx m1) / 2 ^ (- e1))).
Proof.
  intros Hm He. unfold shr_fexp.
  destruct (decide (m1 = 2 ^ 53)) as [-> | Hne].
  - change (Zdigits2 (2 ^ 53)) with 54. unfold fexp, emin.
    replace (Z.max (54 + e1 - 53) (3 - 1024 - 53) - e1) with 1 by lia.
    simpl shr. cbn match.
    assert ((e1 + 1 <=? 1024 - 53) = true) as -> by (apply Z.leb_le; lia).
    eexists _, _. split; [reflexivity|]. unfold Binary64.ceil.
    f_equal. destruct (0 <=? e1 + 1) eqn:Hsign.
    + apply Z.leb_le in Hsign.
      assert (e1 = -1 ∨ e1 = 0) as [-> | ->] by lia; destruct sx; reflexivity.
    + apply Z.leb_gt in Hsign. f_equal.
      replace (- e1) with (1 + - (e1 + 1)) by lia.
      rewrite Z.pow_add_r by lia. change (2 ^ 1) with 2.
      assert (2 ^ (- (e1 + 1)) ≠ 0) as Hnz by (apply Z.pow_nonzero; lia).
      destruct sx; simpl cond_Zopp.
      * change (- - 2 ^ 53) with (2 * Z.pos 4503599627370496).
        rewrite Z.div_mul_cancel_l; [reflexivity | exact Hnz | lia].
      * change (- 2 ^ 53) with (2 * - Z.pos 4503599627370496).
        rewrite Z.div_mul_cancel_l; [reflexivity | exact Hnz | lia].
  - assert (Zdigits2 m1 = 53) as ->.
    { apply Zdigits2_unique; [|lia]. change (53 - 1) with 52. lia. }
    unfold fexp, emin. replace (Z.max (53 + e1 - 53) (3 - 1024 - 53) - e1) with 0 by lia.
    simpl shr. simpl shr_m.
    destruct m1 as [|m1|m1]; [lia | | lia].
    assert ((e1 <=? 1024 - 53) = true) as -> by (apply Z.leb_le; lia).
    eexists _, _. split; [reflexivity|]. unfold Binary64.ceil.
    f_equal. destruct (0 <=? e1) eqn:Hsign; [|reflexivity].
    apply Z.leb_le in Hsign. assert (e1 = 0) as -> by lia.
    change (- 0) with 0. change (2 ^ 0) with 1. rewrite Z.div_1_r. lia.
Qed.

Lemma loc_of_shr_record_of_loc m l : loc_of_shr_record (shr_record_of_loc m l) = l.
Proof. destruct l as [|[]]; reflexivity. Qed.

Lemma shr_1_loc q l :
  0 < q →
  loc_of_shr_record (shr_1 (shr_record_of_loc q l))
  = match Z.odd q, l with
    | false, loc_Exact => loc_Exact
    | false, _ => loc_Inexact Lt
    | true, loc_Exact => loc_Inexact Eq
    | true, _ => loc_Inexact Gt
    end.
Proof.
  intros Hq. destruct q as [|[q|q|]|q]; try lia; destruct l as [|[]]; reflexivity.
Qed.

(** If [a / b] lies in [(N - 1, N]], the scaled integer quotient [q] of
    [a * P] by [b] lies in [((N - 1) * P, N * P]], with a margin that the
    rounding cannot cross.  Likewise for the floor. *)
Lemma quotient_bracket (a b P q r N : Z) :
  0 < b → b < P → a * P = b * q + r → 0 ≤ r < b →
  (N - 1) * b < a ≤ N * b →
  (N - 1) * P < q ≤ N * P
  ∧ (r = 0 → (N - 1) * P + 1 < q)
  ∧ (r ≠ 0 → q < N * P).
Proof.
  intros Hb HP Hdm Hr [HN1 HN2].
  assert (((N - 1) * b + 1) * P ≤ a * P) as H1 by (apply Z.mul_le_mono_nonneg_r; lia).
  assert (a * P ≤ (N * b) * P) as H2 by (apply Z.mul_le_mono_nonneg_r; lia).
  split; [split|split].
  - destruct (Z.lt_ge_cases ((N - 1) * P) q) as [|Hle]; [assumption|].
    assert (b * q ≤ b * ((N - 1) * P)) by (apply Z.mul_le_mono_nonneg_l; lia). lia.
  - destruct (Z.le_gt_cases q (N * P)) as [|Hgt]; [assumption|].
    assert (b * (N * P + 1) ≤ b * q) by (apply Z.mul_le_mono_nonneg_l; lia). lia.
  - intros ->.
    destruct (Z.lt_ge_cases ((N - 1) * P + 1) q) as [|Hle]; [assumption|].
    assert (b * q ≤ b * ((N - 1) * P + 1)) by (apply Z.mul_le_mono_nonneg_l; lia). lia.
  - intros Hne.
    destruct (Z.lt_ge_cases q (N * P)) as [|Hge]; [assumption|].
    assert (b * (N * P) ≤ b * q) by (apply Z.mul_le_mono_nonneg_l; lia). lia.
Qed.

Lemma quotient_bracket_floor (a b P q r F : Z) :
  0 < b → b < P → a * P = b * q + r → 0 ≤ r < b →
  F * b ≤ a < (F + 1) * b →
  F * P ≤ q ∧ q + 1 < (F + 1) * P.
Proof.
  intros Hb HP Hdm Hr [HF1 HF2].
  assert ((F * b) * P ≤ a * P) as H1 by (apply Z.mul_le_mono_nonneg_r; lia).
  assert (a * P ≤ ((F + 1) * b - 1) * P) as H2 by (apply Z.mul_le_mono_nonneg_r; lia).
  split.
  - destruct (Z.le_gt_cases (F * P) q) as [|Hgt]; [assumption|].
    assert (b * (q + 1) ≤ b * (F * P)) by (apply Z.mul_le_mono_nonneg_l; lia). lia.
  - destruct (Z.lt_ge_cases (q + 1) ((F + 1) * P)) as [|Hge]; [assumption|].
    assert (b * ((F + 1) * P - 1) ≤ b * q) by (apply Z.mul_le_mono_nonneg_l; lia). lia.
Qed.

(** The rounded quotient [m1 * 2 ^ (- k)] of an integer below [2 ^ 53] by
    an integer below [2 ^ 1022] lies between the same two integers as the
    exact quotient. *)
Lemma SFdiv_int_rounded sb (a b : positive) :
  Z.pos a < 2 ^ 53 → Z.pos b < 2 ^ 1022 →
  ∃ m1 k m2 e2,
    SFdiv 53 1024 (S754_finite false a 0) (S754_finite sb b 0) = S754_finite sb m2 e2
    ∧ Binary64.ceil (S754_finite sb m2 e2) = Ok (- ((- cond_Zopp sb m1) / 2 ^ k))
    ∧ 0 < 2 ^ k
    ∧ (∀ N, (N - 1) * Z.pos b < Z.pos a ≤ N * Z.pos b → (N - 1) * 2 ^ k < m1 ≤ N * 2 ^ k)
    ∧ (∀ F, F * Z.pos b ≤ Z.pos a < (F + 1) * Z.pos b → F * 2 ^ k ≤ m1 < (F + 1) * 2 ^ k).
Proof.
  intros Ha Hb. unfold SFdiv.
  destruct (SFdiv_core_binary 53 1024 (Z.pos a) 0 (Z.pos b) 0) as [[q e] l] eqn:Hcore.
  apply SFdiv_core_binary_spec in Hcore as (He & Hq & Hl).
  pose proof (Zdigits2_bounds (Z.pos a) ltac:(lia)) as [Ha1 Ha2].
  pose proof (Zdigits2_bounds (Z.pos b) ltac:(lia)) as [Hb1 Hb2].
  assert (1 ≤ Zdigits2 (Z.pos a)) as Hda by (simpl; lia).
  assert (1 ≤ Zdigits2 (Z.pos b)) as Hdb by (simpl; lia).
  assert (Zdigits2 (Z.pos a) ≤ 53) as Hda' by (apply Zdigits2_le; lia).
  assert (Zdigits2 (Z.pos b) ≤ 1022) as Hdb' by (apply Zdigits2_le; lia).
  set (d1 := Zdigits2 (Z.pos a)) in *. set (d2 := Zdigits2 (Z.pos b)) in *.
  unfold fexp, emin in He.
  assert (e = d1 - d2 - 53) as He' by lia. clear He.
  set (P := 2 ^ (- e)) in *.
  assert (Z.pos b < P) as HbP.
  { eapply Z.lt_le_trans; [exact Hb2|]. subst P. apply Z.pow_le_mono_r; lia. }
  assert (2 ^ 52 * Z.pos b < Z.pos a * P ∧ Z.pos a * P < 2 ^ 54 * Z.pos b) as [HX1 HX2].
  { subst P. split.
    - eapply Z.lt_le_trans; [apply Z.mul_lt_mono_pos_l; [lia | exact Hb2]|].
      rewrite <- Z.pow_add_r by lia.
      eapply Z.le_trans; [|apply Z.mul_le_mono_nonneg_r; [apply Z.pow_nonneg; lia | exact Ha1]].
      rewrite <- Z.pow_add_r by lia. apply Z.pow_le_mono_r; lia.
    - eapply Z.lt_le_trans;
        [apply Z.mul_lt_mono_pos_r; [apply Z.pow_pos_nonneg; lia | exact Ha2]|].
      rewrite <- Z.pow_add_r by lia.
      eapply Z.le_trans; [|apply Z.mul_le_mono_nonneg_l; [lia | exact Hb1]].
      rewrite <- Z.pow_add_r by lia. apply Z.pow_le_mono_r; lia. }
  pose proof (Z.div_mod (Z.pos a * P) (Z.pos b) ltac:(lia)) as Hdm.
  pose proof (Z.mod_pos_bound (Z.pos a * P) (Z.pos b) ltac:(lia)) as Hmod.
  rewrite <- Hq in Hdm. set (r := (Z.pos a * P) mod Z.pos b) in *.
  rewrite new_location_spec in Hl by lia.
  assert (2 ^ 52 ≤ q < 2 ^ 54) as [Hq1 Hq2].
  { rewrite Hq. split.
    - apply Z.div_le_lower_bound; lia.
    - apply Z.div_lt_upper_bound; lia. }
  assert (0 < P) as HP by lia.
  pose proof (quotient_bracket (Z.pos a) (Z.pos b) P q r) as Hceil.
  pose proof (quotient_bracket_floor (Z.pos a) (Z.pos b) P q r) as Hfloor.
  unfold binary_round_aux. change (xorb false sb) with sb.
  destruct (decide (q < 2 ^ 53)) as [Hsmall | Hbig].
  - (* the quotient has 53 bits: it is rounded in place *)
    assert (Zdigits2 q = 53) as Hdq.
    { apply Zdigits2_unique; [|lia]. change (53 - 1) with 52. lia. }
    unfold shr_fexp at 1. rewrite Hdq. unfold fexp, emin.
    replace (Z.max (53 + e - 53) (3 - 1024 - 53) - e) with 0 by lia.
    simpl shr. cbv beta iota zeta.
    rewrite shr_record_of_loc_m, loc_of_shr_record_of_loc.
    set (m1 := round_nearest_even q l).
    assert (q ≤ m1 ≤ q + 1 ∧ (m1 = q + 1 → r ≠ 0)) as (Hm1 & Hup).
    { subst m1. rewrite Hl. destruct (r =? 0) eqn:Hr0; simpl.
      - lia.
      - apply Z.eqb_neq in Hr0.
        destruct (2 * r ?= Z.pos b); simpl; try destruct (Z.even q); lia. }
    clearbody m1.
    destruct (ceil_carry m1 e sb) as (m2 & e2 & Hres & Hval); [lia | lia |].
    exists m1, (- e), m2, e2. fold P.
    split; [exact Hres|]. split; [exact Hval|]. split; [exact HP|]. split.
    + intros N HN.
      destruct (Hceil N) as ([Hlo Hhi] & Hlo0 & Hhi0);
        [lia | exact HbP | exact Hdm | exact Hmod | exact HN |].
      split; [lia|].
      destruct (decide (m1 = q)) as [-> | Hne]; [lia|].
      assert (m1 = q + 1) as Heq by lia. specialize (Hup Heq). specialize (Hhi0 Hup). lia.
    + intros F HF.
      destruct (Hfloor F) as [Hlo Hhi]; [lia | exact HbP | exact Hdm | exact Hmod | exact HF |].
      lia.
  - (* the quotient has 54 bits: one bit is shifted out before rounding *)
    assert (Zdigits2 q = 54) as Hdq.
    { apply Zdigits2_unique; [|lia]. change (54 - 1) with 53. lia. }
    unfold shr_fexp at 1. rewrite Hdq. unfold fexp, emin.
    replace (Z.max (54 + e - 53) (3 - 1024 - 53) - e) with 1 by lia.
    simpl shr. cbv beta iota zeta.
    rewrite shr_1_loc by lia.
    rewrite shr_1_m by (rewrite shr_record_of_loc_m; lia).
    rewrite shr_record_of_loc_m.
    set (m1 := round_nearest_even _ _).
    assert (P = 2 * 2 ^ (- (e + 1))) as HP2.
    { subst P. replace (- e) with (1 + - (e + 1)) by lia.
      rewrite Z.pow_add_r by lia. reflexivity. }
    set (P' := 2 ^ (- (e + 1))) in *.
    pose proof (Z.div_mod q 2 ltac:(lia)) as Hq2m.
    rewrite Zmod_odd in Hq2m.
    assert (q / 2 ≤ m1 ≤ q / 2 + 1
            ∧ (m1 = q / 2 + 1 → Z.odd q = true)
            ∧ (Z.odd q = true → r ≠ 0 → m1 = q / 2 + 1)) as (Hm1 & Hup & Hdown).
    { subst m1. rewrite Hl.
      destruct (Z.odd q) eqn:Hodd; destruct (r =? 0) eqn:Hr0; simpl;
        try (apply Z.eqb_neq in Hr0); try (apply Z.eqb_eq in Hr0);
        try destruct (2 * r ?= Z.pos b); simpl; try destruct (Z.even (q / 2)); lia. }
    clearbody m1.
    destruct (ceil_carry m1 (e + 1) sb) as (m2 & e2 & Hres & Hval);
      [destruct (Z.odd q); lia | lia |].
    exists m1, (- (e + 1)), m2, e2. fold P'.
    split; [exact Hres|]. split; [exact Hval|]. split; [lia|]. split.
    + intros N HN.
      destruct (Hceil N) as ([Hlo Hhi] & Hlo0 & Hhi0);
        [lia | exact HbP | exact Hdm | exact Hmod | exact HN |].
      rewrite HP2 in Hlo, Hhi, Hlo0.
      destruct (Z.odd q) eqn:Hodd.
      * split; [|lia].
        destruct (decide (r = 0)) as [Hr0 | Hr0]; [specialize (Hlo0 Hr0); lia|].
        rewrite (Hdown eq_refl Hr0). lia.
      * assert (m1 = q / 2) as ->; [|lia].
        destruct (decide (m1 = q / 2)); [assumption|].
        assert (m1 = q / 2 + 1) as Heq by lia. specialize (Hup Heq). discriminate.
    + intros F HF.
      destruct (Hfloor F) as [Hlo Hhi]; [lia | exact HbP | exact Hdm | exact Hmod | exact HF |].
      rewrite HP2 in Hlo, Hhi.
      destruct (Z.odd q) eqn:Hodd; [lia|].
      assert (m1 = q / 2) as ->; [|lia].
      destruct (decide (m1 = q / 2)); [assumption|].
      assert (m1 = q / 2 + 1) as Heq by lia. specialize (Hup Heq). discriminate.
Qed.

(** Hence its ceiling is the ceiling of the exact quotient. *)
Lemma SFdiv_int_ceil sb (a b : positive) :
  Z.pos a < 2 ^ 53 → Z.pos b < 2 ^ 1022 →
  Binary64.ceil (SFdiv 53 1024 (S754_finite false a 0) (S754_finite sb b 0))
  = Ok (- ((- Z.pos a) / cond_Zopp sb (Z.pos b))).
Proof.
  intros Ha Hb.
  destruct (SFdiv_int_rounded sb a b Ha Hb) as (m1 & k & m2 & e2 & -> & -> & Hk & Hceil & Hfloor).
  f_equal. destruct sb; simpl cond_Zopp.
  - rewrite Z.opp_involutive. change (Z.neg b) with (- Z.pos b). rewrite Z.div_opp_opp by lia.
    f_equal. symmetry.
    pose proof (Z.div_mod (Z.pos a) (Z.pos b) ltac:(lia)) as Hdm.
    pose proof (Z.mod_pos_bound (Z.pos a) (Z.pos b) ltac:(lia)) as Hmod.
    destruct (Hfloor (Z.pos a / Z.pos b)) as [Hlo Hhi]; [lia|].
    apply Z.div_unique with (m1 - Z.pos a / Z.pos b * 2 ^ k); lia.
  - pose proof (Z.div_mod (- Z.pos a) (Z.pos b) ltac:(lia)) as Hdm.
    pose proof (Z.mod_pos_bound (- Z.pos a) (Z.pos b) ltac:(lia)) as Hmod.
    apply Zceil_unique; [exact Hk|]. apply Hceil. lia.
Qed.

(** An integer below [2 ^ 1023] in magnitude converts to a finite double. *)
Lemma of_int_Ok n : - 2 ^ 1023 < n < 2 ^ 1023 → ∃ x, of_int n = Ok x ∧ finite x = true.
Proof.
  intros Hn. unfold of_int.
  assert (finite (binary_normalize prec emax n 0 false) = true) as Hfin.
  { assert (∀ s m, Z.pos m < 2 ^ 1023 → finite (binary_round prec emax s m 0) = true) as Hround.
    { intros s m Hm. unfold binary_round, shl_align, prec, emax. unfold fexp, emin.
      pose proof (Zdigits2_le (Z.pos m) 1023 ltac:(lia) ltac:(lia) Hm) as Hd.
      simpl Zdigits2 in Hd.
      destruct (Z.max (Z.pos (digits2_pos m) + 0 - 53) (3 - 1024 - 53) - 0) as [|d|d] eqn:Hexp.
      - apply binary_round_aux_finite; [lia | lia | simpl Zdigits2; lia].
      - apply binary_round_aux_finite; [lia | lia | simpl Zdigits2; lia].
      - assert (Z.pos (Pos.iter xO m d) = 2 ^ Z.pos d * Z.pos m) as Hshift.
        { apply (shift_pos_correct d m). }
        destruct (digits2_pos_bounds m) as [Hlo Hhi].
        pose proof (Z.pow_pos_nonneg 2 (Z.pos d) ltac:(lia) ltac:(lia)) as Hpow.
        assert (Zdigits2 (Z.pos (Pos.iter xO m d)) = Z.pos (digits2_pos m) + Z.pos d) as Hdig.
        { apply Zdigits2_unique; [|lia]. rewrite Hshift. split.
          - replace (Z.pos (digits2_pos m) + Z.pos d - 1)
              with (Z.pos d + (Z.pos (digits2_pos m) - 1)) by lia.
            rewrite Z.pow_add_r by lia.
            apply Z.mul_le_mono_nonneg_l; [apply Z.lt_le_incl, Hpow | exact Hlo].
          - rewrite (Z.add_comm (Z.pos (digits2_pos m))), Z.pow_add_r by lia.
            apply Z.mul_lt_mono_pos_l; [exact Hpow | exact Hhi]. }
        apply binary_round_aux_finite; [lia | lia | rewrite Hdig; lia]. }
    destruct n as [|m|m]; [reflexivity | apply Hround; lia | apply Hround; lia]. }
  destruct (binary_normalize prec emax n 0 false) eqn:Hx; try discriminate Hfin;
    eexists; split; reflexivity.
Qed.

Lemma exact_int_nonzero n :
  n ≠ 0 → ∃ s m, exact_int n = S754_finite s m 0 ∧ n = cond_Zopp s (Z.pos m).
Proof. destruct n as [|m|m]; [done|..]; intros _; [exists false, m | exists true, m]; done. Qed.

(** The true division of integers returns a finite double when the
    dividend is below [2 ^ 1023] in magnitude and the divisor is not zero. *)
Lemma int_truediv_Ok a b :
  - 2 ^ 1023 < a < 2 ^ 1023 → b ≠ 0 →
  ∃ q, int_truediv a b = Ok q ∧ finite q = true.
Proof.
  intros Ha Hb. unfold int_truediv. apply Z.eqb_neq in Hb as Hb'. rewrite Hb'.
  assert (finite (SFdiv prec emax (exact_int a) (exact_int b)) = true) as Hfin.
  { destruct (exact_int_nonzero b Hb) as (sb & mb & -> & _).
    destruct a as [|ma|ma]; [reflexivity|..]; apply SFdiv_int_finite; lia. }
  destruct (SFdiv prec emax (exact_int a) (exact_int b)) eqn:Hq; try discriminate Hfin;
    eexists; split; reflexivity.
Qed.

Lemma ceil_finite x : finite x = true → ∃ n, ceil x = Ok n.
Proof. destruct x; try discriminate; intros _; eexists; reflexivity. Qed.

End Binary64Facts.

(** ** The learning-rate schedule in double precision *)

Section Schedule64Facts.

Import Binary64 Schedule64.
Open Scope Z_scope.

(** The quotient of two integers does not overflow unless the dividend
    does, so [int(ceil(a / b))] fails for a zero divisor only. *)
Lemma ceil_div_raises a b e :
  - 2 ^ 1023 < a < 2 ^ 1023 →
  ceil_div a b = Raise e ↔ b = 0 ∧ e = ZeroDivisionError.
Proof.
  intros Ha. unfold ceil_div. split.
  - destruct (decide (b = 0)) as [-> | Hb]; [intros [= <-]; done|].
    destruct (int_truediv_Ok a b Ha Hb) as (q & -> & Hfin). simpl.
    destruct (ceil_finite q Hfin) as [n ->]. discriminate.
  - intros [-> ->]. reflexivity.
Qed.

Lemma ceil_div_returns a b :
  - 2 ^ 1023 < a < 2 ^ 1023 → b ≠ 0 → ∃ n, ceil_div a b = Ok n.
Proof.
  intros Ha Hb. destruct (ceil_div a b) as [n|e] eqn:Hdiv; [eexists; reflexivity|].
  apply ceil_div_raises in Hdiv as [? _]; [contradiction | exact Ha].
Qed.

(** For a dividend that a double holds exactly and a divisor below
    [2 ^ 1022] in magnitude, rounding the quotient to a double does not move
    it across an integer: the code computes the ceiling of the exact
    quotient. *)
Lemma ceil_div_exact a b :
  0 < a < 2 ^ 53 → - 2 ^ 1022 < b < 2 ^ 1022 →
  ceil_div a b = Schedule.ceil_div a b.
Proof.
  intros Ha Hb. unfold ceil_div, Schedule.ceil_div, int_truediv.
  destruct (b =? 0) eqn:Hb0; [reflexivity|]. apply Z.eqb_neq in Hb0.
  destruct (exact_int_nonzero b Hb0) as (sb & mb & Hexact & Hbval).
  destruct a as [|ma|ma]; [lia | | lia]. rewrite Hexact. simpl exact_int.
  unfold prec, emax.
  pose proof (SFdiv_int_ceil sb ma mb) as Hceil.
  destruct (SFdiv_int_rounded sb ma mb) as (_ & _ & m2 & e2 & Hres & _);
    [lia | destruct sb; simpl in Hbval; lia |].
  rewrite Hres in Hceil |- *.
  change (ceil (S754_finite sb m2 e2) = Ok (- (- Z.pos ma / b))). rewrite Hceil; [|lia | destruct sb; simpl in Hbval; lia].
  rewrite Hbval. reflexivity.
Qed.

Lemma dataset_sizes_known dataset dataset_size :
  Schedule.dataset_sizes !! dataset = Some dataset_size →
  dataset_size = 1281167 ∨ dataset_size = 50000.
Proof.
  unfold Schedule.dataset_sizes. intros Hsize.
  destruct (decide (dataset = "imagenet")) as [-> | Hi].
  { rewrite lookup_insert_eq in Hsize. left. congruence. }
  rewrite lookup_insert_ne in Hsize by congruence.
  destruct (decide (dataset = "cifar100")) as [-> | Hc].
  { rewrite lookup_insert_eq in Hsize. right. congruence. }
  rewrite lookup_insert_ne in Hsize by congruence. discriminate Hsize.
Qed.

Context {libm : Libm}.

Lemma multistep_dispatch_double epoch bidx cfg optimizer :
  TYPE (SCHEDULE (SOLVER cfg)) = "MULTISTEP" →
  adjust_learning_rate epoch bidx cfg optimizer = multistep_lr epoch bidx cfg optimizer.
Proof. intros Hty. unfold adjust_learning_rate. rewrite Hty. reflexivity. Qed.

Lemma cosine_dispatch_double epoch bidx cfg optimizer :
  TYPE (SCHEDULE (SOLVER cfg)) = "COSINE" →
  adjust_learning_rate epoch bidx cfg optimizer = cosine_lr epoch bidx cfg optimizer.
Proof. intros Hty. unfold adjust_learning_rate. rewrite Hty. reflexivity. Qed.

Lemma other_dispatch_double epoch bidx cfg optimizer :
  TYPE (SCHEDULE (SOLVER cfg)) ≠ "MULTISTEP" →
  TYPE (SCHEDULE (SOLVER cfg)) ≠ "COSINE" →
  adjust_learning_rate epoch bidx cfg optimizer
  = Raise (NotImplementedError (TYPE (SCHEDULE (SOLVER cfg)))).
Proof.
  intros Hm Hc. unfold adjust_learning_rate.
  apply String.eqb_neq in Hm, Hc. rewrite Hm, Hc. reflexivity.
Qed.

(** The COSINE branch once the dataset is known and the batches of an
    epoch are counted. *)
Lemma cosine_lr_unfold epoch bidx cfg optimizer dataset_size batches_per_epoch :
  Schedule.dataset_sizes !! DATASET_TYPE cfg = Some dataset_size →
  ceil_div dataset_size (BATCH_SIZE (SOLVER cfg)) = Ok batches_per_epoch →
  let base_lr := LR (SOLVER cfg) in
  let warmup_epochs := WARMUP (COSINE (SCHEDULE (SOLVER cfg))) in
  let warmup_batches := batches_per_epoch * warmup_epochs in
  let global_batch := (epoch - 1) * batches_per_epoch + bidx in
  let t := global_batch - warmup_batches in
  let T := batches_per_epoch * (EPOCHS (SOLVER cfg) - warmup_epochs) in
  let floor_lr := mul base_lr (COSINE_RATE (COSINE (SCHEDULE (SOLVER cfg)))) in
  cosine_lr epoch bidx cfg optimizer
  = (new_lr ←
       (if global_batch <? warmup_batches then
          q ← float_div_int base_lr warmup_batches;
          float_mul_int q (global_batch + 1)
        else
          q ← int_truediv t T;
          Ok (add (mul (mul (add (np_cos (mul q pi)) one) half) (sub base_lr floor_lr))
                  floor_lr));
     Ok (new_lr, set_lr new_lr optimizer)).
Proof.
  intros Hsize Hdiv. unfold cosine_lr, Schedule.getitem. rewrite Hsize. simpl.
  rewrite Hdiv. reflexivity.
Qed.

(** C3, amended.  For a COSINE configuration over a known dataset, with
    [batches_per_epoch = int(ceil(dataset_size / batch_size))] (the ceiling
    of the exact quotient for every batch size below [2 ^ 1022] in
    magnitude), [warmup_batches = batches_per_epoch * warmup_epochs] and
    [global_batch = (epoch - 1) * batches_per_epoch + batch_index]: during
    warm-up the call returns [base_lr / warmup_batches * (global_batch + 1)],
    each of the two operations rounded to a double, and afterwards
    [(cos(t / T * π) + 1) * 0.5 * (base_lr - floor_lr) + floor_lr], every
    operation rounded; no other rate is ever returned.  At
    [global_batch = warmup_batches - 1] the rate is
    [base_lr / warmup_batches * warmup_batches], which is [base_lr] in
    exact arithmetic. *)
Theorem cosine_rate_formula epoch bidx cfg optimizer dataset_size batches_per_epoch :
  TYPE (SCHEDULE (SOLVER cfg)) = "COSINE" →
  Schedule.dataset_sizes !! DATASET_TYPE cfg = Some dataset_size →
  ceil_div dataset_size (BATCH_SIZE (SOLVER cfg)) = Ok batches_per_epoch →
  let base_lr := LR (SOLVER cfg) in
  let warmup_epochs := WARMUP (COSINE (SCHEDULE (SOLVER cfg))) in
  let warmup_batches := batches_per_epoch * warmup_epochs in
  let global_batch := (epoch - 1) * batches_per_epoch + bidx in
  let t := global_batch - warmup_batches in
  let T := batches_per_epoch * (EPOCHS (SOLVER cfg) - warmup_epochs) in
  let floor_lr := mul base_lr (COSINE_RATE (COSINE (SCHEDULE (SOLVER cfg)))) in
  let ramp w n := mul (div base_lr w) n in
  let cosine q :=
    add (mul (mul (add (np_cos (mul q pi)) one) half) (sub base_lr floor_lr)) floor_lr in
  (- 2 ^ 1022 < BATCH_SIZE (SOLVER cfg) < 2 ^ 1022 →
   batches_per_epoch
   = Schedule.spec_batches_per_epoch dataset_size (BATCH_SIZE (SOLVER cfg)))
  ∧ (global_batch < warmup_batches →
     (∀ w n,
        warmup_batches ≠ 0 →
        of_int warmup_batches = Ok w → of_int (global_batch + 1) = Ok n →
        adjust_learning_rate epoch bidx cfg optimizer
        = Ok (ramp w n, set_lr (ramp w n) optimizer))
     ∧ (∀ rate optimizer',
          adjust_learning_rate epoch bidx cfg optimizer = Ok (rate, optimizer') →
          ∃ w n, warmup_batches ≠ 0
                 ∧ of_int warmup_batches = Ok w ∧ of_int (global_batch + 1) = Ok n
                 ∧ rate = ramp w n
                 ∧ (global_batch = warmup_batches - 1 → rate = ramp w w)))
  ∧ (¬ global_batch < warmup_batches →
     (∀ q,
        int_truediv t T = Ok q →
        adjust_learning_rate epoch bidx cfg optimizer
        = Ok (cosine q, set_lr (cosine q) optimizer))
     ∧ (∀ rate optimizer',
          adjust_learning_rate epoch bidx cfg optimizer = Ok (rate, optimizer') →
          ∃ q, int_truediv t T = Ok q ∧ rate = cosine q))
  ∧ ((if global_batch <? warmup_batches
      then warmup_batches ≠ 0
           ∧ - 2 ^ 1023 < warmup_batches < 2 ^ 1023
           ∧ - 2 ^ 1023 < global_batch + 1 < 2 ^ 1023
      else T ≠ 0 ∧ - 2 ^ 1023 < t < 2 ^ 1023) →
     ∃ rate, adjust_learning_rate epoch bidx cfg optimizer
             = Ok (rate, set_lr rate optimizer))
  ∧ (∀ (exact_lr : R) q,
       Schedule.float_div_int exact_lr warmup_batches = Ok q →
       (q * IZR (warmup_batches - 1 + 1))%R = exact_lr).
Proof.
  intros Hty Hsize Hdiv base_lr warmup_epochs warmup_batches global_batch t T floor_lr
    ramp cosine.
  pose proof (cosine_lr_unfold epoch bidx cfg optimizer _ _ Hsize Hdiv) as Hcall.
  cbv zeta in Hcall. rewrite <- cosine_dispatch_double in Hcall by exact Hty.
  fold base_lr warmup_epochs warmup_batches global_batch t T floor_lr in Hcall.
  split; [|split; [|split; [|split]]].
  - intros Hbatch. apply dataset_sizes_known in Hsize as Hknown.
    rewrite ceil_div_exact in Hdiv by (destruct Hknown as [-> | ->]; lia).
    apply ceil_div_Ok in Hdiv as [_ ->]. reflexivity.
  - intros Hwarm. apply Z.ltb_lt in Hwarm as Hwarm'. rewrite Hwarm' in Hcall.
    unfold float_div_int, float_mul_int in Hcall. split.
    + intros w n Hne Hw Hn. rewrite Hcall, Hw. simpl.
      apply Z.eqb_neq in Hne. rewrite Hne. simpl. rewrite Hn. reflexivity.
    + intros rate optimizer' Hret. rewrite Hcall in Hret.
      destruct (of_int warmup_batches) as [w|] eqn:Hw; [|discriminate Hret]. simpl in Hret.
      destruct (warmup_batches =? 0) eqn:Hne; [discriminate Hret|]. simpl in Hret.
      destruct (of_int (global_batch + 1)) as [n|] eqn:Hn; [|discriminate Hret].
      simpl in Hret. injection Hret as <- _.
      exists w, n. apply Z.eqb_neq in Hne. repeat split; try done.
      intros Hlast. rewrite Hlast in Hn.
      replace (warmup_batches - 1 + 1) with warmup_batches in Hn by lia.
      assert (n = w) as -> by congruence. reflexivity.
  - intros Hcos. apply Z.ltb_nlt in Hcos. rewrite Hcos in Hcall. split.
    + intros q Hq. rewrite Hcall, Hq. reflexivity.
    + intros rate optimizer' Hret. rewrite Hcall in Hret.
      destruct (int_truediv t T) as [q|]; [|discriminate Hret]. simpl in Hret.
      injection Hret as <- _. exists q. done.
  - intros Hrange. rewrite Hcall.
    destruct (global_batch <? warmup_batches).
    + destruct Hrange as (Hne & HW & Hg).
      destruct (of_int_Ok warmup_batches HW) as (w & Hw & _).
      destruct (of_int_Ok (global_batch + 1) Hg) as (n & Hn & _).
      unfold float_div_int, float_mul_int. rewrite Hw. simpl.
      apply Z.eqb_neq in Hne. rewrite Hne. simpl. rewrite Hn. simpl.
      eexists. reflexivity.
    + destruct Hrange as (Hne & Ht).
      destruct (int_truediv_Ok t T Ht Hne) as (q & -> & _). simpl.
      eexists. reflexivity.
  - intros exact_lr q. unfold Schedule.float_div_int.
    destruct (warmup_batches =? 0) eqn:Hne; [discriminate|]. intros [= <-].
    apply Z.eqb_neq in Hne. replace (warmup_batches - 1 + 1) with warmup_batches by lia.
    field. apply not_0_IZR. exact Hne.
Qed.

(** C4, amended.  [adjust_learning_rate] raises [NotImplementedError]
    exactly when the schedule type is neither MULTISTEP nor COSINE, and the
    [KeyError] of the dataset lookup exactly when the type is COSINE and
    the dataset identifier is not one of imagenet and cifar100.  The only
    other errors are, for a COSINE configuration over a known dataset:
    [ZeroDivisionError] when the batch size is 0 or the divisor of the
    branch taken ([warmup_batches] during warm-up, [T] afterwards) is 0,
    where the batches of an epoch are counted through a double, and
    [OverflowError] when, during warm-up, [warmup_batches] or
    [global_batch + 1] is too large to be converted to a double, or,
    afterwards, [t / T] is too large for a double, which takes an integer
    of magnitude [2 ^ 1023] at least; and, for MULTISTEP at a non-zero
    batch index, the failure to read the rate of the first parameter
    group.  In every other case the call returns.  Nothing is caught: the
    exception is the result of the call. *)
Theorem adjust_raises_iff epoch bidx cfg optimizer e :
  let ty := TYPE (SCHEDULE (SOLVER cfg)) in
  let warmup_epochs := WARMUP (COSINE (SCHEDULE (SOLVER cfg))) in
  (adjust_learning_rate epoch bidx cfg optimizer = Raise e
   ↔ (ty ≠ "MULTISTEP" ∧ ty ≠ "COSINE" ∧ e = NotImplementedError ty)
     ∨ (ty = "COSINE" ∧ DATASET_TYPE cfg ≠ "imagenet" ∧ DATASET_TYPE cfg ≠ "cifar100"
        ∧ e = KeyError (DATASET_TYPE cfg))
     ∨ (ty = "COSINE"
        ∧ ∃ dataset_size,
            Schedule.dataset_sizes !! DATASET_TYPE cfg = Some dataset_size
            ∧ ((BATCH_SIZE (SOLVER cfg) = 0 ∧ e = ZeroDivisionError)
               ∨ ∃ batches_per_epoch,
                   ceil_div dataset_size (BATCH_SIZE (SOLVER cfg)) = Ok batches_per_epoch
                   ∧ let warmup_batches := batches_per_epoch * warmup_epochs in
                     let global_batch := Schedule.global_batch batches_per_epoch epoch bidx in
                     let T := batches_per_epoch * (EPOCHS (SOLVER cfg) - warmup_epochs) in
                     if global_batch <? warmup_batches
                     then (warmup_batches = 0 ∧ e = ZeroDivisionError)
                          ∨ (e = OverflowError
                             ∧ (of_int warmup_batches = Raise OverflowError
                                ∨ (warmup_batches ≠ 0
                                   ∧ of_int (global_batch + 1) = Raise OverflowError)))
                     else (T = 0 ∧ e = ZeroDivisionError)
                          ∨ (e = OverflowError
                             ∧ int_truediv (global_batch - warmup_batches) T
                               = Raise OverflowError)))
     ∨ (ty = "MULTISTEP" ∧ bidx ≠ 0 ∧ first_lr optimizer = Raise e))
  ∧ (∀ n, - 2 ^ 1023 < n < 2 ^ 1023 → of_int n ≠ Raise OverflowError)
  ∧ (∀ a b, - 2 ^ 1023 < a < 2 ^ 1023 → int_truediv a b ≠ Raise OverflowError).
Proof.
  intros ty warmup_epochs. split; [|split]; cycle 1.
  { intros n Hn. destruct (of_int_Ok n Hn) as (x & -> & _). discriminate. }
  { intros a b Ha. destruct (decide (b = 0)) as [-> | Hb]; [discriminate|].
    destruct (int_truediv_Ok a b Ha Hb) as (q & -> & _). discriminate. }
  destruct (decide (ty = "MULTISTEP")) as [Hm | Hm].
  { assert (ty ≠ "COSINE") as Hc by (rewrite Hm; discriminate).
    rewrite multistep_dispatch_double by exact Hm. unfold multistep_lr.
    destruct (bidx =? 0) eqn:Hbidx.
    - apply Z.eqb_eq in Hbidx. split.
      + destruct (0 <? _)%nat; discriminate.
      + intros [(? & _) | [(? & _) | [(? & _) | (_ & ? & _)]]]; congruence.
    - apply Z.eqb_neq in Hbidx. split.
      + intros Hcall. do 3 right. split; [exact Hm | split; [exact Hbidx|]].
        destruct (first_lr optimizer); [discriminate Hcall|].
        injection Hcall as ->. reflexivity.
      + intros [(? & _) | [(? & _) | [(? & _) | (_ & _ & ->)]]];
          [congruence.. | reflexivity]. }
  destruct (decide (ty = "COSINE")) as [Hc | Hc]; cycle 1.
  { rewrite other_dispatch_double by assumption. fold ty. split.
    - intros [= <-]. left. done.
    - intros [(_ & _ & ->) | [(? & _) | [(? & _) | (? & _)]]];
        [reflexivity | congruence..]. }
  rewrite cosine_dispatch_double by exact Hc.
  destruct (Schedule.dataset_sizes !! DATASET_TYPE cfg) as [dataset_size|] eqn:Hsize.
  2:{ unfold cosine_lr, Schedule.getitem. rewrite Hsize. simpl.
      apply dataset_sizes_unknown in Hsize as [Hi Hcifar]. split.
      - intros [= <-]. right; left. done.
      - intros [(_ & ? & _) | [(_ & _ & _ & ->) | [(_ & n & Hn & _) | (? & _)]]];
          [congruence | reflexivity | discriminate Hn | congruence]. }
  assert (- 2 ^ 1023 < dataset_size < 2 ^ 1023) as Hrange.
  { apply dataset_sizes_known in Hsize as [-> | ->]; lia. }
  (* the disjuncts that do not apply to a COSINE configuration over a known dataset *)
  assert (Hcases : ∀ P : Prop,
            (P ↔ (ty ≠ "MULTISTEP" ∧ ty ≠ "COSINE" ∧ e = NotImplementedError ty)
                 ∨ (ty = "COSINE" ∧ DATASET_TYPE cfg ≠ "imagenet"
                    ∧ DATASET_TYPE cfg ≠ "cifar100" ∧ e = KeyError (DATASET_TYPE cfg))
                 ∨ (ty = "COSINE" ∧ P)
                 ∨ (ty = "MULTISTEP" ∧ bidx ≠ 0 ∧ first_lr optimizer = Raise e))).
  { intros P. split.
    - intros HP. right; right; left. done.
    - intros [(_ & ? & _) | [(_ & Hi & Hcifar & _) | [(_ & ?) | (? & _)]]];
        [congruence | | assumption | congruence].
      assert (Schedule.dataset_sizes !! DATASET_TYPE cfg = None) as Hnone
        by (apply dataset_sizes_unknown; done).
      congruence. }
  etransitivity; [|apply Hcases]. clear Hcases.
  destruct (decide (BATCH_SIZE (SOLVER cfg) = 0)) as [Hbatch | Hbatch].
  { unfold cosine_lr, Schedule.getitem. rewrite Hsize. simpl.
    unfold ceil_div, int_truediv. rewrite Hbatch. simpl. split.
    - intros [= <-]. exists dataset_size. split; [reflexivity|]. left. done.
    - intros (n & [= <-] & [[_ ->] | (bpe & Hdiv & _)]); [reflexivity|].
      discriminate Hdiv. }
  destruct (ceil_div_returns dataset_size (BATCH_SIZE (SOLVER cfg)) Hrange Hbatch)
    as [batches_per_epoch Hdiv].
  rewrite (cosine_lr_unfold epoch bidx cfg optimizer _ _ Hsize Hdiv). cbv zeta.
  fold warmup_epochs.
  set (warmup_batches := batches_per_epoch * warmup_epochs).
  set (global_batch := (epoch - 1) * batches_per_epoch + bidx).
  set (T := batches_per_epoch * (EPOCHS (SOLVER cfg) - warmup_epochs)).
  split.
  - intros Hraise. exists dataset_size. split; [reflexivity|]. right.
    exists batches_per_epoch. split; [exact Hdiv|]. cbv zeta.
    unfold Schedule.global_batch. fold warmup_batches global_batch T.
    destruct (global_batch <? warmup_batches).
    + unfold float_div_int, float_mul_int in Hraise.
      destruct (of_int warmup_batches) as [w|e'] eqn:Hw; simpl in Hraise.
      * destruct (warmup_batches =? 0) eqn:Hne; simpl in Hraise.
        -- injection Hraise as <-. left. apply Z.eqb_eq in Hne. done.
        -- apply Z.eqb_neq in Hne.
           destruct (of_int (global_batch + 1)) as [n|e''] eqn:Hn; simpl in Hraise;
             [discriminate Hraise|].
           injection Hraise as <-. right.
           assert (e'' = OverflowError) as ->.
           { unfold of_int in Hn. destruct (binary_normalize _ _ _ _ _); congruence. }
           split; [reflexivity|]. right. done.
      * injection Hraise as <-. right.
        assert (e' = OverflowError) as ->.
        { unfold of_int in Hw. destruct (binary_normalize _ _ _ _ _); congruence. }
        split; [reflexivity|]. left. reflexivity.
    + destruct (int_truediv (global_batch - warmup_batches) T) as [q|e'] eqn:Hq;
        simpl in Hraise; [discriminate Hraise|].
      injection Hraise as <-. unfold int_truediv in Hq.
      destruct (T =? 0) eqn:HT.
      * injection Hq as <-. left. apply Z.eqb_eq in HT. done.
      * right. assert (e' = OverflowError) as ->.
        { destruct (SFdiv _ _ _ _); congruence. }
        split; reflexivity.
  - intros (dataset_size' & Hsize' & [[Hzero _] | (bpe & Hdiv' & Herr)]); [contradiction|].
    assert (dataset_size' = dataset_size) as -> by congruence.
    assert (bpe = batches_per_epoch) as -> by congruence.
    cbv zeta in Herr. unfold Schedule.global_batch in Herr.
    fold warmup_batches global_batch T in Herr.
    destruct (global_batch <? warmup_batches).
    + unfold float_div_int, float_mul_int.
      destruct Herr as [[HW ->] | (-> & [Hw | [Hne Hn]])].
      * rewrite HW. reflexivity.
      * rewrite Hw. reflexivity.
      * destruct (of_int warmup_batches) as [w|e'] eqn:Hw; simpl.
        -- apply Z.eqb_neq in Hne. rewrite Hne. simpl. rewrite Hn. reflexivity.
        -- f_equal. unfold of_int in Hw. destruct (binary_normalize _ _ _ _ _); congruence.
    + destruct Herr as [[HT ->] | (-> & Hq)].
      * unfold int_truediv. rewrite HT. reflexivity.
      * rewrite Hq. reflexivity.
Qed.

End Schedule64Facts.

Section Schedule64Examples.

Import Binary64 Schedule64.
Open Scope Z_scope.

(** C3, as stated, fails.  CIFAR-100 with batch size 10 has 5000 batches
    per epoch and, with 5 warm-up epochs, 25000 warm-up batches.  At the
    last of them the code computes [0.1 / 25000 * 25000] in doubles, which
    is 0.09999999999999999 and not the base rate 0.1. *)
Lemma cosine_warmup_end_counterexample :
  ¬ (∀ epoch bidx cfg optimizer dataset_size batches_per_epoch rate optimizer',
       TYPE (SCHEDULE (SOLVER cfg)) = "COSINE" →
       Schedule.dataset_sizes !! DATASET_TYPE cfg = Some dataset_size →
       ceil_div dataset_size (BATCH_SIZE (SOLVER cfg)) = Ok batches_per_epoch →
       (epoch - 1) * batches_per_epoch + bidx
       = batches_per_epoch * WARMUP (COSINE (SCHEDULE (SOLVER cfg))) - 1 →
       adjust_learning_rate (libm := libm_unused) epoch bidx cfg optimizer
       = Ok (rate, optimizer') →
       rate = LR (SOLVER cfg)).
Proof.
  intros Hclaim.
  specialize (Hclaim 5 4999 (example_cfg "COSINE" 10) (single_group (decimal 1 10))
                50000 5000 (S754_finite false 7205759403792793 (-56))
                (set_lr (S754_finite false 7205759403792793 (-56))
                   (single_group (decimal 1 10)))
                eq_refl eq_refl eq_refl eq_refl).
  assert (S754_finite false 7205759403792793 (-56) = LR (SOLVER (example_cfg "COSINE" 10)))
    as Heq by (apply Hclaim; vm_compute; reflexivity).
  vm_compute in Heq. discriminate Heq.
Qed.

(** CIFAR-100 with batch size 64 has 782 batches per epoch and, with 5
    warm-up epochs, 3910 warm-up batches.  Batch 781 of epoch 5 is the last
    of them and gets [0.1 / 3910 * 3910], which rounds to the base rate. *)
Lemma cosine_rate_formula_witness :
  adjust_learning_rate (libm := libm_unused) 5 781 (example_cfg "COSINE" 64)
    (single_group (decimal 5 10))
  = Ok (decimal 1 10, set_lr (decimal 1 10) (single_group (decimal 5 10))).
Proof.
  destruct (cosine_rate_formula (libm := libm_unused) 5 781 (example_cfg "COSINE" 64)
              (single_group (decimal 5 10)) 50000 782 eq_refl eq_refl eq_refl)
    as (_ & Hwarm & _).
  destruct Hwarm as [Hramp _]; [vm_compute; reflexivity|].
  rewrite (Hramp (S754_finite false 8598180929208320 (-41))
                 (S754_finite false 8598180929208320 (-41)));
    [vm_compute; reflexivity | vm_compute; discriminate | vm_compute; reflexivity..].
Defined.

(** C4, as stated, fails: a COSINE configuration over a known dataset whose
    batch size is 0 raises [ZeroDivisionError] at the first division. *)
Lemma adjust_raises_counterexample :
  ¬ (∀ epoch bidx cfg optimizer,
       raises (adjust_learning_rate (libm := libm_unused) epoch bidx cfg optimizer)
       ↔ (TYPE (SCHEDULE (SOLVER cfg)) ≠ "MULTISTEP"
          ∧ TYPE (SCHEDULE (SOLVER cfg)) ≠ "COSINE")
         ∨ (TYPE (SCHEDULE (SOLVER cfg)) = "COSINE"
            ∧ Schedule.dataset_sizes !! DATASET_TYPE cfg = None)).
Proof.
  intros Hclaim.
  destruct (Hclaim 1 0 (example_cfg "COSINE" 0) (single_group (decimal 1 10)))
    as [Hraises _].
  assert (adjust_learning_rate (libm := libm_unused) 1 0 (example_cfg "COSINE" 0)
            (single_group (decimal 1 10))
          = Raise ZeroDivisionError) as Hcall by reflexivity.
  rewrite Hcall in Hraises.
  destruct (Hraises I) as [[_ Hty] | [_ Hsize]].
  - apply Hty. reflexivity.
  - vm_compute in Hsize. discriminate.
Qed.

(** Two errors that only very large integers produce.  An epoch of
    [10 ^ 400] makes [t / T] too large for a double; a batch size of
    [10 ^ 330] makes the quotient [50000 / batch_size] round to zero, so
    that an epoch has no batches and [T] is 0. *)
Example adjust_raises_large_integers :
  adjust_learning_rate (libm := libm_unused) (10 ^ 400) 0 (example_cfg "COSINE" 64)
    (single_group (decimal 1 10))
  = Raise OverflowError
  ∧ ceil_div 50000 (10 ^ 330) = Ok 0
  ∧ adjust_learning_rate (libm := libm_unused) 1 0 (example_cfg "COSINE" (10 ^ 330))
      (single_group (decimal 1 10))
    = Raise ZeroDivisionError.
Proof. repeat split; vm_compute; reflexivity. Qed.

End Schedule64Examples.

(** ** The running average *)

Section AverageMeterFacts.

Import AverageMeter.

Lemma update_Ok self val n self' :
  update self val n = Ok self' →
  sum self' = (sum self + val * inject_Z n)%Q
  ∧ count self' = (count self + n)%Z
  ∧ avg self' = (sum self' / inject_Z (count self'))%Q
  ∧ count self' ≠ 0%Z.
Proof.
  unfold update. destruct (count self + n =? 0)%Z eqn:Hcount; [discriminate|].
  intros [= <-]; simpl. apply Z.eqb_neq in Hcount. done.
Qed.

Lemma update_all_Ok calls : ∀ self self',
  update_all self calls = Ok self' →
  sum self' = weighted_sum_from (sum self) calls
  ∧ count self' = total_weight_from (count self) calls
  ∧ (calls ≠ [] → avg self' = (sum self' / inject_Z (count self'))%Q).
Proof.
  induction calls as [|call rest IH]; intros self self' Hrun; simpl in Hrun.
  - injection Hrun as <-. done.
  - destruct (update self call.1 call.2) as [self1|] eqn:Hupdate; [|discriminate Hrun].
    simpl in Hrun. apply update_Ok in Hupdate as (Hsum & Hcount & Havg & _).
    destruct (IH _ _ Hrun) as (IHsum & IHcount & IHavg).
    unfold weighted_sum_from, total_weight_from in *; simpl.
    rewrite <- Hsum, <- Hcount. split; [exact IHsum | split; [exact IHcount|]].
    intros _. destruct rest as [|call' rest'].
    + simpl in Hrun. injection Hrun as <-. exact Havg.
    + apply IHavg. discriminate.
Qed.

Lemma update_all_positive calls : ∀ self,
  (0 ≤ count self)%Z →
  Forall (fun call : Q * Z => (0 < call.2)%Z) calls →
  ∃ self', update_all self calls = Ok self'.
Proof.
  induction calls as [|call rest IH]; intros self Hcount Hpos; simpl.
  - eexists; reflexivity.
  - apply Forall_cons_1 in Hpos as [Hcall Hrest].
    unfold update. destruct (count self + call.2 =? 0)%Z eqn:Hzero; [lia|]. simpl.
    apply IH; [simpl; lia | exact Hrest].
Qed.

(** C5: a meter that was reset and not updated has average 0.  After any
    sequence of [update(value, weight)] calls that leaves a positive count,
    [avg] is [sum / count], [sum] being the weighted sum of the values and
    [count] the sum of the weights; such a sequence runs to its end whenever
    the weights are positive.  The updates [(1, 2)] then [(3, 2)] give
    [sum = 8], [count = 4], [avg = 2]. *)
Theorem average_meter_invariant :
  (∀ self, avg (reset self) = 0%Q ∧ count (reset self) = 0%Z)
  ∧ (∀ calls self,
       update_all init calls = Ok self →
       (0 < count self)%Z →
       avg self = (sum self / inject_Z (count self))%Q
       ∧ sum self = weighted_sum_from 0 calls
       ∧ count self = total_weight_from 0 calls)
  ∧ (∀ calls,
       Forall (fun call : Q * Z => (0 < call.2)%Z) calls →
       ∃ self, update_all init calls = Ok self)
  ∧ (∃ self,
       update_all init [(1%Q, 2%Z); (3%Q, 2%Z)] = Ok self
       ∧ (sum self == 8)%Q ∧ count self = 4%Z ∧ (avg self == 2)%Q).
Proof.
  split; [done|]. split; [|split].
  - intros calls self Hrun Hcount.
    destruct (update_all_Ok _ _ _ Hrun) as (Hsum & Hweights & Havg).
    split; [|split; assumption].
    apply Havg. intros ->. simpl in Hrun. injection Hrun as <-. simpl in Hcount. lia.
  - intros calls Hpos. apply update_all_positive; [simpl; lia | exact Hpos].
  - eexists. split; [reflexivity|]. simpl. done.
Qed.

(** Three updates with positive weights, checked through the invariant. *)
Lemma average_meter_invariant_witness :
  ∃ self,
    update_all init [(1%Q, 2%Z); (3%Q, 2%Z); (5 # 2, 1%Z)] = Ok self
    ∧ avg self = (sum self / inject_Z (count self))%Q
    ∧ count self = 5%Z.
Proof.
  destruct average_meter_invariant as (_ & Hinv & Htotal & _).
  destruct (Htotal [(1%Q, 2%Z); (3%Q, 2%Z); (5 # 2, 1%Z)]) as [self Hrun].
  { repeat constructor. }
  exists self. split; [exact Hrun|].
  assert (count self = 5%Z) as Hcount.
  { vm_compute in Hrun. injection Hrun as <-. reflexivity. }
  destruct (Hinv _ _ Hrun) as (Havg & _); [lia|]. done.
Defined.

End AverageMeterFacts.

(** ** Top-k selection *)

Section TopkFacts.

Local Open Scope nat_scope.

Lemma ranks_before_trans p q r :
  ranks_before p q → ranks_before q r → ranks_before p r.
Proof.
  unfold ranks_before.
  intros [Hpq | [Hpq Hi]] [Hqr | [Hqr Hj]].
  - left. eapply Qlt_trans; eassumption.
  - left. rewrite Hqr. exact Hpq.
  - left. rewrite <- Hpq. exact Hqr.
  - right. split; [rewrite Hqr; exact Hpq | lia].
Qed.

Lemma insert_desc_Permutation x l : insert_desc x l ≡ₚ x :: l.
Proof.
  induction l as [|y l IH]; simpl; [done|].
  destruct (Qle_bool y.2 x.2); [done|].
  rewrite IH. apply Permutation_swap.
Qed.

Lemma insert_desc_sorted x l :
  StronglySorted ranks_before l →
  Forall (fun y => (x.1 < y.1)%nat) l →
  StronglySorted ranks_before (insert_desc x l).
Proof.
  induction l as [|y l IH]; intros Hsorted Hindex; simpl.
  - repeat constructor.
  - apply StronglySorted_cons in Hsorted as [Hy Hsorted].
    apply Forall_cons_1 in Hindex as [Hxy Hindex].
    destruct (Qle_bool y.2 x.2) eqn:Hle.
    + apply Qle_bool_iff in Hle.
      assert (ranks_before x y) as Hrank.
      { unfold ranks_before. apply Qle_lteq in Hle as [Hlt | Heq]; [left | right]; done. }
      apply StronglySorted_cons. split.
      * constructor; [exact Hrank|].
        eapply Forall_impl; [exact Hy|]. intros z Hz; simpl.
        eapply ranks_before_trans; eassumption.
      * apply StronglySorted_cons. done.
    + assert (ranks_before y x) as Hrank.
      { left. apply Qnot_le_lt. intros Hle'. apply Qle_bool_iff in Hle'. congruence. }
      apply StronglySorted_cons. split.
      * rewrite insert_desc_Permutation. constructor; assumption.
      * apply IH; assumption.
Qed.

(** The pairs of a row from class index [i] on, sorted. *)
Lemma sort_pairs_spec (row : list Q) : ∀ i,
  let pairs := imap (fun j x => (i + j, x)%nat) row in
  foldr insert_desc [] pairs ≡ₚ pairs
  ∧ StronglySorted ranks_before (foldr insert_desc [] pairs).
Proof.
  induction row as [|x row IH]; intros i pairs; subst pairs; simpl.
  - split; [done | constructor].
  - assert (imap ((fun j x => (i + j, x)%nat) ∘ S) row
            = imap (fun j x => (S i + j, x)%nat) row) as Hshift.
    { apply imap_ext. intros j y _; simpl. f_equal. lia. }
    rewrite Hshift. destruct (IH (S i)) as [Hperm Hsorted]. split.
    + rewrite insert_desc_Permutation, Hperm. done.
    + apply insert_desc_sorted; [exact Hsorted|].
      rewrite Hperm. apply Forall_forall. intros [j y] Hin; simpl.
      apply list_elem_of_lookup in Hin as [n Hn].
      rewrite list_lookup_imap in Hn.
      destruct (row !! n); simpl in Hn; [|discriminate].
      injection Hn as <- _. lia.
Qed.

Lemma sorted_pairs_Permutation (row : list Q) :
  foldr insert_desc [] (imap (fun i x => (i, x)) row) ≡ₚ imap (fun i x => (i, x)) row.
Proof. apply (sort_pairs_spec row 0). Qed.

Lemma sorted_pairs_sorted (row : list Q) :
  StronglySorted ranks_before (foldr insert_desc [] (imap (fun i x => (i, x)) row)).
Proof. apply (sort_pairs_spec row 0). Qed.

Lemma sorted_pairs_elem_of (row : list Q) c s :
  (c, s) ∈ foldr insert_desc [] (imap (fun i x => (i, x)) row) ↔ row !! c = Some s.
Proof.
  rewrite sorted_pairs_Permutation, list_elem_of_lookup. split.
  - intros [n Hn]. rewrite list_lookup_imap in Hn.
    destruct (row !! n) eqn:Hrow; simpl in Hn; [|discriminate].
    injection Hn as <- <-. exact Hrow.
  - intros Hrow. exists c. rewrite list_lookup_imap, Hrow. reflexivity.
Qed.

Lemma argsort_desc_Permutation (row : list Q) :
  argsort_desc row ≡ₚ seq 0 (length row).
Proof.
  unfold argsort_desc. rewrite sorted_pairs_Permutation.
  rewrite fmap_imap.
  rewrite (imap_ext _ (fun i _ => i)) by done.
  rewrite (imap_seq_0 row (fun i => i)).
  replace ((fun i => i) <$> seq 0 (length row)) with (seq 0 (length row)); [done|].
  symmetry. apply list_fmap_id.
Qed.

Lemma argsort_desc_length (row : list Q) : length (argsort_desc row) = length row.
Proof. rewrite argsort_desc_Permutation. apply length_seq. Qed.

Lemma argsort_desc_NoDup (row : list Q) : NoDup (argsort_desc row).
Proof. rewrite argsort_desc_Permutation. apply NoDup_seq. Qed.

Lemma topk_row_length k (row : list Q) :
  k ≤ length row → length (topk_row k row) = k.
Proof.
  intros Hk. unfold topk_row. rewrite length_take_le; [done|].
  rewrite argsort_desc_length. exact Hk.
Qed.

Lemma topk_row_NoDup k (row : list Q) : NoDup (topk_row k row).
Proof.
  unfold topk_row. rewrite <- (take_drop k (argsort_desc row)) at 1.
  pose proof (argsort_desc_NoDup row) as Hnodup.
  rewrite <- (take_drop k (argsort_desc row)) in Hnodup.
  apply NoDup_app in Hnodup as [Htake _].
  rewrite take_drop. exact Htake.
Qed.

Lemma topk_row_fst k (row : list Q) :
  topk_row k row = (take k (foldr insert_desc [] (imap (fun i x => (i, x)) row))).*1.
Proof. unfold topk_row, argsort_desc. symmetry. apply fmap_take. Qed.

Lemma topk_row_in_range k (row : list Q) c :
  c ∈ topk_row k row → is_Some (row !! c).
Proof.
  unfold topk_row. intros Hc. apply elem_of_take in Hc as (i & Hi & _).
  apply list_elem_of_lookup_2 in Hi. rewrite argsort_desc_Permutation in Hi.
  apply elem_of_seq in Hi. apply lookup_lt_is_Some. lia.
Qed.

(** A selected class ranks before every class that is not selected. *)
Lemma topk_row_ranks k (row : list Q) c s c' s' :
  c ∈ topk_row k row → c' ∉ topk_row k row →
  row !! c = Some s → row !! c' = Some s' →
  ranks_before (c, s) (c', s').
Proof.
  rewrite topk_row_fst. intros Hc Hc' Hs Hs'.
  set (sorted := foldr insert_desc [] (imap (fun i x => (i, x)) row)) in *.
  apply list_elem_of_fmap in Hc as ([c0 s0] & -> & Hin); simpl in *.
  assert (s0 = s) as ->.
  { assert ((c0, s0) ∈ sorted) as Hsorted.
    { rewrite <- (take_drop k sorted). apply elem_of_app. left. exact Hin. }
    apply sorted_pairs_elem_of in Hsorted. congruence. }
  assert ((c', s') ∈ drop k sorted) as Hdrop.
  { apply sorted_pairs_elem_of in Hs'. fold sorted in Hs'.
    rewrite <- (take_drop k sorted) in Hs'.
    apply elem_of_app in Hs' as [Htake | Hdrop]; [|exact Hdrop].
    exfalso. apply Hc'. apply list_elem_of_fmap. exists (c', s'). done. }
  eapply (StronglySorted_app_1_elem_of ranks_before (take k sorted) (drop k sorted));
    [|eassumption..].
  rewrite take_drop. apply sorted_pairs_sorted.
Qed.

Lemma topk_row_take k maxk (row : list Q) :
  k ≤ maxk → take k (topk_row maxk row) = topk_row k row.
Proof. intros Hk. unfold topk_row. rewrite take_take. f_equal. lia. Qed.

(** ** Counting the hits *)

Lemma count_true_app l1 l2 : count_true (l1 ++ l2) = count_true l1 + count_true l2.
Proof. unfold count_true. rewrite filter_app, length_app. reflexivity. Qed.

Lemma count_true_cons b l :
  count_true (b :: l) = (if b then 1 else 0) + count_true l.
Proof.
  unfold count_true. destruct b.
  - rewrite filter_cons_True by done. reflexivity.
  - rewrite filter_cons_False by done. reflexivity.
Qed.

Lemma count_true_le l : count_true l ≤ length l.
Proof. apply length_filter. Qed.

(** Indicators that split pointwise add up. *)
Lemma count_true_zip_with_split {A B} (h f g : A → B → bool) (l : list A) : ∀ (t : list B),
  Forall (fun x => ∀ y, h x y = f x y || g x y ∧ (f x y && g x y = false)) l →
  count_true (zip_with h l t) = count_true (zip_with f l t) + count_true (zip_with g l t).
Proof.
  induction l as [|x l IH]; intros [|y t] Hsplit; simpl; try done.
  apply Forall_cons_1 in Hsplit as [Hx Hl].
  rewrite !count_true_cons, (IH t Hl).
  destruct (Hx y) as [-> Hexcl].
  destruct (f x y), (g x y); simpl in *; try discriminate; lia.
Qed.

Lemma sum_flat_snoc (t : list (list bool)) (row : list bool) :
  sum_flat (t ++ [row]) = (sum_flat t + Z.of_nat (count_true row))%Z.
Proof.
  unfold sum_flat. rewrite concat_app; simpl. rewrite app_nil_r.
  fold (count_true (concat t ++ row)). rewrite count_true_app.
  unfold count_true. lia.
Qed.

Lemma sum_flat_app (t1 t2 : list (list bool)) :
  sum_flat (t1 ++ t2) = (sum_flat t1 + sum_flat t2)%Z.
Proof.
  unfold sum_flat. rewrite concat_app, filter_app, length_app. lia.
Qed.

Lemma sum_flat_nonneg (t : list (list bool)) : (0 ≤ sum_flat t)%Z.
Proof. unfold sum_flat. lia. Qed.

(** More rows of the comparison tensor cannot hold fewer hits. *)
Lemma sum_flat_take_mono (t : list (list bool)) k1 k2 :
  k1 ≤ k2 → (sum_flat (take k1 t) ≤ sum_flat (take k2 t))%Z.
Proof.
  intros Hk. replace k2 with (k1 + (k2 - k1)) by lia.
  rewrite <- take_take_drop, sum_flat_app.
  pose proof (sum_flat_nonneg (take (k2 - k1) (drop k1 t))). lia.
Qed.

Lemma transpose_S k (pred : list (list nat)) :
  transpose (S k) pred = transpose k pred ++ [(fun sel => nth k sel 0) <$> pred].
Proof. unfold transpose. rewrite seq_S, fmap_app. reflexivity. Qed.

Lemma take_tensor_eq k maxk (pred : list (list nat)) labels :
  k ≤ maxk →
  take k (tensor_eq (transpose maxk pred) labels) = tensor_eq (transpose k pred) labels.
Proof.
  intros Hk. unfold tensor_eq, transpose.
  rewrite <- !fmap_take, take_seq. do 3 f_equal. lia.
Qed.

Lemma in_topk_0 (row : list Q) label : in_topk 0 row label = false.
Proof.
  unfold in_topk, topk_row. rewrite take_0. apply bool_decide_eq_false.
  apply not_elem_of_nil.
Qed.

(** One more selected class adds its own comparison, and nothing else. *)
Lemma in_topk_S k maxk (row : list Q) label :
  k < maxk → maxk ≤ length row →
  in_topk (S k) row label
  = in_topk k row label || (Z.of_nat (nth k (topk_row maxk row) 0%nat) =? label)%Z
  ∧ in_topk k row label && (Z.of_nat (nth k (topk_row maxk row) 0%nat) =? label)%Z = false.
Proof.
  intros Hk Hmaxk.
  assert (is_Some (argsort_desc row !! k)) as [c Hc].
  { apply lookup_lt_is_Some. rewrite argsort_desc_length. lia. }
  assert (nth k (topk_row maxk row) 0 = c) as ->.
  { apply nth_lookup_Some. unfold topk_row. rewrite lookup_take_lt by lia. exact Hc. }
  assert (topk_row (S k) row = topk_row k row ++ [c]) as Hsnoc.
  { unfold topk_row. apply take_S_r. exact Hc. }
  assert (c ∉ topk_row k row) as Hfresh.
  { pose proof (topk_row_NoDup (S k) row) as Hnodup. rewrite Hsnoc in Hnodup.
    apply NoDup_app in Hnodup as (_ & Hdisj & _).
    intros Hin. apply (Hdisj c Hin). apply list_elem_of_singleton. reflexivity. }
  unfold in_topk. rewrite Hsnoc, fmap_app; simpl.
  destruct (Z.eqb_spec (Z.of_nat c) label) as [<- | Hne].
  - rewrite (bool_decide_eq_false_2 (Z.of_nat c ∈ Z.of_nat <$> topk_row k row)).
    + split; [|reflexivity]. apply bool_decide_eq_true.
      apply elem_of_app. right. apply list_elem_of_singleton. reflexivity.
    + intros Hin. apply Hfresh. eapply list_elem_of_fmap_inj_2; [|exact Hin]. apply _.
  - rewrite orb_false_r, andb_false_r. split; [|reflexivity].
    apply bool_decide_ext. rewrite elem_of_app, list_elem_of_singleton.
    split; [|tauto]. intros [Hin | Heq]; [exact Hin | congruence].
Qed.

Lemma hits_0 output target : hits 0 output target = 0.
Proof.
  unfold hits. generalize (rows output). intros l. revert target.
  induction l as [|row l IH]; intros [|label t]; simpl; try done.
  rewrite count_true_cons, in_topk_0, IH. reflexivity.
Qed.

(** The first [k] rows of the comparison tensor hold exactly the hits. *)
Lemma sum_flat_hits maxk output target : ∀ k,
  k ≤ maxk →
  Forall (fun row : list Q => maxk ≤ length row) (rows output) →
  sum_flat (tensor_eq (transpose k (topk_row maxk <$> rows output)) target)
  = Z.of_nat (hits k output target).
Proof.
  intros k Hk Hrows. induction k as [|k IH].
  - rewrite hits_0. reflexivity.
  - rewrite transpose_S. unfold tensor_eq at 1. rewrite fmap_app. simpl.
    fold (tensor_eq (transpose k (topk_row maxk <$> rows output)) target).
    rewrite sum_flat_snoc, IH by lia.
    rewrite <- list_fmap_compose, zip_with_fmap_l.
    unfold hits.
    rewrite (count_true_zip_with_split (in_topk (S k)) (in_topk k)
               (fun row label => (Z.of_nat (nth k (topk_row maxk row) 0%nat) =? label)%Z)).
    + unfold compose. lia.
    + eapply Forall_impl; [exact Hrows|]. intros row Hrow label; simpl.
      apply in_topk_S; [lia | exact Hrow].
Qed.

Lemma hits_le output target k : hits k output target ≤ length target.
Proof.
  unfold hits. etransitivity; [apply count_true_le|].
  rewrite length_zip_with. lia.
Qed.

(** ** The accuracy function *)

Lemma mapM_Ok {A B} (f : A → result B) (g : A → B) (l : list A) :
  Forall (fun x => f x = Ok (g x)) l → mapM f l = Ok (g <$> l).
Proof.
  induction l as [|x l IH]; intros Hl; simpl; [reflexivity|].
  apply Forall_cons_1 in Hl as [Hx Hl]. rewrite Hx, (IH Hl). reflexivity.
Qed.

Lemma py_max_Ok topk maxk :
  py_max topk = Ok maxk → topk ≠ [] ∧ maxk ∈ topk ∧ Forall (fun k => k ≤ maxk) topk.
Proof.
  destruct topk as [|k ks]; [discriminate|]. intros [= <-].
  split; [done|]. induction ks as [|k' ks [IHin IHle]]; simpl.
  - split; [apply list_elem_of_here | repeat constructor].
  - apply Forall_cons_1 in IHle as [Hk Hks]. split.
    + destruct (Nat.max_spec k' (foldr Nat.max k ks)) as [[_ ->] | [_ ->]].
      * apply elem_of_cons in IHin as [-> | Hin];
          [apply list_elem_of_here | do 2 apply list_elem_of_further; exact Hin].
      * apply list_elem_of_further, list_elem_of_here.
    + constructor; [lia|]. constructor; [lia|].
      eapply Forall_impl; [exact Hks|]. simpl. lia.
Qed.

(** The comparison tensor [correct] of line 131. *)
Lemma accuracy_unfold output target topk maxk labels :
  py_max topk = Ok maxk →
  maxk ≤ ncols output →
  expand_as target (length (rows output)) = Ok labels →
  accuracy output target topk
  = mapM (fun k =>
            scale ← percent_scale (length target);
            Ok (inject_Z (sum_flat
                  (take k (tensor_eq (transpose maxk (topk_row maxk <$> rows output))
                                     labels))) * scale)%Q)
         topk.
Proof.
  intros Hmax Hcols Hlabels. unfold accuracy, tensor_topk.
  rewrite Hmax; simpl. apply Nat.leb_le in Hcols. rewrite Hcols; simpl.
  rewrite Hlabels. reflexivity.
Qed.

Lemma accuracy_Ok output target topk res :
  accuracy output target topk = Ok res →
  ∃ maxk labels,
    py_max topk = Ok maxk
    ∧ maxk ≤ ncols output
    ∧ expand_as target (length (rows output)) = Ok labels
    ∧ target ≠ []
    ∧ res = (fun k =>
               inject_Z (sum_flat
                 (take k (tensor_eq (transpose maxk (topk_row maxk <$> rows output))
                                    labels)))
               * (100 / inject_Z (Z.of_nat (length target))))%Q <$> topk.
Proof.
  intros Hacc.
  destruct (py_max topk) as [maxk|] eqn:Hmax;
    [|unfold accuracy in Hacc; rewrite Hmax in Hacc; discriminate Hacc].
  destruct (decide (maxk ≤ ncols output)) as [Hcols | Hcols]; cycle 1.
  { unfold accuracy, tensor_topk in Hacc. rewrite Hmax in Hacc; simpl in Hacc.
    apply Nat.leb_nle in Hcols. rewrite Hcols in Hacc. discriminate Hacc. }
  destruct (expand_as target (length (rows output))) as [labels|] eqn:Hlabels; cycle 1.
  { unfold accuracy, tensor_topk in Hacc. rewrite Hmax in Hacc; simpl in Hacc.
    apply Nat.leb_le in Hcols. rewrite Hcols in Hacc; simpl in Hacc.
    rewrite Hlabels in Hacc. discriminate Hacc. }
  rewrite (accuracy_unfold _ _ _ _ _ Hmax Hcols Hlabels) in Hacc.
  exists maxk, labels. do 3 (split; [done|]).
  apply py_max_Ok in Hmax as (Hne & _).
  destruct target as [|label target].
  { destruct topk as [|k ks]; [done|]. discriminate Hacc. }
  split; [done|].
  erewrite mapM_Ok in Hacc; [injection Hacc as <-; reflexivity|].
  apply Forall_true. intros k. reflexivity.
Qed.

(** C6: whenever [accuracy] returns (so the batch is not empty), the
    accuracy it reports for a requested [k2] is at least the one it reports
    for any requested [k1 ≤ k2]; in particular accuracy@1 ≤ accuracy@5. *)
Theorem accuracy_monotone_in_k output target topk res :
  accuracy output target topk = Ok res →
  (∀ i j k1 k2 acc1 acc2,
     topk !! i = Some k1 → topk !! j = Some k2 →
     res !! i = Some acc1 → res !! j = Some acc2 →
     k1 ≤ k2 → (acc1 <= acc2)%Q)
  ∧ (topk = [1; 5] → ∃ acc1 acc5, res = [acc1; acc5] ∧ (acc1 <= acc5)%Q).
Proof.
  intros Hacc.
  apply accuracy_Ok in Hacc as (maxk & labels & _ & _ & _ & Hne & ->).
  set (correct := tensor_eq (transpose maxk (topk_row maxk <$> rows output)) labels).
  assert (Hmono : ∀ k1 k2, k1 ≤ k2 →
            (inject_Z (sum_flat (take k1 correct))
               * (100 / inject_Z (Z.of_nat (length target)))
             <= inject_Z (sum_flat (take k2 correct))
               * (100 / inject_Z (Z.of_nat (length target))))%Q).
  { intros k1 k2 Hk. apply Qmult_le_compat_r.
    - rewrite <- Zle_Qle. apply sum_flat_take_mono. exact Hk.
    - apply Qle_shift_div_l.
      + destruct target; [done|]. simpl. reflexivity.
      + rewrite Qmult_0_l. done. }
  split.
  - intros i j k1 k2 acc1 acc2 Hi Hj Hacc1 Hacc2 Hk.
    rewrite list_lookup_fmap, Hi in Hacc1. rewrite list_lookup_fmap, Hj in Hacc2.
    injection Hacc1 as <-. injection Hacc2 as <-. apply Hmono. exact Hk.
  - intros ->. eexists _, _. split; [reflexivity|]. apply Hmono. lia.
Qed.

(** Two rows of three classes; the second row has a tie between classes 0
    and 1. *)
Lemma accuracy_monotone_in_k_witness :
  ∃ acc1 acc2,
    accuracy {| ncols := 3; rows := [[1; 3; 2]; [5; 5; 0]]%Q |} [1; 1]%Z [1; 2]
    = Ok [acc1; acc2]
    ∧ (acc1 <= acc2)%Q.
Proof.
  eexists _, _. split; [reflexivity|].
  refine (proj1 (accuracy_monotone_in_k
                   {| ncols := 3; rows := [[1; 3; 2]; [5; 5; 0]]%Q |} [1; 1]%Z [1; 2]
                   _ eq_refl) 0 1 1 2 _ _ eq_refl eq_refl eq_refl eq_refl _).
  lia.
Defined.

Lemma expand_as_same target batch :
  length target = batch → expand_as target batch = Ok target.
Proof. intros <-. unfold expand_as. rewrite Nat.eqb_refl. reflexivity. Qed.

(** C10: [accuracy] returns only when the target batch is not empty and the
    score matrix has at least [max(topk)] classes.  With fewer classes the
    top-k selection fails; with an empty batch the selection and the
    comparison go through and the scaling of the first [k] divides 100.0 by
    a batch size of 0.  With a non-empty batch of matching size and enough
    classes it returns. *)
Theorem accuracy_preconditions output target topk :
  (∀ res,
     accuracy output target topk = Ok res →
     target ≠ [] ∧ ∃ maxk, py_max topk = Ok maxk ∧ maxk ≤ ncols output)
  ∧ (∀ maxk,
       py_max topk = Ok maxk → ncols output < maxk →
       accuracy output target topk = Raise RuntimeError)
  ∧ (∀ maxk,
       py_max topk = Ok maxk → maxk ≤ ncols output →
       rows output = [] → target = [] →
       accuracy output target topk = Raise ZeroDivisionError)
  ∧ (∀ maxk,
       py_max topk = Ok maxk → maxk ≤ ncols output →
       target ≠ [] → length target = length (rows output) →
       ∃ res, accuracy output target topk = Ok res).
Proof.
  split; [|split; [|split]].
  - intros res Hacc.
    apply accuracy_Ok in Hacc as (maxk & labels & Hmax & Hcols & _ & Hne & _).
    split; [exact Hne|]. exists maxk. done.
  - intros maxk Hmax Hcols. unfold accuracy, tensor_topk. rewrite Hmax; simpl.
    apply Nat.leb_gt in Hcols. rewrite Hcols. reflexivity.
  - intros maxk Hmax Hcols Hrows ->.
    rewrite (accuracy_unfold _ _ _ maxk []); [|done..|rewrite Hrows; reflexivity].
    apply py_max_Ok in Hmax as (Hne & _).
    destruct topk as [|k ks]; [done|]. reflexivity.
  - intros maxk Hmax Hcols Hne Hbatch.
    rewrite (accuracy_unfold _ _ _ maxk target);
      [|done..|apply expand_as_same; exact Hbatch].
    destruct target as [|label target]; [done|].
    erewrite mapM_Ok; [eexists; reflexivity|].
    apply Forall_true. intros k. reflexivity.
Qed.

(** An empty batch with three classes, and a batch with fewer classes than
    [max(topk) = 5]. *)
Lemma accuracy_preconditions_witness :
  accuracy {| ncols := 3; rows := [] |} [] [1; 2] = Raise ZeroDivisionError
  ∧ accuracy {| ncols := 3; rows := [[1; 3; 2]]%Q |} [1]%Z [1; 5] = Raise RuntimeError.
Proof.
  split.
  - refine (proj1 (proj2 (proj2 (accuracy_preconditions
                                   {| ncols := 3; rows := [] |} [] [1; 2])))
                  2 eq_refl _ eq_refl eq_refl).
    simpl. lia.
  - refine (proj1 (proj2 (accuracy_preconditions
                            {| ncols := 3; rows := [[1; 3; 2]]%Q |} [1]%Z [1; 5]))
                  5 eq_refl _).
    simpl. lia.
Defined.

End TopkFacts.

(** ** Top-k accuracy with the library routines left open *)

Section TopkWith.

Local Open Scope nat_scope.

Lemma accuracy_with_exact output target topk :
  accuracy_with topk_row exact_scale output target topk = accuracy output target topk.
Proof. reflexivity. Qed.

(** The spec's selection honours the contract. *)
Lemma topk_row_contract : topk_contract topk_row.
Proof.
  intros k row Hk. split; [apply topk_row_length; exact Hk|].
  split; [apply topk_row_NoDup|]. split; [|split].
  - intros c Hc. apply topk_row_in_range in Hc. apply lookup_lt_is_Some. exact Hc.
  - intros i j c c' s s' Hij Hi Hj Hs Hs'.
    assert (c ∈ topk_row (S i) row) as Hin.
    { unfold topk_row in *. apply list_elem_of_lookup. exists i.
      rewrite lookup_take_lt by lia. apply lookup_take_Some in Hi as [Hi _]. exact Hi. }
    assert (c' ∉ topk_row (S i) row) as Hout.
    { intros Hin'. unfold topk_row in *.
      apply list_elem_of_lookup in Hin' as [i' Hi'].
      apply lookup_take_Some in Hi' as [Hi' Hlt].
      apply lookup_take_Some in Hj as [Hj _].
      pose proof (argsort_desc_NoDup row) as Hnodup.
      assert (i' = j) by (eapply NoDup_lookup; eassumption). lia. }
    destruct (topk_row_ranks (S i) row c s c' s' Hin Hout Hs Hs') as [Hlt | [Heq _]]; simpl in *.
    + apply Qlt_le_weak. exact Hlt.
    + rewrite Heq. apply Qle_refl.
  - intros c c' s s' Hc Hc' Hs Hs'.
    destruct (topk_row_ranks k row c s c' s' Hc Hc' Hs Hs') as [Hlt | [Heq _]]; simpl in *.
    + apply Qlt_le_weak. exact Hlt.
    + rewrite Heq. apply Qle_refl.
Qed.

Variable sel : nat → list Q → list nat.
Hypothesis contract : topk_contract sel.

(** The first [k] of the classes listed are [k] classes that score highest. *)
Lemma sel_prefix maxk k (row : list Q) :
  k ≤ maxk → maxk ≤ length row →
  let selected := take k (sel maxk row) in
  length selected = k
  ∧ NoDup selected
  ∧ (∀ c, c ∈ selected → is_Some (row !! c))
  ∧ (∀ c c' s s',
       c ∈ selected → c' ∉ selected → row !! c = Some s → row !! c' = Some s' →
       (s' <= s)%Q).
Proof.
  intros Hk Hmaxk selected.
  destruct (contract maxk row Hmaxk) as (Hlen & Hnodup & Hrange & Hsorted & Hlargest).
  subst selected. split; [rewrite length_take_le; lia|]. split.
  { rewrite <- (take_drop k (sel maxk row)) in Hnodup.
    apply NoDup_app in Hnodup as [Htake _]. exact Htake. }
  split.
  { intros c Hc. apply lookup_lt_is_Some. apply Hrange.
    rewrite <- (take_drop k (sel maxk row)). apply elem_of_app. left. exact Hc. }
  intros c c' s s' Hc Hc' Hs Hs'.
  apply list_elem_of_lookup in Hc as [i Hi].
  apply lookup_take_Some in Hi as [Hi Hik].
  destruct (decide (c' ∈ sel maxk row)) as [Hin | Hout].
  - apply list_elem_of_lookup in Hin as [j Hj].
    assert (k ≤ j) as Hkj.
    { destruct (decide (k ≤ j)) as [|Hlt]; [assumption|]. exfalso. apply Hc'.
      apply list_elem_of_lookup. exists j. rewrite lookup_take_lt by lia. exact Hj. }
    apply (Hsorted i j c c' s s'); [lia | assumption..].
  - apply (Hlargest c c' s s'); [|assumption..].
    apply list_elem_of_lookup. exists i. exact Hi.
Qed.

(** One more selected class adds its own comparison, and nothing else. *)
Lemma sel_S maxk k (row : list Q) label :
  k < maxk → maxk ≤ length row →
  bool_decide (label ∈ Z.of_nat <$> take (S k) (sel maxk row))
  = bool_decide (label ∈ Z.of_nat <$> take k (sel maxk row))
    || (Z.of_nat (nth k (sel maxk row) 0%nat) =? label)%Z
  ∧ bool_decide (label ∈ Z.of_nat <$> take k (sel maxk row))
    && (Z.of_nat (nth k (sel maxk row) 0%nat) =? label)%Z = false.
Proof.
  intros Hk Hmaxk.
  destruct (contract maxk row Hmaxk) as (Hlen & Hnodup & _).
  assert (is_Some (sel maxk row !! k)) as [c Hc].
  { apply lookup_lt_is_Some. lia. }
  assert (nth k (sel maxk row) 0 = c) as -> by (apply nth_lookup_Some; exact Hc).
  assert (take (S k) (sel maxk row) = take k (sel maxk row) ++ [c]) as Hsnoc.
  { apply take_S_r. exact Hc. }
  assert (c ∉ take k (sel maxk row)) as Hfresh.
  { rewrite <- (take_drop (S k) (sel maxk row)) in Hnodup.
    apply NoDup_app in Hnodup as (Hnodup & _). rewrite Hsnoc in Hnodup.
    apply NoDup_app in Hnodup as (_ & Hdisj & _).
    intros Hin. apply (Hdisj c Hin). apply list_elem_of_singleton. reflexivity. }
  rewrite Hsnoc, fmap_app; simpl.
  destruct (Z.eqb_spec (Z.of_nat c) label) as [<- | Hne].
  - rewrite (bool_decide_eq_false_2 (Z.of_nat c ∈ Z.of_nat <$> take k (sel maxk row))).
    + split; [|reflexivity]. apply bool_decide_eq_true.
      apply elem_of_app. right. apply list_elem_of_singleton. reflexivity.
    + intros Hin. apply Hfresh. eapply list_elem_of_fmap_inj_2; [|exact Hin]. apply _.
  - rewrite orb_false_r, andb_false_r. split; [|reflexivity].
    apply bool_decide_ext. rewrite elem_of_app, list_elem_of_singleton.
    split; [|tauto]. intros [Hin | Heq]; [exact Hin | congruence].
Qed.

Lemma hits_with_0 maxk output target : hits_with sel maxk 0 output target = 0.
Proof.
  unfold hits_with. generalize (rows output). intros l. revert target.
  induction l as [|row l IH]; intros [|label t]; try reflexivity.
  cbn [zip_with]. rewrite count_true_cons, IH.
  rewrite bool_decide_eq_false_2; [reflexivity|].
  rewrite take_0. apply not_elem_of_nil.
Qed.

(** The first [k] rows of the comparison tensor hold exactly the hits. *)
Lemma sum_flat_hits_with maxk output target : ∀ k,
  k ≤ maxk →
  Forall (fun row : list Q => maxk ≤ length row) (rows output) →
  sum_flat (tensor_eq (transpose k (sel maxk <$> rows output)) target)
  = Z.of_nat (hits_with sel maxk k output target).
Proof.
  intros k Hk Hrows. induction k as [|k IH].
  - rewrite hits_with_0. reflexivity.
  - rewrite transpose_S. unfold tensor_eq at 1. rewrite fmap_app. simpl.
    fold (tensor_eq (transpose k (sel maxk <$> rows output)) target).
    rewrite sum_flat_snoc, IH by lia.
    rewrite <- list_fmap_compose, zip_with_fmap_l.
    unfold hits_with.
    rewrite (count_true_zip_with_split
               (fun row label => bool_decide (label ∈ Z.of_nat <$> take (S k) (sel maxk row)))
               (fun row label => bool_decide (label ∈ Z.of_nat <$> take k (sel maxk row)))
               (fun row label => (Z.of_nat (nth k (sel maxk row) 0%nat) =? label)%Z)).
    + unfold compose. lia.
    + eapply Forall_impl; [exact Hrows|]. intros row Hrow label; simpl.
      apply sel_S; [lia | exact Hrow].
Qed.

Lemma hits_with_le maxk k output target : hits_with sel maxk k output target ≤ length target.
Proof.
  unfold hits_with. etransitivity; [apply count_true_le|].
  rewrite length_zip_with. lia.
Qed.

Lemma mapM_Forall2 {A B} (f : A → result B) (l : list A) : ∀ res,
  mapM f l = Ok res → Forall2 (fun x y => f x = Ok y) l res.
Proof.
  induction l as [|x l IH]; intros res Hres; simpl in Hres.
  - injection Hres as <-. constructor.
  - destruct (f x) as [y|] eqn:Hx; simpl in Hres; [|discriminate Hres].
    destruct (mapM f l) as [ys|]; simpl in Hres; [|discriminate Hres].
    injection Hres as <-. constructor; [exact Hx | apply IH; reflexivity].
Qed.

Lemma Forall2_impl_elem_of {A B} (P Q : A → B → Prop) (l : list A) (k : list B) :
  Forall2 P l k → (∀ x y, x ∈ l → P x y → Q x y) → Forall2 Q l k.
Proof.
  induction 1 as [|x y l k Hxy Hlk IH]; intros Himpl; constructor.
  - apply Himpl; [apply list_elem_of_here | exact Hxy].
  - apply IH. intros x' y' Hin. apply Himpl. apply list_elem_of_further. exact Hin.
Qed.

Lemma accuracy_with_Ok {F} (scale : Z → nat → result F) output target topk res :
  accuracy_with sel scale output target topk = Ok res →
  ∃ maxk labels,
    py_max topk = Ok maxk
    ∧ maxk ≤ ncols output
    ∧ expand_as target (length (rows output)) = Ok labels
    ∧ Forall2 (fun k acc =>
                 scale (sum_flat (take k (tensor_eq (transpose maxk (sel maxk <$> rows output))
                                                    labels)))
                       (length target) = Ok acc) topk res.
Proof.
  unfold accuracy_with. intros Hacc.
  destruct (py_max topk) as [maxk|]; [|discriminate Hacc]. simpl in Hacc.
  destruct (maxk <=? ncols output) eqn:Hcols; [|discriminate Hacc]. simpl in Hacc.
  destruct (expand_as target (length (rows output))) as [labels|]; [|discriminate Hacc].
  simpl in Hacc. apply mapM_Forall2 in Hacc.
  exists maxk, labels. apply Nat.leb_le in Hcols. done.
Qed.

(** The entries of the result are the hit counts, scaled. *)
Lemma accuracy_with_hits {F} (scale : Z → nat → result F) output target topk res :
  well_shaped output →
  length target = length (rows output) →
  accuracy_with sel scale output target topk = Ok res →
  ∃ maxk,
    py_max topk = Ok maxk
    ∧ maxk ≤ ncols output
    ∧ Forall2 (fun k acc =>
                 scale (Z.of_nat (hits_with sel maxk k output target)) (length target)
                 = Ok acc) topk res.
Proof.
  intros Hshape Hbatch Hacc.
  apply accuracy_with_Ok in Hacc as (maxk & labels & Hmax & Hcols & Hlabels & Hres).
  rewrite expand_as_same in Hlabels by exact Hbatch. injection Hlabels as <-.
  exists maxk. split; [exact Hmax|]. split; [exact Hcols|].
  apply py_max_Ok in Hmax as (_ & _ & Hle).
  assert (Hrows : Forall (fun row : list Q => maxk ≤ length row) (rows output)).
  { eapply Forall_impl; [exact Hshape|]. simpl. intros row ->. exact Hcols. }
  rewrite Forall_forall in Hle.
  eapply Forall2_impl_elem_of; [exact Hres|]. intros k acc Hk Hacc; simpl in *.
  rewrite take_tensor_eq in Hacc by (apply Hle; exact Hk).
  rewrite sum_flat_hits_with in Hacc by (try apply Hle; assumption). exact Hacc.
Qed.

(** C8, amended.  Whatever the tensor library's choice among equal
    scores, as long as it lists the classes of a row by descending score
    and leaves out none that scores higher than a listed one: for every
    sample the [k] selected classes are [k] distinct classes of the row
    that score at least as high as every class not selected; the result
    has one entry per requested [k], in the order requested, and each
    entry is the number of samples whose label is among the [k] selected,
    scaled as [correct_k.mul_(100.0 / batch_size)] scales it.  In exact
    arithmetic that is the fraction of such samples as a percentage, and
    lies between 0 and 100. *)
Theorem accuracy_is_topk_percentage {F} (scale : Z → nat → result F) output target topk res :
  well_shaped output →
  length target = length (rows output) →
  accuracy_with sel scale output target topk = Ok res →
  ∃ maxk,
    py_max topk = Ok maxk
    ∧ (∀ k row,
         k ∈ topk → row ∈ rows output →
         let selected := take k (sel maxk row) in
         length selected = k
         ∧ NoDup selected
         ∧ (∀ c, c ∈ selected → is_Some (row !! c))
         ∧ (∀ c c' s s',
              c ∈ selected → c' ∉ selected → row !! c = Some s → row !! c' = Some s' →
              (s' <= s)%Q))
    ∧ Forall2 (fun k acc =>
                 scale (Z.of_nat (hits_with sel maxk k output target)) (length target)
                 = Ok acc) topk res
    ∧ (∀ exact,
         accuracy_with sel exact_scale output target topk = Ok exact →
         Forall2 (fun k acc =>
                    (acc == inject_Z (Z.of_nat (hits_with sel maxk k output target))
                            / inject_Z (Z.of_nat (length target)) * 100)%Q) topk exact
         ∧ Forall (fun acc => (0 <= acc)%Q ∧ (acc <= 100)%Q) exact).
Proof.
  intros Hshape Hbatch Hacc.
  destruct (accuracy_with_hits scale output target topk res Hshape Hbatch Hacc)
    as (maxk & Hmax & Hcols & Hres).
  exists maxk. split; [exact Hmax|]. split; [|split; [exact Hres|]].
  - intros k row Hk Hrow. apply sel_prefix.
    + apply py_max_Ok in Hmax as (_ & _ & Hle). rewrite Forall_forall in Hle.
      apply Hle. exact Hk.
    + unfold well_shaped in Hshape. rewrite Forall_forall in Hshape.
      rewrite (Hshape row Hrow). exact Hcols.
  - intros exact Hexact.
    destruct (accuracy_with_hits exact_scale output target topk exact Hshape Hbatch Hexact)
      as (maxk' & Hmax' & _ & Hexact').
    assert (maxk' = maxk) as -> by congruence.
    assert (Hentry : ∀ k acc,
              exact_scale (Z.of_nat (hits_with sel maxk k output target)) (length target)
              = Ok acc →
              (acc == inject_Z (Z.of_nat (hits_with sel maxk k output target))
                      / inject_Z (Z.of_nat (length target)) * 100)%Q
              ∧ (0 <= acc)%Q ∧ (acc <= 100)%Q).
    { intros k acc. unfold exact_scale, percent_scale.
      destruct (length target =? 0) eqn:Hlen; [discriminate|]. simpl. intros [= <-].
      apply Nat.eqb_neq in Hlen.
      assert (Hpos : (0 < inject_Z (Z.of_nat (length target)))%Q).
      { rewrite <- (Zlt_Qlt 0). lia. }
      assert (Hnz : ¬ (inject_Z (Z.of_nat (length target)) == 0)%Q).
      { intros Hzero. rewrite Hzero in Hpos. discriminate Hpos. }
      pose proof (hits_with_le maxk k output target) as Hhits.
      assert ((inject_Z (Z.of_nat (hits_with sel maxk k output target))
               <= inject_Z (Z.of_nat (length target)))%Q) as Hhits'.
      { rewrite <- Zle_Qle. lia. }
      assert ((0 <= 100 / inject_Z (Z.of_nat (length target)))%Q) as Hscale.
      { apply Qle_shift_div_l; [exact Hpos|]. rewrite Qmult_0_l. done. }
      split; [field; exact Hnz|]. split.
      - apply Qmult_le_0_compat; [|exact Hscale]. rewrite <- (Zle_Qle 0). lia.
      - eapply Qle_trans; [apply Qmult_le_compat_r; eassumption|].
        apply Qle_lteq. right. field. exact Hnz. }
    split.
    + eapply Forall2_impl; [exact Hexact'|]. intros k acc Hk. apply (Hentry k acc Hk).
    + eapply Forall2_Forall_r; [exact Hexact'|]. apply Forall_true.
      intros k acc Hk. apply (Hentry k acc Hk).
Qed.

End TopkWith.

Section TopkWithExamples.

Local Open Scope nat_scope.

(** Three samples over three classes without equal scores: the label of
    the first is its top class, the label of the second its second class,
    the label of the third its last.  One hit of three at [k = 1] is
    33.33333206176758 in single precision, two of three at [k = 2] are
    66.66666412353516. *)
Lemma accuracy_is_topk_percentage_witness :
  ∃ maxk,
    py_max [1; 2] = Ok maxk
    ∧ Forall2 (fun k acc =>
                 float32_scale
                   (Z.of_nat (hits_with topk_row maxk k
                                {| ncols := 3; rows := [[1; 3; 2]; [5; 4; 0]; [0; 1; 2]]%Q |}
                                [1; 1; 0]%Z)) 3
                 = Ok acc)
              [1; 2] [S754_finite false 8738133 (-18); S754_finite false 8738133 (-17)].
Proof.
  assert (well_shaped {| ncols := 3; rows := [[1; 3; 2]; [5; 4; 0]; [0; 1; 2]]%Q |}) as Hshape.
  { repeat constructor. }
  destruct (accuracy_is_topk_percentage topk_row topk_row_contract float32_scale
              {| ncols := 3; rows := [[1; 3; 2]; [5; 4; 0]; [0; 1; 2]]%Q |} [1; 1; 0]%Z [1; 2]
              [S754_finite false 8738133 (-18); S754_finite false 8738133 (-17)]
              Hshape eq_refl eq_refl) as (maxk & Hmax & _ & Hres & _).
  exists maxk. split; [exact Hmax | exact Hres].
Defined.

(** C8, as stated, fails: the result is not always a percentage between 0
    and 100.  For 45 samples, every one of them a hit, the code multiplies
    45 by [100.0 / 45] rounded to single precision and gets
    100.00000762939453. *)
Lemma accuracy_percentage_counterexample :
  ¬ (∀ output target topk res,
       well_shaped output →
       length target = length (rows output) →
       accuracy_with topk_row float32_scale output target topk = Ok res →
       Forall (fun acc => ∃ v, Float32.value acc = Some v ∧ (0 <= v)%Q ∧ (v <= 100)%Q) res).
Proof.
  intros Hclaim.
  specialize (Hclaim {| ncols := 2; rows := replicate 45 [1; 0]%Q |} (replicate 45 0%Z) [1]
                [S754_finite false 13107201 (-17)]).
  assert (Forall (fun acc => ∃ v, Float32.value acc = Some v ∧ (0 <= v)%Q ∧ (v <= 100)%Q)
            [S754_finite false 13107201 (-17)]) as Hres.
  { apply Hclaim.
    - unfold well_shaped. cbn [rows ncols]. apply Forall_replicate. reflexivity.
    - reflexivity.
    - vm_compute. reflexivity. }
  apply Forall_cons_1 in Hres as [(v & Hv & _ & Hle) _].
  injection Hv as <-. vm_compute in Hle. apply Hle. reflexivity.
Qed.

End TopkWithExamples.

(** ** The evaluation loop *)

Section ValidateFacts.

Import Validate.

Lemma step_meters master1 master2 m pbar1 pbar2 it :
  fst <$> step master1 (m, pbar1) it = fst <$> step master2 (m, pbar2) it.
Proof.
  unfold step.
  destruct (accuracy (output_all it) (target_all it) [1; 5]%nat) as [accs|]; [|done].
  simpl. destruct accs as [|acc1 [|acc5 [|]]]; try done.
  destruct (AverageMeter.update (losses m) _ _); [|done]. simpl.
  destruct (AverageMeter.update (top1 m) _ _); [|done]. simpl.
  destruct (AverageMeter.update (top5 m) _ _); [|done]. simpl.
  destruct (AverageMeter.update (batch_time m) _ _); done.
Qed.

Lemma loop_cons master st it rest :
  loop master st (it :: rest) = (st' ← step master st it; loop master st' rest).
Proof. reflexivity. Qed.

Lemma loop_meters master1 master2 val_loader : ∀ m pbar1 pbar2,
  fst <$> loop master1 (m, pbar1) val_loader
  = fst <$> loop master2 (m, pbar2) val_loader.
Proof.
  induction val_loader as [|it rest IH]; intros m pbar1 pbar2; [done|].
  rewrite !loop_cons.
  pose proof (step_meters master1 master2 m pbar1 pbar2 it) as Hstep.
  destruct (step master1 (m, pbar1) it) as [[m1 p1]|e1];
    destruct (step master2 (m, pbar2) it) as [[m2 p2]|e2];
    simpl in *; try discriminate Hstep.
  - injection Hstep as ->. apply IH.
  - exact Hstep.
Qed.

(** The flag does decide the display: without it there is no progress bar,
    with it the bar has shown every iteration and is closed. *)
Lemma loop_pbar master val_loader : ∀ m pbar m' pbar',
  loop master (m, pbar) val_loader = Ok (m', pbar') →
  match pbar with
  | None => pbar' = None
  | Some bar =>
      ∃ bar', pbar' = Some bar'
              ∧ total bar' = total bar
              ∧ closed bar' = closed bar
              ∧ shown bar' = if master then (shown bar + length val_loader)%nat
                             else shown bar
  end.
Proof.
  induction val_loader as [|it rest IH]; intros m pbar m' pbar' Hloop.
  - injection Hloop as <- <-. destruct pbar as [bar|]; [|done].
    exists bar. destruct master; simpl; repeat split; lia.
  - rewrite loop_cons in Hloop.
    destruct (step master (m, pbar) it) as [[m1 pbar1]|] eqn:Hstep; [|discriminate Hloop].
    simpl in Hloop. apply IH in Hloop.
    assert (pbar1 = if master
                    then pbar_update <$> (set_description
                           (AverageMeter.avg (top1 m1), AverageMeter.avg (top5 m1)) <$> pbar)
                    else pbar) as ->.
    { unfold step in Hstep.
      destruct (accuracy _ _ _) as [accs|]; [|discriminate Hstep]. simpl in Hstep.
      destruct accs as [|acc1 [|acc5 [|]]]; try discriminate Hstep.
      destruct (AverageMeter.update (losses m) _ _); [|discriminate Hstep].
      simpl in Hstep.
      destruct (AverageMeter.update (top1 m) _ _); [|discriminate Hstep].
      simpl in Hstep.
      destruct (AverageMeter.update (top5 m) _ _); [|discriminate Hstep].
      simpl in Hstep.
      destruct (AverageMeter.update (batch_time m) _ _); [|discriminate Hstep].
      simpl in Hstep. injection Hstep as <- <-. reflexivity. }
    destruct pbar as [bar|]; destruct master; simpl in *; try exact Hloop.
    destruct Hloop as (bar' & -> & Htotal & Hclosed & Hshown).
    exists bar'. repeat split; try assumption. lia.
Qed.

(** C7: two runs of [validate] over the same iterations that differ only
    in the role flag return the same top-1 average, top-5 average and loss
    average, or fail with the same exception; the flag decides the progress
    bar and nothing else. *)
Theorem validate_metrics_independent_of_role flag1 flag2 val_loader :
  metrics (validate flag1 val_loader) = metrics (validate flag2 val_loader).
Proof.
  unfold metrics, validate.
  set (m0 := {| batch_time := AverageMeter.init; losses := AverageMeter.init;
                top1 := AverageMeter.init; top5 := AverageMeter.init |}).
  set (master1 := negb (flag1 =? 0)%Z). set (master2 := negb (flag2 =? 0)%Z).
  pose proof (loop_meters master1 master2 val_loader m0
                (if master1 then Some (tqdm (length val_loader)) else None)
                (if master2 then Some (tqdm (length val_loader)) else None)) as Hloop.
  destruct (loop master1 _ val_loader) as [[m1 p1]|e1];
    destruct (loop master2 _ val_loader) as [[m2 p2]|e2];
    simpl in *; try discriminate Hloop.
  - injection Hloop as ->. reflexivity.
  - injection Hloop as ->. reflexivity.
Qed.

End ValidateFacts.

(** ** Checkpoints *)

Section CheckpointFacts.

Import Checkpoint.

Context {State : Type} {serializer : Serializer State}
        {laws : SerializerLaws State}.

Lemma save_checkpoint_files (obj : State) path fs fs' :
  save_checkpoint obj path fs = Ok fs' →
  files fs' = <[path := torch_save obj]> (files fs) ∧ creatable fs' = creatable fs.
Proof.
  unfold save_checkpoint. destruct (creatable fs path); [|discriminate].
  intros [= <-]. done.
Qed.

(** C9: for every state and path, if [save_checkpoint(state, path)]
    succeeds then [load_checkpoint(path)] right after it returns the saved
    state as it is in host memory, which is equivalent to the saved state
    and is the saved state itself when that was in host memory already.
    Saving succeeds on every path that can be opened for writing, and
    leaves the other files alone. *)
Theorem load_after_save (obj : State) path fs fs' :
  save_checkpoint obj path fs = Ok fs' →
  load_checkpoint path fs' = Ok (to_cpu obj)
  ∧ equivalent (to_cpu obj) obj
  ∧ (to_cpu obj = obj → load_checkpoint path fs' = Ok obj)
  ∧ (∀ other, other ≠ path → files fs' !! other = files fs !! other).
Proof.
  intros Hsave. apply save_checkpoint_files in Hsave as [Hfiles _].
  assert (load_checkpoint path fs' = Ok (to_cpu obj)) as Hload.
  { unfold load_checkpoint. rewrite Hfiles, lookup_insert_eq. apply load_save. }
  split; [exact Hload|]. split; [apply to_cpu_idemp|]. split.
  - intros Hcpu. rewrite Hload, Hcpu. reflexivity.
  - intros other Hother. rewrite Hfiles. apply lookup_insert_ne. congruence.
Qed.

Lemma save_checkpoint_creatable (obj : State) path fs :
  creatable fs path = true → ∃ fs', save_checkpoint obj path fs = Ok fs'.
Proof. intros Hpath. unfold save_checkpoint. rewrite Hpath. eexists; reflexivity. Qed.

End CheckpointFacts.

Section CheckpointExample.

Import Checkpoint.

#[local] Existing Instance flagged_serializer.

Lemma flagged_serializer_laws : SerializerLaws (bool * list byte).
Proof. split; intros [device payload]; reflexivity. Qed.

(** A state on an accelerator, saved to an empty file system and loaded
    back: the payload is the same, the state is in host memory. *)
Lemma load_after_save_witness :
  ∃ fs',
    save_checkpoint (true, [x2a; x07]) "ckpt/latest"
      {| files := ∅; creatable := λ _, true |} = Ok fs'
    ∧ load_checkpoint "ckpt/latest" fs' = Ok (false, [x2a; x07]).
Proof.
  eexists. split; [reflexivity|].
  refine (proj1 (load_after_save (laws := flagged_serializer_laws)
                   (true, [x2a; x07]) "ckpt/latest"
                   {| files := ∅; creatable := λ _, true |} _ eq_refl)).
Defined.

End CheckpointExample.

(** * Further properties *)

(** ** The learning-rate schedule *)

Section ScheduleMore.

Import Schedule.
Open Scope Z_scope.

(** A call that returns either leaves the optimizer alone or sets the
    returned rate in every group. *)
Lemma adjust_Ok_optimizer epoch bidx cfg optimizer r optimizer' :
  adjust_learning_rate epoch bidx cfg optimizer = Ok (r, optimizer') →
  optimizer' = optimizer ∨ optimizer' = set_lr r optimizer.
Proof.
  unfold adjust_learning_rate.
  destruct (String.eqb _ "MULTISTEP").
  - unfold multistep_lr. destruct (bidx =? 0).
    + destruct (0 <? _)%nat; intros [= <- <-]; [right | left]; reflexivity.
    + destruct (first_lr optimizer); [|discriminate]. intros [= <- <-]. left. reflexivity.
  - destruct (String.eqb _ "COSINE"); [|discriminate].
    intros Hcall. right. eapply cosine_lr_writes. exact Hcall.
Qed.

(** The rate of a COSINE call does not depend on the optimizer. *)
Lemma cosine_lr_any_optimizer epoch bidx cfg optimizer r optimizer' :
  cosine_lr epoch bidx cfg optimizer = Ok (r, optimizer') →
  ∀ other, cosine_lr epoch bidx cfg other = Ok (r, set_lr r other).
Proof.
  unfold cosine_lr. intros Hcall other.
  destruct (getitem dataset_sizes (DATASET_TYPE cfg)) as [n|]; simpl in *;
    [|discriminate].
  destruct (ceil_div n (BATCH_SIZE (SOLVER cfg))) as [b|]; simpl in *; [|discriminate].
  match type of Hcall with (?c ≫= _) = _ => destruct c as [new_lr|] end;
    simpl in *; [|discriminate].
  injection Hcall as <- _. reflexivity.
Qed.

(** X1: a call never adds or removes a parameter group, and never changes
    an option other than ["lr"]: after a call that returns, every group has
    the value it had under every other key. *)
Theorem adjust_touches_only_lr epoch bidx cfg optimizer r optimizer' :
  adjust_learning_rate epoch bidx cfg optimizer = Ok (r, optimizer') →
  length (param_groups optimizer') = length (param_groups optimizer)
  ∧ ∀ i key,
      key ≠ "lr" →
      (param_groups optimizer' !! i) ≫= (fun group => group !! key)
      = (param_groups optimizer !! i) ≫= (fun group => group !! key).
Proof.
  intros Hcall. apply adjust_Ok_optimizer in Hcall as [-> | ->]; [done|].
  split; [apply set_lr_length|]. intros i key Hkey.
  unfold set_lr; simpl. rewrite list_lookup_fmap.
  destruct (param_groups optimizer !! i) as [group|]; simpl; [|reflexivity].
  apply lookup_insert_ne. congruence.
Qed.

(** A COSINE call on two groups with momentum and weight decay. *)
Lemma adjust_touches_only_lr_witness :
  ∃ r optimizer',
    adjust_learning_rate 6 0 (example_cfg "COSINE" 64)
      {| param_groups := [ <["momentum" := 0.9%R]> {["lr" := 0.5%R]};
                           <["weight_decay" := 0.0005%R]> {["lr" := 0.5%R]} ] |}
    = Ok (r, optimizer')
    ∧ length (param_groups optimizer') = 2%nat
    ∧ (param_groups optimizer' !! 0%nat) ≫= (fun group => group !! "momentum")
      = Some 0.9%R.
Proof.
  eexists _, _. split; [reflexivity|].
  match goal with
  | |- context [param_groups ?o] =>
      destruct (adjust_touches_only_lr 6 0 (example_cfg "COSINE" 64)
                  {| param_groups := [ <["momentum" := 0.9%R]> {["lr" := 0.5%R]};
                                       <["weight_decay" := 0.0005%R]> {["lr" := 0.5%R]} ] |}
                  _ o eq_refl) as [Hlen Hkeys]
  end.
  split; [exact Hlen|]. rewrite (Hkeys 0%nat "momentum") by discriminate.
  simpl. apply lookup_insert_eq.
Defined.

(** X2: a call is idempotent: repeating it on the optimizer it produced
    returns the same rate and leaves that optimizer as it is. *)
Theorem adjust_idempotent epoch bidx cfg optimizer r optimizer' :
  adjust_learning_rate epoch bidx cfg optimizer = Ok (r, optimizer') →
  adjust_learning_rate epoch bidx cfg optimizer' = Ok (r, optimizer').
Proof.
  unfold adjust_learning_rate.
  destruct (String.eqb _ "MULTISTEP").
  - unfold multistep_lr. destruct (bidx =? 0).
    + destruct (0 <? _)%nat; intros [= <- <-]; [|reflexivity].
      rewrite set_lr_idemp. reflexivity.
    + destruct (first_lr optimizer) as [lr|] eqn:Hlr; [|discriminate].
      intros [= <- <-]. rewrite Hlr. reflexivity.
  - destruct (String.eqb _ "COSINE"); [|discriminate].
    intros Hcall. pose proof (cosine_lr_writes _ _ _ _ _ _ Hcall) as ->.
    rewrite (cosine_lr_any_optimizer _ _ _ _ _ _ Hcall), set_lr_idemp. reflexivity.
Qed.

Lemma adjust_idempotent_witness :
  ∃ r optimizer',
    adjust_learning_rate 45 0 (example_cfg "MULTISTEP" 64) (single_group 0.5%R)
    = Ok (r, optimizer')
    ∧ adjust_learning_rate 45 0 (example_cfg "MULTISTEP" 64) optimizer' = Ok (r, optimizer').
Proof.
  eexists _, _. split; [reflexivity|].
  apply (adjust_idempotent 45 0 (example_cfg "MULTISTEP" 64) (single_group 0.5%R)).
  reflexivity.
Defined.

Lemma multistep_zero_Ok epoch cfg optimizer r optimizer' :
  TYPE (SCHEDULE (SOLVER cfg)) = "MULTISTEP" →
  adjust_learning_rate epoch 0 cfg optimizer = Ok (r, optimizer') →
  r = (LR (SOLVER cfg)
       * MULTISTEP_RATE (MULTISTEP (SCHEDULE (SOLVER cfg)))
         ^ count_exceeded epoch (STAGES (MULTISTEP (SCHEDULE (SOLVER cfg)))))%R.
Proof.
  intros Hty. rewrite multistep_dispatch by exact Hty. unfold multistep_lr; simpl.
  destruct (0 <? _)%nat eqn:Hsteps; intros [= <- _]; [reflexivity|].
  apply Nat.ltb_ge in Hsteps.
  replace (count_exceeded epoch _) with 0%nat by lia. simpl. lra.
Qed.

Lemma count_exceeded_mono epoch1 epoch2 stages :
  epoch1 ≤ epoch2 → (count_exceeded epoch1 stages ≤ count_exceeded epoch2 stages)%nat.
Proof.
  intros Hle. unfold count_exceeded.
  induction stages as [|stage stages IH]; simpl; [done|].
  rewrite !filter_cons. repeat case_decide; simpl; lia.
Qed.

Lemma pow_antitone (x : R) (n m : nat) :
  (0 <= x <= 1)%R → (n ≤ m)%nat → (x ^ m <= x ^ n)%R.
Proof.
  intros Hx Hnm. induction Hnm as [|m Hnm IH]; [lra|]. simpl.
  pose proof (pow_le x m (proj1 Hx)). nra.
Qed.

(** X3: with a non-negative base rate and a decay rate between 0 and 1,
    the MULTISTEP rate computed at batch 0 never increases from an epoch to
    a later one, and stays between 0 and the base rate. *)
Theorem multistep_rate_nonincreasing epoch1 epoch2 cfg optimizer1 optimizer2
    r1 r2 optimizer1' optimizer2' :
  TYPE (SCHEDULE (SOLVER cfg)) = "MULTISTEP" →
  (0 <= LR (SOLVER cfg))%R →
  (0 <= MULTISTEP_RATE (MULTISTEP (SCHEDULE (SOLVER cfg))) <= 1)%R →
  epoch1 ≤ epoch2 →
  adjust_learning_rate epoch1 0 cfg optimizer1 = Ok (r1, optimizer1') →
  adjust_learning_rate epoch2 0 cfg optimizer2 = Ok (r2, optimizer2') →
  (0 <= r2)%R ∧ (r2 <= r1)%R ∧ (r1 <= LR (SOLVER cfg))%R.
Proof.
  intros Hty Hbase Hdecay Hepochs Hcall1 Hcall2.
  apply multistep_zero_Ok in Hcall1 as ->; [|exact Hty].
  apply multistep_zero_Ok in Hcall2 as ->; [|exact Hty].
  set (decay := MULTISTEP_RATE _) in *. set (stages := STAGES _).
  pose proof (count_exceeded_mono epoch1 epoch2 stages Hepochs) as Hsteps.
  pose proof (pow_antitone decay _ _ Hdecay Hsteps) as Hpow.
  pose proof (pow_le decay (count_exceeded epoch2 stages) (proj1 Hdecay)) as Hpos.
  pose proof (pow_antitone decay 0 (count_exceeded epoch1 stages) Hdecay) as Hone.
  simpl in Hone. specialize (Hone ltac:(lia)).
  repeat split; nra.
Qed.

(** Epochs 45 and 75 of the example configuration: one and two stages
    exceeded. *)
Lemma multistep_rate_nonincreasing_witness :
  ∃ r1 r2 o1 o2,
    adjust_learning_rate 45 0 (example_cfg "MULTISTEP" 64) (single_group 0.5%R) = Ok (r1, o1)
    ∧ adjust_learning_rate 75 0 (example_cfg "MULTISTEP" 64) o1 = Ok (r2, o2)
    ∧ (0 <= r2)%R ∧ (r2 <= r1)%R ∧ (r1 <= 0.1)%R.
Proof.
  set (o1 := set_lr (0.1 * 0.1 ^ 1)%R (single_group 0.5%R)).
  exists (0.1 * 0.1 ^ 1)%R, (0.1 * 0.1 ^ 2)%R, o1, (set_lr (0.1 * 0.1 ^ 2)%R o1).
  split; [reflexivity|]. split; [reflexivity|].
  apply (multistep_rate_nonincreasing 45 75 (example_cfg "MULTISTEP" 64)
           (single_group 0.5%R) o1 _ _ o1 (set_lr (0.1 * 0.1 ^ 2)%R o1));
    [reflexivity | simpl; lra | simpl; lra | lia | reflexivity | reflexivity].
Defined.

Lemma count_exceeded_Permutation epoch stages stages' :
  stages ≡ₚ stages' → count_exceeded epoch stages = count_exceeded epoch stages'.
Proof. intros Hperm. unfold count_exceeded. rewrite Hperm. reflexivity. Qed.

(** X4: the order in which the stages are configured is immaterial: two
    MULTISTEP configurations with the same base rate and decay rate whose
    stage lists are permutations of each other behave the same on every
    call. *)
Theorem multistep_stage_order_irrelevant epoch bidx cfg cfg' optimizer :
  TYPE (SCHEDULE (SOLVER cfg)) = "MULTISTEP" →
  TYPE (SCHEDULE (SOLVER cfg')) = "MULTISTEP" →
  LR (SOLVER cfg) = LR (SOLVER cfg') →
  MULTISTEP_RATE (MULTISTEP (SCHEDULE (SOLVER cfg)))
  = MULTISTEP_RATE (MULTISTEP (SCHEDULE (SOLVER cfg'))) →
  STAGES (MULTISTEP (SCHEDULE (SOLVER cfg)))
  ≡ₚ STAGES (MULTISTEP (SCHEDULE (SOLVER cfg'))) →
  adjust_learning_rate epoch bidx cfg optimizer
  = adjust_learning_rate epoch bidx cfg' optimizer.
Proof.
  intros Hty Hty' Hbase Hdecay Hstages.
  rewrite !multistep_dispatch by assumption. unfold multistep_lr.
  rewrite (count_exceeded_Permutation epoch _ _ Hstages), Hbase, Hdecay. reflexivity.
Qed.

Lemma multistep_stage_order_irrelevant_witness :
  adjust_learning_rate 75 0 (example_cfg "MULTISTEP" 64) (single_group 0.5%R)
  = adjust_learning_rate 75 0
      {| SOLVER :=
           {| LR := 0.1%R; BATCH_SIZE := 64; EPOCHS := 240;
              SCHEDULE :=
                {| TYPE := "MULTISTEP";
                   MULTISTEP := {| STAGES := [90; 30; 60]; MULTISTEP_RATE := 0.1%R |};
                   COSINE := {| WARMUP := 5; COSINE_RATE := 0.01%R |} |} |};
         DATASET_TYPE := "cifar100" |}
      (single_group 0.5%R).
Proof.
  apply multistep_stage_order_irrelevant; try reflexivity.
  simpl. symmetry. apply (Permutation_cons_append [30; 60] 90).
Defined.

(** X5: a stage takes effect in the epoch after it, not in the epoch equal
    to it.  While no stage is strictly below the epoch, the call at batch 0
    returns the base rate and leaves the optimizer untouched; as soon as one
    is, the call writes [base_lr * decay_rate ^ s] with [s ≥ 1]. *)
Theorem multistep_stage_boundary epoch cfg optimizer :
  TYPE (SCHEDULE (SOLVER cfg)) = "MULTISTEP" →
  let stages := STAGES (MULTISTEP (SCHEDULE (SOLVER cfg))) in
  (Forall (fun stage => epoch ≤ stage) stages →
   adjust_learning_rate epoch 0 cfg optimizer = Ok (LR (SOLVER cfg), optimizer))
  ∧ (∀ stage, stage ∈ stages → stage < epoch →
     ∃ r, adjust_learning_rate epoch 0 cfg optimizer = Ok (r, set_lr r optimizer)
          ∧ (1 ≤ count_exceeded epoch stages)%nat
          ∧ r = (LR (SOLVER cfg)
                 * MULTISTEP_RATE (MULTISTEP (SCHEDULE (SOLVER cfg)))
                   ^ count_exceeded epoch stages)%R).
Proof.
  intros Hty stages. rewrite multistep_dispatch by exact Hty.
  unfold multistep_lr; simpl. fold stages. split.
  - intros Hnone.
    assert (count_exceeded epoch stages = 0%nat) as ->; [|reflexivity].
    unfold count_exceeded. induction Hnone as [|stage rest Hstage _ IH]; [done|].
    rewrite filter_cons_False by lia. exact IH.
  - intros stage Hin Hlt.
    assert (1 ≤ count_exceeded epoch stages)%nat as Hsteps.
    { unfold count_exceeded.
      assert (stage ∈ filter (fun stage => stage < epoch) stages) as Hfilter.
      { apply list_elem_of_filter. done. }
      destruct (filter _ stages); [by apply elem_of_nil in Hfilter | simpl; lia]. }
    destruct (0 <? count_exceeded epoch stages)%nat eqn:Hpos;
      [|apply Nat.ltb_ge in Hpos; lia].
    eexists. split; [reflexivity|]. done.
Qed.

(** Epoch 30 of the example configuration does not exceed the stage 30;
    epoch 31 does. *)
Lemma multistep_stage_boundary_witness :
  adjust_learning_rate 30 0 (example_cfg "MULTISTEP" 64) (single_group 0.5%R)
  = Ok (0.1%R, single_group 0.5%R)
  ∧ ∃ r, adjust_learning_rate 31 0 (example_cfg "MULTISTEP" 64) (single_group 0.5%R)
         = Ok (r, set_lr r (single_group 0.5%R)).
Proof.
  split.
  - apply (proj1 (multistep_stage_boundary 30 (example_cfg "MULTISTEP" 64)
                    (single_group 0.5%R) eq_refl)).
    simpl. repeat constructor; lia.
  - destruct (proj2 (multistep_stage_boundary 31 (example_cfg "MULTISTEP" 64)
                       (single_group 0.5%R) eq_refl) 30) as (r & Hcall & _).
    + simpl. apply list_elem_of_here.
    + lia.
    + exists r. exact Hcall.
Defined.

(** What a COSINE call that returns has computed. *)
Lemma cosine_call_Ok epoch bidx cfg optimizer r optimizer' :
  TYPE (SCHEDULE (SOLVER cfg)) = "COSINE" →
  adjust_learning_rate epoch bidx cfg optimizer = Ok (r, optimizer') →
  ∃ dataset_size,
    dataset_sizes !! DATASET_TYPE cfg = Some dataset_size
    ∧ BATCH_SIZE (SOLVER cfg) ≠ 0
    ∧ let base_lr := LR (SOLVER cfg) in
      let warmup_epochs := WARMUP (COSINE (SCHEDULE (SOLVER cfg))) in
      let batches_per_epoch :=
        spec_batches_per_epoch dataset_size (BATCH_SIZE (SOLVER cfg)) in
      let warmup_batches := batches_per_epoch * warmup_epochs in
      let g := global_batch batches_per_epoch epoch bidx in
      let T := batches_per_epoch * (EPOCHS (SOLVER cfg) - warmup_epochs) in
      let floor_lr := (base_lr * COSINE_RATE (COSINE (SCHEDULE (SOLVER cfg))))%R in
      (g < warmup_batches ∧ warmup_batches ≠ 0
       ∧ r = (base_lr / IZR warmup_batches * IZR (g + 1))%R)
      ∨ (warmup_batches ≤ g ∧ T ≠ 0
         ∧ r = ((cos (IZR (g - warmup_batches) / IZR T * PI) + 1) / 2
                * (base_lr - floor_lr) + floor_lr)%R).
Proof.
  intros Hty. rewrite cosine_dispatch by exact Hty. unfold cosine_lr, getitem.
  destruct (dataset_sizes !! DATASET_TYPE cfg) as [dataset_size|]; [|discriminate].
  simpl. intros Hcall. exists dataset_size. split; [reflexivity|].
  destruct (decide (BATCH_SIZE (SOLVER cfg) = 0)) as [Hzero | Hbatch].
  { unfold ceil_div in Hcall. rewrite Hzero in Hcall. discriminate Hcall. }
  split; [exact Hbatch|]. rewrite ceil_div_spec in Hcall by exact Hbatch.
  simpl in Hcall. unfold global_batch, float_div_int, int_truediv in *. cbv zeta.
  destruct (_ <? _) eqn:Hwarm.
  - apply Z.ltb_lt in Hwarm. destruct (_ =? 0) eqn:Hdiv; [discriminate Hcall|].
    apply Z.eqb_neq in Hdiv. injection Hcall as <- _. left. done.
  - apply Z.ltb_ge in Hwarm. destruct (_ =? 0) eqn:Hdiv; [discriminate Hcall|].
    apply Z.eqb_neq in Hdiv. injection Hcall as <- _. right.
    split; [exact Hwarm | split; [exact Hdiv | lra]].
Qed.

(** X6: during warm-up, with a positive base rate, the rate is positive,
    grows strictly from one batch to any later one, and does not exceed the
    base rate. *)
Theorem cosine_warmup_increasing epoch1 bidx1 epoch2 bidx2 cfg dataset_size
    optimizer1 optimizer2 r1 r2 optimizer1' optimizer2' :
  TYPE (SCHEDULE (SOLVER cfg)) = "COSINE" →
  dataset_sizes !! DATASET_TYPE cfg = Some dataset_size →
  (0 < LR (SOLVER cfg))%R →
  let batches_per_epoch := spec_batches_per_epoch dataset_size (BATCH_SIZE (SOLVER cfg)) in
  let warmup_batches := batches_per_epoch * WARMUP (COSINE (SCHEDULE (SOLVER cfg))) in
  0 ≤ global_batch batches_per_epoch epoch1 bidx1 →
  global_batch batches_per_epoch epoch1 bidx1 < global_batch batches_per_epoch epoch2 bidx2 →
  global_batch batches_per_epoch epoch2 bidx2 < warmup_batches →
  adjust_learning_rate epoch1 bidx1 cfg optimizer1 = Ok (r1, optimizer1') →
  adjust_learning_rate epoch2 bidx2 cfg optimizer2 = Ok (r2, optimizer2') →
  (0 < r1)%R ∧ (r1 < r2)%R ∧ (r2 <= LR (SOLVER cfg))%R.
Proof.
  intros Hty Hsize Hbase batches_per_epoch warmup_batches Hfirst Horder Hwarm Hcall1 Hcall2.
  apply cosine_call_Ok in Hcall1 as (n1 & Hn1 & _ & Hcase1); [|exact Hty].
  apply cosine_call_Ok in Hcall2 as (n2 & Hn2 & _ & Hcase2); [|exact Hty].
  rewrite Hsize in Hn1, Hn2. injection Hn1 as <-. injection Hn2 as <-.
  cbv zeta in Hcase1, Hcase2. fold batches_per_epoch in Hcase1, Hcase2.
  fold warmup_batches in Hcase1, Hcase2.
  set (g1 := global_batch batches_per_epoch epoch1 bidx1) in *.
  set (g2 := global_batch batches_per_epoch epoch2 bidx2) in *.
  destruct Hcase1 as [(_ & _ & ->) | (Hge & _)]; [|lia].
  destruct Hcase2 as [(_ & _ & ->) | (Hge & _)]; [|lia].
  assert (0 < IZR warmup_batches)%R as HW by (apply IZR_lt; lia).
  assert (0 < IZR (g1 + 1))%R as H1 by (apply IZR_lt; lia).
  assert (IZR (g1 + 1) < IZR (g2 + 1))%R as H12 by (apply IZR_lt; lia).
  assert (IZR (g2 + 1) <= IZR warmup_batches)%R as H2 by (apply IZR_le; lia).
  assert (0 < LR (SOLVER cfg) / IZR warmup_batches)%R as Hstep
    by (apply Rdiv_lt_0_compat; assumption).
  split; [nra|]. split; [nra|].
  replace (LR (SOLVER cfg)) with (LR (SOLVER cfg) / IZR warmup_batches * IZR warmup_batches)%R
    at 2 by (field; lra).
  nra.
Qed.

(** The first two batches of training with the example COSINE
    configuration. *)
Lemma cosine_warmup_increasing_witness :
  ∃ r1 r2,
    adjust_learning_rate 1 0 (example_cfg "COSINE" 64) (single_group 0.5%R)
    = Ok (r1, set_lr r1 (single_group 0.5%R))
    ∧ adjust_learning_rate 1 1 (example_cfg "COSINE" 64) (single_group 0.5%R)
      = Ok (r2, set_lr r2 (single_group 0.5%R))
    ∧ (0 < r1)%R ∧ (r1 < r2)%R ∧ (r2 <= 0.1)%R.
Proof.
  eexists _, _. split; [reflexivity|]. split; [reflexivity|].
  eapply (cosine_warmup_increasing 1 0 1 1 (example_cfg "COSINE" 64) 50000
            (single_group 0.5%R) (single_group 0.5%R));
    [reflexivity | reflexivity | simpl; lra | vm_compute; discriminate
    | vm_compute; reflexivity | vm_compute; reflexivity | reflexivity | reflexivity].
Defined.

(** X7: after warm-up, with a non-negative base rate and an end fraction
    between 0 and 1, every rate the schedule returns lies between the floor
    rate [base_lr * end_rate_fraction] and the base rate, however far past
    the configured number of epochs the call is made. *)
Theorem cosine_phase_bounds epoch bidx cfg dataset_size optimizer r optimizer' :
  TYPE (SCHEDULE (SOLVER cfg)) = "COSINE" →
  dataset_sizes !! DATASET_TYPE cfg = Some dataset_size →
  (0 <= LR (SOLVER cfg))%R →
  (0 <= COSINE_RATE (COSINE (SCHEDULE (SOLVER cfg))) <= 1)%R →
  let batches_per_epoch := spec_batches_per_epoch dataset_size (BATCH_SIZE (SOLVER cfg)) in
  batches_per_epoch * WARMUP (COSINE (SCHEDULE (SOLVER cfg)))
  ≤ global_batch batches_per_epoch epoch bidx →
  adjust_learning_rate epoch bidx cfg optimizer = Ok (r, optimizer') →
  (LR (SOLVER cfg) * COSINE_RATE (COSINE (SCHEDULE (SOLVER cfg))) <= r)%R
  ∧ (r <= LR (SOLVER cfg))%R.
Proof.
  intros Hty Hsize Hbase Hend batches_per_epoch Hphase Hcall.
  apply cosine_call_Ok in Hcall as (n & Hn & _ & Hcase); [|exact Hty].
  rewrite Hsize in Hn. injection Hn as <-.
  cbv zeta in Hcase. subst batches_per_epoch.
  destruct Hcase as [(Hlt & _) | (_ & _ & ->)]; [lia|].
  match goal with |- context [cos ?x] => pose proof (COS_bound x) as Hcos end.
  set (c := cos _) in *.
  set (base := LR (SOLVER cfg)) in *.
  set (rate := COSINE_RATE (COSINE (SCHEDULE (SOLVER cfg)))) in *.
  assert (0 <= base - base * rate)%R as Hspan by nra.
  assert (0 <= (c + 1) / 2 <= 1)%R as Hweight by lra.
  split; nra.
Qed.

Lemma cosine_phase_bounds_witness :
  ∃ r, adjust_learning_rate 100 3 (example_cfg "COSINE" 64) (single_group 0.5%R)
       = Ok (r, set_lr r (single_group 0.5%R))
       ∧ (0.1 * 0.01 <= r)%R ∧ (r <= 0.1)%R.
Proof.
  eexists. split; [reflexivity|].
  eapply (cosine_phase_bounds 100 3 (example_cfg "COSINE" 64) 50000 (single_group 0.5%R));
    [reflexivity | reflexivity | simpl; lra | simpl; lra
    | vm_compute; discriminate | reflexivity].
Defined.

(** X8: after warm-up the rate starts at the base rate, does not increase
    from a batch to a later one up to the end of the schedule
    ([T = batches_per_epoch * (total_epochs - warmup_epochs)] batches after
    warm-up), and reaches the floor rate there. *)
Theorem cosine_phase_decreasing epoch1 bidx1 epoch2 bidx2 cfg dataset_size
    optimizer1 optimizer2 r1 r2 optimizer1' optimizer2' :
  TYPE (SCHEDULE (SOLVER cfg)) = "COSINE" →
  dataset_sizes !! DATASET_TYPE cfg = Some dataset_size →
  (0 <= LR (SOLVER cfg))%R →
  (COSINE_RATE (COSINE (SCHEDULE (SOLVER cfg))) <= 1)%R →
  let batches_per_epoch := spec_batches_per_epoch dataset_size (BATCH_SIZE (SOLVER cfg)) in
  let warmup_epochs := WARMUP (COSINE (SCHEDULE (SOLVER cfg))) in
  let warmup_batches := batches_per_epoch * warmup_epochs in
  let T := batches_per_epoch * (EPOCHS (SOLVER cfg) - warmup_epochs) in
  let g1 := global_batch batches_per_epoch epoch1 bidx1 in
  let g2 := global_batch batches_per_epoch epoch2 bidx2 in
  warmup_batches ≤ g1 → g1 ≤ g2 → g2 ≤ warmup_batches + T →
  adjust_learning_rate epoch1 bidx1 cfg optimizer1 = Ok (r1, optimizer1') →
  adjust_learning_rate epoch2 bidx2 cfg optimizer2 = Ok (r2, optimizer2') →
  (r2 <= r1)%R
  ∧ (g1 = warmup_batches → r1 = LR (SOLVER cfg))
  ∧ (g2 = warmup_batches + T →
     r2 = (LR (SOLVER cfg) * COSINE_RATE (COSINE (SCHEDULE (SOLVER cfg))))%R).
Proof.
  intros Hty Hsize Hbase Hend batches_per_epoch warmup_epochs warmup_batches T g1 g2
    Hphase Horder Hlast Hcall1 Hcall2.
  apply cosine_call_Ok in Hcall1 as (n1 & Hn1 & _ & Hcase1); [|exact Hty].
  apply cosine_call_Ok in Hcall2 as (n2 & Hn2 & _ & Hcase2); [|exact Hty].
  rewrite Hsize in Hn1, Hn2. injection Hn1 as <-. injection Hn2 as <-.
  cbv zeta in Hcase1, Hcase2.
  subst g1 g2 T warmup_batches warmup_epochs batches_per_epoch.
  set (batches_per_epoch := spec_batches_per_epoch _ _) in *.
  set (warmup_batches :=
         batches_per_epoch * WARMUP (COSINE (SCHEDULE (SOLVER cfg)))) in *.
  set (T := batches_per_epoch
            * (EPOCHS (SOLVER cfg) - WARMUP (COSINE (SCHEDULE (SOLVER cfg))))) in *.
  set (g1 := global_batch batches_per_epoch epoch1 bidx1) in *.
  set (g2 := global_batch batches_per_epoch epoch2 bidx2) in *.
  destruct Hcase1 as [(Hlt & _) | (_ & HT & ->)]; [lia|].
  destruct Hcase2 as [(Hlt & _) | (_ & _ & ->)]; [lia|].
  assert (0 < IZR T)%R as HTpos by (apply IZR_lt; lia).
  assert (Hangle : ∀ t, 0 ≤ t ≤ T → (0 <= IZR t / IZR T * PI <= PI)%R).
  { intros t [Ht0 HtT]. apply IZR_le in Ht0, HtT.
    pose proof PI_RGT_0 as Hpi.
    assert (0 <= IZR t / IZR T <= 1)%R as [Hlo Hhi].
    { unfold Rdiv. pose proof (Rinv_0_lt_compat _ HTpos) as Hinv.
      assert (IZR T * / IZR T = 1)%R as Hone by (apply Rinv_r; lra).
      split; nra. }
    split; nra. }
  split; [|split].
  - assert (cos (IZR (g2 - warmup_batches) / IZR T * PI)
            <= cos (IZR (g1 - warmup_batches) / IZR T * PI))%R as Hcos.
    { destruct (Hangle (g1 - warmup_batches)) as [? ?]; [lia|].
      destruct (Hangle (g2 - warmup_batches)) as [? ?]; [lia|].
      apply cos_decr_1; try assumption.
      apply Rmult_le_compat_r; [pose proof PI_RGT_0; lra|].
      apply Rmult_le_compat_r; [apply Rlt_le, Rinv_0_lt_compat; exact HTpos|].
      apply IZR_le. lia. }
    set (base := LR (SOLVER cfg)) in *.
    set (rate := COSINE_RATE (COSINE (SCHEDULE (SOLVER cfg)))) in *.
    assert (0 <= base - base * rate)%R as Hspan by nra.
    nra.
  - intros ->. replace (warmup_batches - warmup_batches) with 0 by lia.
    replace (0 / IZR T * PI)%R with 0%R by (unfold Rdiv; ring).
    rewrite cos_0. lra.
  - intros ->. replace (warmup_batches + T - warmup_batches) with T by lia.
    replace (IZR T / IZR T * PI)%R with PI by (field; lra).
    rewrite cos_PI. lra.
Qed.

(** The first batch after warm-up (epoch 6) and a batch of epoch 100. *)
Lemma cosine_phase_decreasing_witness :
  ∃ r1 r2,
    adjust_learning_rate 6 0 (example_cfg "COSINE" 64) (single_group 0.5%R)
    = Ok (r1, set_lr r1 (single_group 0.5%R))
    ∧ adjust_learning_rate 100 3 (example_cfg "COSINE" 64) (single_group 0.5%R)
      = Ok (r2, set_lr r2 (single_group 0.5%R))
    ∧ (r2 <= r1)%R ∧ r1 = 0.1%R.
Proof.
  eexists _, _. split; [reflexivity|]. split; [reflexivity|].
  edestruct (cosine_phase_decreasing 6 0 100 3 (example_cfg "COSINE" 64) 50000
               (single_group 0.5%R) (single_group 0.5%R)) as (Hle & Hfirst & _);
    [reflexivity | reflexivity | simpl; lra | simpl; lra
    | vm_compute; discriminate | vm_compute; discriminate | vm_compute; discriminate
    | reflexivity | reflexivity |].
  split; [exact Hle|]. apply Hfirst. vm_compute. reflexivity.
Defined.

(** X9: a COSINE call sees the epoch and the batch index only through the
    global batch number: counting one epoch more is the same as counting
    [batches_per_epoch] batches more, errors included. *)
Theorem cosine_epoch_rollover epoch bidx cfg dataset_size optimizer :
  TYPE (SCHEDULE (SOLVER cfg)) = "COSINE" →
  dataset_sizes !! DATASET_TYPE cfg = Some dataset_size →
  adjust_learning_rate (epoch + 1) bidx cfg optimizer
  = adjust_learning_rate epoch
      (bidx + spec_batches_per_epoch dataset_size (BATCH_SIZE (SOLVER cfg)))
      cfg optimizer.
Proof.
  intros Hty Hsize. rewrite !cosine_dispatch by exact Hty.
  unfold cosine_lr, getitem. rewrite Hsize; simpl.
  destruct (decide (BATCH_SIZE (SOLVER cfg) = 0)) as [Hzero | Hbatch].
  { unfold ceil_div. rewrite Hzero. reflexivity. }
  rewrite ceil_div_spec by exact Hbatch; simpl.
  set (batches_per_epoch := spec_batches_per_epoch _ _).
  replace ((epoch + 1 - 1) * batches_per_epoch + bidx)
    with ((epoch - 1) * batches_per_epoch + (bidx + batches_per_epoch)) by lia.
  reflexivity.
Qed.

Lemma cosine_epoch_rollover_witness :
  adjust_learning_rate 3 10 (example_cfg "COSINE" 64) (single_group 0.5%R)
  = adjust_learning_rate 2 792 (example_cfg "COSINE" 64) (single_group 0.5%R).
Proof.
  apply (cosine_epoch_rollover 2 10 (example_cfg "COSINE" 64) 50000 (single_group 0.5%R));
    reflexivity.
Defined.

(** X10: for each known dataset and a positive batch size below
    [2 ^ 1022], the number of batches per epoch the schedule computes
    through a double is the one exact arithmetic gives: it is at least 1,
    the batches cover the dataset, and one batch fewer would not. *)
Theorem batches_cover_dataset dataset dataset_size batch_size :
  dataset_sizes !! dataset = Some dataset_size →
  0 < batch_size < 2 ^ 1022 →
  ∃ num_epoch_batches,
    Schedule64.ceil_div dataset_size batch_size = Ok num_epoch_batches
    ∧ ceil_div dataset_size batch_size = Ok num_epoch_batches
    ∧ 1 ≤ num_epoch_batches
    ∧ (num_epoch_batches - 1) * batch_size < dataset_size
    ∧ dataset_size ≤ num_epoch_batches * batch_size.
Proof.
  intros Hsize Hbatch.
  assert (0 < dataset_size < 2 ^ 53) as Hpos.
  { apply dataset_sizes_known in Hsize as [-> | ->]; lia. }
  rewrite ceil_div_exact by lia.
  unfold ceil_div. destruct (batch_size =? 0) eqn:Hzero; [lia|].
  eexists. split; [reflexivity|]. split; [reflexivity|].
  pose proof (Z.div_mod (- dataset_size) batch_size ltac:(lia)) as Hdiv.
  pose proof (Z.mod_pos_bound (- dataset_size) batch_size ltac:(lia)) as Hmod.
  nia.
Qed.

(** CIFAR-100 in batches of 64: 782 batches, the last one partial. *)
Lemma batches_cover_dataset_witness :
  ∃ n, Schedule64.ceil_div 50000 64 = Ok n
       ∧ ceil_div 50000 64 = Ok n ∧ 1 ≤ n ∧ (n - 1) * 64 < 50000 ∧ 50000 ≤ n * 64.
Proof.
  apply (batches_cover_dataset "cifar100" 50000 64); [reflexivity | lia].
Defined.

End ScheduleMore.

(** ** The running average *)

Section AverageMeterMore.

Import AverageMeter.

Lemma weighted_sum_from_shift calls : ∀ acc,
  (weighted_sum_from acc calls == acc + weighted_sum_from 0 calls)%Q.
Proof.
  unfold weighted_sum_from.
  induction calls as [|call rest IH]; intros acc; simpl; [ring|].
  rewrite (IH (acc + _)%Q), (IH (0 + _)%Q). ring.
Qed.

Lemma total_weight_from_shift calls : ∀ acc,
  total_weight_from acc calls = (acc + total_weight_from 0 calls)%Z.
Proof.
  unfold total_weight_from.
  induction calls as [|call rest IH]; intros acc; simpl; [lia|].
  rewrite (IH (acc + _)%Z), (IH (0 + _)%Z). lia.
Qed.


Lemma weighted_sum_bounds (lo hi : Q) calls : ∀ sacc cacc,
  Forall (fun call : Q * Z => (0 < call.2)%Z ∧ (lo <= call.1)%Q ∧ (call.1 <= hi)%Q) calls →
  (lo * inject_Z cacc <= sacc)%Q → (sacc <= hi * inject_Z cacc)%Q →
  (lo * inject_Z (total_weight_from cacc calls) <= weighted_sum_from sacc calls)%Q
  ∧ (weighted_sum_from sacc calls <= hi * inject_Z (total_weight_from cacc calls))%Q.
Proof.
  unfold weighted_sum_from, total_weight_from.
  induction calls as [|call rest IH]; intros sacc cacc Hcalls Hlo Hhi; simpl; [done|].
  apply Forall_cons_1 in Hcalls as [(Hn & Hl & Hh) Hrest].
  apply IH; [exact Hrest|..]; rewrite inject_Z_plus.
  - assert (0 < inject_Z call.2)%Q by (rewrite <- (Zlt_Qlt 0); exact Hn). nra.
  - assert (0 < inject_Z call.2)%Q by (rewrite <- (Zlt_Qlt 0); exact Hn). nra.
Qed.

Lemma total_weight_positive calls : ∀ acc,
  Forall (fun call : Q * Z => (0 < call.2)%Z) calls → calls ≠ [] → (0 ≤ acc)%Z →
  (0 < total_weight_from acc calls)%Z.
Proof.
  unfold total_weight_from.
  induction calls as [|call rest IH]; intros acc Hcalls Hne Hacc; simpl; [done|].
  apply Forall_cons_1 in Hcalls as [Hn Hrest].
  destruct rest as [|call' rest']; [simpl; lia|].
  apply IH; [exact Hrest | done | lia].
Qed.

Lemma update_all_avg_bounds (lo hi : Q) calls self :
  calls ≠ [] →
  Forall (fun call : Q * Z => (0 < call.2)%Z ∧ (lo <= call.1)%Q ∧ (call.1 <= hi)%Q) calls →
  update_all init calls = Ok self →
  (lo <= avg self)%Q ∧ (avg self <= hi)%Q.
Proof.
  intros Hne Hcalls Hrun.
  destruct (update_all_Ok _ _ _ Hrun) as (Hsum & Hcount & Havg).
  rewrite (Havg Hne), Hsum, Hcount. simpl.
  assert (Forall (fun call : Q * Z => (0 < call.2)%Z) calls) as Hpos.
  { eapply Forall_impl; [exact Hcalls|]. simpl. tauto. }
  pose proof (total_weight_positive calls 0 Hpos Hne ltac:(lia)) as Htotal.
  destruct (weighted_sum_bounds lo hi calls 0 0 Hcalls) as [Hlo Hhi];
    [change (inject_Z 0) with 0%Q; lra..|].
  assert (0 < inject_Z (total_weight_from 0 calls))%Q as Hden
    by (rewrite <- (Zlt_Qlt 0); exact Htotal).
  split.
  - apply Qle_shift_div_l; assumption.
  - apply Qle_shift_div_r; [exact Hden|]. exact Hhi.
Qed.

(** X12: in exact arithmetic, with positive weights the average is a
    weighted mean, so it lies between any two bounds that enclose all the
    values it was given.  (Rounding can move a double just outside:
    [0.1 * 3 / 3] is above 0.1.) *)
Theorem average_within_bounds (lo hi : Q) calls self :
  calls ≠ [] →
  Forall (fun call : Q * Z => (0 < call.2)%Z ∧ (lo <= call.1)%Q ∧ (call.1 <= hi)%Q) calls →
  update_all init calls = Ok self →
  (lo <= avg self)%Q ∧ (avg self <= hi)%Q.
Proof. apply update_all_avg_bounds. Qed.

(** Accuracies 50, 100 and 75 over batches of 2, 2 and 4 samples. *)
Lemma average_within_bounds_witness :
  ∃ self,
    update_all init [(50, 2%Z); (100, 2%Z); (75, 4%Z)]%Q = Ok self
    ∧ (0 <= avg self)%Q ∧ (avg self <= 100)%Q.
Proof.
  eexists. split; [reflexivity|].
  apply (average_within_bounds 0 100 [(50, 2%Z); (100, 2%Z); (75, 4%Z)]%Q);
    [discriminate | | reflexivity].
  repeat constructor; simpl; lra.
Defined.

(** The same update over doubles: after [update(0.1, 3)] on a fresh meter
    the average is [(0 + 0.1 * 3) / 3], which is one unit in the last place
    above 0.1. *)
Example average_rounds_above :
  (product ← Binary64.float_mul_int (Binary64.decimal 1 10) 3%Z;
   Binary64.float_div_int (Binary64.add (S754_zero false) product) 3%Z)
  = Ok (S754_finite false 7205759403792795 (-56)%Z)
  ∧ Binary64.decimal 1 10 = S754_finite false 7205759403792794 (-56)%Z.
Proof. split; vm_compute; reflexivity. Qed.

Lemma weighted_sum_Permutation calls calls' :
  calls ≡ₚ calls' →
  (weighted_sum_from 0 calls == weighted_sum_from 0 calls')%Q
  ∧ total_weight_from 0 calls = total_weight_from 0 calls'.
Proof.
  induction 1 as [|call l l' _ [IHs IHt]|c1 c2 l|l1 l2 l3 _ [IHs1 IHt1] _ [IHs2 IHt2]].
  - done.
  - unfold weighted_sum_from, total_weight_from in *; simpl.
    fold (weighted_sum_from (0 + call.1 * inject_Z call.2) l).
    fold (weighted_sum_from (0 + call.1 * inject_Z call.2) l').
    fold (total_weight_from (0 + call.2) l). fold (total_weight_from (0 + call.2) l').
    rewrite (weighted_sum_from_shift l), (weighted_sum_from_shift l').
    rewrite (total_weight_from_shift l), (total_weight_from_shift l').
    unfold weighted_sum_from, total_weight_from. rewrite IHs, IHt. done.
  - unfold weighted_sum_from, total_weight_from; simpl.
    fold (weighted_sum_from (0 + c2.1 * inject_Z c2.2 + c1.1 * inject_Z c1.2) l).
    fold (weighted_sum_from (0 + c1.1 * inject_Z c1.2 + c2.1 * inject_Z c2.2) l).
    fold (total_weight_from (0 + c2.2 + c1.2) l). fold (total_weight_from (0 + c1.2 + c2.2) l).
    rewrite (weighted_sum_from_shift l (0 + c2.1 * _ + _)%Q).
    rewrite (weighted_sum_from_shift l (0 + c1.1 * _ + _)%Q).
    rewrite (total_weight_from_shift l (0 + c2.2 + _)%Z).
    rewrite (total_weight_from_shift l (0 + c1.2 + _)%Z).
    split; [ring | lia].
  - split; [rewrite IHs1; exact IHs2 | congruence].
Qed.

(** X13: with positive weights the order of the updates does not matter:
    two sequences that are permutations of each other both run to their end
    and leave the same count, the same sum and the same average (as
    rational numbers). *)
Theorem average_order_irrelevant calls calls' :
  Forall (fun call : Q * Z => (0 < call.2)%Z) calls →
  calls ≡ₚ calls' →
  ∃ self self',
    update_all init calls = Ok self
    ∧ update_all init calls' = Ok self'
    ∧ count self = count self'
    ∧ (sum self == sum self')%Q
    ∧ (avg self == avg self')%Q.
Proof.
  intros Hpos Hperm.
  assert (Forall (fun call : Q * Z => (0 < call.2)%Z) calls') as Hpos'
    by (rewrite <- Hperm; exact Hpos).
  destruct (update_all_positive calls init ltac:(simpl; lia) Hpos) as [self Hrun].
  destruct (update_all_positive calls' init ltac:(simpl; lia) Hpos') as [self' Hrun'].
  exists self, self'. split; [exact Hrun|]. split; [exact Hrun'|].
  destruct (update_all_Ok _ _ _ Hrun) as (Hsum & Hcount & Havg).
  destruct (update_all_Ok _ _ _ Hrun') as (Hsum' & Hcount' & Havg').
  destruct (weighted_sum_Permutation _ _ Hperm) as [Hs Ht]. simpl in *.
  assert (count self = count self') as Hc by congruence.
  assert (sum self == sum self')%Q as Hsm by (rewrite Hsum, Hsum'; exact Hs).
  split; [exact Hc|]. split; [exact Hsm|].
  destruct calls as [|call rest].
  - apply Permutation_nil in Hperm. subst calls'.
    simpl in Hrun, Hrun'. injection Hrun as <-. injection Hrun' as <-. reflexivity.
  - assert (calls' ≠ []) as Hne'.
    { intros ->. symmetry in Hperm. apply Permutation_nil in Hperm.
      discriminate Hperm. }
    rewrite Havg by discriminate. rewrite (Havg' Hne'). rewrite Hc, Hsm. reflexivity.
Qed.

Lemma average_order_irrelevant_witness :
  ∃ self self',
    update_all init [(1, 2%Z); (3, 2%Z)]%Q = Ok self
    ∧ update_all init [(3, 2%Z); (1, 2%Z)]%Q = Ok self'
    ∧ (avg self == avg self')%Q.
Proof.
  destruct (average_order_irrelevant [(1, 2%Z); (3, 2%Z)]%Q [(3, 2%Z); (1, 2%Z)]%Q)
    as (self & self' & Hrun & Hrun' & _ & _ & Havg).
  - repeat constructor.
  - apply Permutation_swap.
  - exists self, self'. done.
Defined.

Lemma update_val self value n self' : update self value n = Ok self' → val self' = value.
Proof.
  unfold update. destruct (_ =? 0)%Z; [discriminate|]. intros [= <-]. reflexivity.
Qed.

(** X14: one update of weight [n1 + n2] and two updates with the same
    value and the weights [n1] and [n2] leave the same value, count, sum
    and average (as rational numbers), whenever none of them raises. *)
Theorem update_split self value n1 n2 once twice :
  update self value (n1 + n2) = Ok once →
  update_all self [(value, n1); (value, n2)] = Ok twice →
  val once = val twice
  ∧ count once = count twice
  ∧ (sum once == sum twice)%Q
  ∧ (avg once == avg twice)%Q.
Proof.
  intros Honce Htwice. simpl in Htwice.
  destruct (update self value n1) as [mid|] eqn:Hmid; [|discriminate Htwice].
  simpl in Htwice.
  destruct (update mid value n2) as [last|] eqn:Hlast; [|discriminate Htwice].
  injection Htwice as <-.
  pose proof (update_val _ _ _ _ Honce) as Hv1.
  pose proof (update_val _ _ _ _ Hlast) as Hv3.
  apply update_Ok in Honce as (Hs1 & Hc1 & Ha1 & _).
  apply update_Ok in Hmid as (Hs2 & Hc2 & _ & _).
  apply update_Ok in Hlast as (Hs3 & Hc3 & Ha3 & _).
  assert (count once = count last) as Hc by lia.
  assert (sum once == sum last)%Q as Hs.
  { rewrite Hs1, Hs3, Hs2, inject_Z_plus. ring. }
  split; [|split; [exact Hc | split; [exact Hs|]]].
  - congruence.
  - rewrite Ha1, Ha3, Hc, Hs. reflexivity.
Qed.

Lemma update_split_witness :
  ∃ once twice,
    update init 3 4 = Ok once
    ∧ update_all init [(3, 2%Z); (3, 2%Z)]%Q = Ok twice
    ∧ count once = count twice ∧ (avg once == avg twice)%Q.
Proof.
  eexists _, _. split; [reflexivity|]. split; [reflexivity|].
  edestruct (update_split init 3 2 2) as (_ & Hcount & _ & Havg);
    [reflexivity | reflexivity |].
  split; [exact Hcount | exact Havg].
Defined.

End AverageMeterMore.

(** ** The evaluation loop *)

Section ValidateMore.

Import Validate ValidateView ValidateRun.

(** The two accuracies of an iteration, when its [accuracy] call returns. *)
Lemma accuracy_1_5_Ok output target accs :
  accuracy output target [1; 5]%nat = Ok accs →
  ∃ acc1 acc5, accs = [acc1; acc5] ∧ target ≠ []
               ∧ (0 <= acc1)%Q ∧ (acc1 <= acc5)%Q.
Proof.
  intros Hacc. apply accuracy_Ok in Hacc as (maxk & labels & _ & _ & _ & Hne & ->).
  simpl. eexists _, _. split; [reflexivity|]. split; [exact Hne|].
  assert (0 < inject_Z (Z.of_nat (length target)))%Q as Hpos.
  { destruct target; [done|]. simpl. reflexivity. }
  assert (0 <= 100 / inject_Z (Z.of_nat (length target)))%Q as Hscale.
  { apply Qle_shift_div_l; [exact Hpos|]. rewrite Qmult_0_l. done. }
  split.
  - apply Qmult_le_0_compat; [|exact Hscale].
    rewrite <- (Zle_Qle 0). apply sum_flat_nonneg.
  - apply Qmult_le_compat_r; [|exact Hscale].
    rewrite <- Zle_Qle. apply sum_flat_take_mono. lia.
Qed.

(** What one iteration does to the meters, when it goes through. *)
Lemma step_Ok master m pbar it m' pbar' :
  step master (m, pbar) it = Ok (m', pbar') →
  (∃ accs, accuracy (output_all it) (target_all it) [1; 5]%nat = Ok accs)
  ∧ AverageMeter.update (losses m) (loss it) (batch_size it) = Ok (losses m')
  ∧ AverageMeter.update (top1 m) (acc_at 0 it) (batch_size it) = Ok (top1 m')
  ∧ AverageMeter.update (top5 m) (acc_at 1 it) (batch_size it) = Ok (top5 m')
  ∧ AverageMeter.update (batch_time m) (elapsed it) 1 = Ok (batch_time m')
  ∧ pbar' = (if master
             then pbar_update <$> (set_description
                    (AverageMeter.avg (top1 m'), AverageMeter.avg (top5 m')) <$> pbar)
             else pbar).
Proof.
  unfold step, acc_at, batch_size.
  destruct (accuracy _ _ _) as [accs|] eqn:Hacc; [|discriminate]. simpl.
  destruct (accuracy_1_5_Ok _ _ _ Hacc) as (acc1 & acc5 & -> & _). simpl.
  destruct (AverageMeter.update (losses m) _ _); [|discriminate]. simpl.
  destruct (AverageMeter.update (top1 m) _ _); [|discriminate]. simpl.
  destruct (AverageMeter.update (top5 m) _ _); [|discriminate]. simpl.
  destruct (AverageMeter.update (batch_time m) _ _); [|discriminate]. simpl.
  intros [= <- <-]. simpl. repeat split; try reflexivity. eexists; reflexivity.
Qed.

Lemma loop_meter_calls master val_loader : ∀ m pbar m' pbar',
  loop master (m, pbar) val_loader = Ok (m', pbar') →
  AverageMeter.update_all (top1 m) (meter_calls (acc_at 0) val_loader) = Ok (top1 m')
  ∧ AverageMeter.update_all (top5 m) (meter_calls (acc_at 1) val_loader) = Ok (top5 m')
  ∧ AverageMeter.update_all (losses m) (meter_calls loss val_loader) = Ok (losses m').
Proof.
  induction val_loader as [|it rest IH]; intros m pbar m' pbar' Hloop.
  - injection Hloop as <- <-. done.
  - rewrite loop_cons in Hloop.
    destruct (step master (m, pbar) it) as [[m1 pbar1]|] eqn:Hstep; [|discriminate Hloop].
    simpl in Hloop. apply IH in Hloop as (H1 & H5 & Hl).
    apply step_Ok in Hstep as (_ & Hlosses & Htop1 & Htop5 & _).
    unfold meter_calls; simpl. rewrite Htop1, Htop5, Hlosses. simpl. done.
Qed.

(** X15: the three numbers [validate] returns are the averages of three
    running averages fed, iteration by iteration, with the top-1 accuracy,
    the top-5 accuracy and the loss of the gathered batch, each weighted by
    the size of the gathered batch. *)
Theorem validate_is_weighted_average flag val_loader top1_avg top5_avg loss_avg pbar :
  validate flag val_loader = Ok ((top1_avg, top5_avg, loss_avg), pbar) →
  ∃ m1 m5 ml,
    AverageMeter.update_all AverageMeter.init (meter_calls (acc_at 0) val_loader) = Ok m1
    ∧ AverageMeter.update_all AverageMeter.init (meter_calls (acc_at 1) val_loader) = Ok m5
    ∧ AverageMeter.update_all AverageMeter.init (meter_calls loss val_loader) = Ok ml
    ∧ top1_avg = AverageMeter.avg m1
    ∧ top5_avg = AverageMeter.avg m5
    ∧ loss_avg = AverageMeter.avg ml.
Proof.
  unfold validate. intros Hrun.
  destruct (loop _ _ val_loader) as [[m p]|] eqn:Hloop; [|discriminate Hrun].
  simpl in Hrun. injection Hrun as <- <- <- _.
  apply loop_meter_calls in Hloop as (H1 & H5 & Hl). simpl in *.
  exists (top1 m), (top5 m), (losses m). done.
Qed.

Lemma validate_is_weighted_average_witness :
  ∃ t1 t5 l pbar m1,
    validate 1 example_loader = Ok ((t1, t5, l), pbar)
    ∧ AverageMeter.update_all AverageMeter.init (meter_calls (acc_at 0) example_loader)
      = Ok m1
    ∧ t1 = AverageMeter.avg m1.
Proof.
  eexists _, _, _, _. 
  edestruct (validate_is_weighted_average 1 example_loader)
    as (m1 & _ & _ & H1 & _ & _ & Ht1 & _); [reflexivity|].
  exists m1. split; [reflexivity|]. split; [exact H1 | exact Ht1].
Defined.

Lemma update_positive self value n :
  (0 ≤ AverageMeter.count self)%Z → (0 < n)%Z →
  ∃ self', AverageMeter.update self value n = Ok self'
           ∧ (0 ≤ AverageMeter.count self')%Z.
Proof.
  intros Hcount Hn. unfold AverageMeter.update.
  destruct (_ =? 0)%Z eqn:Hzero; [lia|]. eexists. split; [reflexivity|]. simpl. lia.
Qed.

(** With counts that are not negative, an iteration goes through exactly
    when its [accuracy] call returns, and raises what that call raises. *)
Lemma step_cases master m pbar it :
  (0 ≤ AverageMeter.count (batch_time m))%Z → (0 ≤ AverageMeter.count (losses m))%Z →
  (0 ≤ AverageMeter.count (top1 m))%Z → (0 ≤ AverageMeter.count (top5 m))%Z →
  match accuracy (output_all it) (target_all it) [1; 5]%nat with
  | Ok _ =>
      ∃ m' pbar', step master (m, pbar) it = Ok (m', pbar')
        ∧ (0 ≤ AverageMeter.count (batch_time m'))%Z
        ∧ (0 ≤ AverageMeter.count (losses m'))%Z
        ∧ (0 ≤ AverageMeter.count (top1 m'))%Z
        ∧ (0 ≤ AverageMeter.count (top5 m'))%Z
  | Raise e => step master (m, pbar) it = Raise e
  end.
Proof.
  intros Hbt Hl H1 H5. unfold step.
  destruct (accuracy _ _ _) as [accs|e] eqn:Hacc; [|reflexivity]. simpl.
  destruct (accuracy_1_5_Ok _ _ _ Hacc) as (acc1 & acc5 & -> & Hne & _).
  assert (0 < Z.of_nat (length (target_all it)))%Z as Hsize.
  { destruct (target_all it); [done | simpl; lia]. }
  destruct (update_positive (losses m) (loss it) _ Hl Hsize) as (l' & -> & Hl').
  destruct (update_positive (top1 m) acc1 _ H1 Hsize) as (t1 & -> & H1').
  destruct (update_positive (top5 m) acc5 _ H5 Hsize) as (t5 & -> & H5').
  destruct (update_positive (batch_time m) (elapsed it) 1%Z Hbt ltac:(lia))
    as (bt & -> & Hbt').
  simpl. eexists _, _. split; [reflexivity|]. simpl. done.
Qed.

Lemma loop_attempts_cons_Ok master st it rest :
  loop_attempts master st (Ok it :: rest)
  = (st' ← step master st it; loop_attempts master st' rest).
Proof. reflexivity. Qed.

Lemma loop_attempts_Ok master val_loader : ∀ st,
  loop_attempts master st (Ok <$> val_loader) = loop master st val_loader.
Proof.
  induction val_loader as [|it rest IH]; intros st; [reflexivity|].
  rewrite fmap_cons, loop_attempts_cons_Ok, loop_cons.
  destruct (step master st it) as [st'|]; simpl; [apply IH | reflexivity].
Qed.

Lemma loop_attempts_raises_iff master attempts : ∀ m pbar e,
  (0 ≤ AverageMeter.count (batch_time m))%Z → (0 ≤ AverageMeter.count (losses m))%Z →
  (0 ≤ AverageMeter.count (top1 m))%Z → (0 ≤ AverageMeter.count (top5 m))%Z →
  loop_attempts master (m, pbar) attempts = Raise e
  ↔ ∃ before attempt after,
      attempts = (Ok <$> before) ++ attempt :: after
      ∧ Forall (fun it' => ∃ accs,
                  accuracy (output_all it') (target_all it') [1; 5]%nat = Ok accs) before
      ∧ (attempt = Raise e
         ∨ ∃ it, attempt = Ok it
                 ∧ accuracy (output_all it) (target_all it) [1; 5]%nat = Raise e).
Proof.
  induction attempts as [|attempt rest IH]; intros m pbar e Hbt Hl H1 H5.
  - split; [discriminate|]. intros (before & it & after & Heq & _).
    destruct before; discriminate Heq.
  - destruct attempt as [it|e0]; [rewrite loop_attempts_cons_Ok | simpl].
    + pose proof (step_cases master m pbar it Hbt Hl H1 H5) as Hstep.
      destruct (accuracy (output_all it) (target_all it) [1; 5]%nat) as [accs|e'] eqn:Hacc.
      * destruct Hstep as (m' & pbar' & -> & Hbt' & Hl' & H1' & H5'). simpl.
        rewrite (IH m' pbar' e Hbt' Hl' H1' H5'). split.
        -- intros (before & attempt & after & -> & Hbefore & Hraise).
           exists (it :: before), attempt, after. split; [reflexivity|].
           split; [|exact Hraise]. constructor; [eexists; exact Hacc | exact Hbefore].
        -- intros (before & attempt & after & Heq & Hbefore & Hraise).
           destruct before as [|it0 before]; simpl in Heq.
           ++ injection Heq as <- ->. destruct Hraise as [? | (it' & [= <-] & ?)]; congruence.
           ++ injection Heq as <- ->. apply Forall_cons_1 in Hbefore as [_ Hbefore].
              exists before, attempt, after. done.
      * rewrite Hstep. simpl. split.
        -- intros [= <-]. exists [], (Ok it), rest. split; [reflexivity|].
           split; [constructor|]. right. exists it. done.
        -- intros (before & attempt & after & Heq & Hbefore & Hraise).
           destruct before as [|it0 before]; simpl in Heq.
           ++ injection Heq as <- ->. destruct Hraise as [? | (it' & [= <-] & ?)]; congruence.
           ++ injection Heq as <- ->.
              apply Forall_cons_1 in Hbefore as [[accs Hok] _]. congruence.
    + split.
      * intros [= <-]. exists [], (Raise e0), rest. split; [reflexivity|].
        split; [constructor|]. left. reflexivity.
      * intros (before & attempt & after & Heq & Hbefore & Hraise).
        destruct before as [|it0 before]; simpl in Heq; [|discriminate Heq].
        injection Heq as <- ->. destruct Hraise as [? | (it' & ? & _)]; congruence.
Qed.

(** X16: once the role flag is read, [validate] raises exactly when, on
    some iteration, a collaborator called before [accuracy] (the loader,
    the forward pass, a gather or the criterion) raises, or the
    [accuracy] call raises (for instance on an empty gathered batch), and
    it raises the exception of the first such iteration; the updates of
    the meters never raise in the loop.  In every other case it returns,
    and what it returns is what it returns on the iterations as the
    collaborators left them. *)
Theorem validate_raises_iff flag attempts e :
  (validate_attempts flag attempts = Raise e
   ↔ ∃ before attempt after,
       attempts = (Ok <$> before) ++ attempt :: after
       ∧ Forall (fun it' => ∃ accs,
                   accuracy (output_all it') (target_all it') [1; 5]%nat = Ok accs) before
       ∧ (attempt = Raise e
          ∨ ∃ it, attempt = Ok it
                  ∧ accuracy (output_all it) (target_all it) [1; 5]%nat = Raise e))
  ∧ (∀ val_loader, validate_attempts flag (Ok <$> val_loader) = validate flag val_loader).
Proof.
  split.
  - rewrite <- (loop_attempts_raises_iff (negb (flag =? 0)%Z) attempts
                  {| batch_time := AverageMeter.init; losses := AverageMeter.init;
                     top1 := AverageMeter.init; top5 := AverageMeter.init |}
                  (if negb (flag =? 0)%Z then Some (tqdm (length attempts)) else None) e);
      [|simpl; lia..].
    unfold validate_attempts. destruct (loop_attempts _ _ attempts) as [[m p]|e']; simpl.
    + split; discriminate.
    + split; intros [= <-]; reflexivity.
  - intros val_loader. unfold validate_attempts, validate.
    rewrite loop_attempts_Ok, length_fmap. reflexivity.
Qed.

(** A criterion that raises, as [nn.CrossEntropyLoss] does on a label that
    is no class, ends the run before [accuracy] is called. *)
Example validate_criterion_raises :
  validate_attempts 1 [Raise IndexError] = Raise IndexError.
Proof. reflexivity. Qed.

Lemma accuracy_range output target topk res :
  well_shaped output → length target = length (rows output) →
  accuracy output target topk = Ok res →
  Forall (fun acc => (acc <= 100)%Q) res.
Proof.
  intros Hshape Hbatch Hacc.
  apply accuracy_Ok in Hacc as (maxk & labels & Hmax & Hcols & Hlabels & Hne & ->).
  rewrite expand_as_same in Hlabels by exact Hbatch. injection Hlabels as <-.
  apply py_max_Ok in Hmax as (_ & _ & Hle).
  assert (Hrows : Forall (fun row : list Q => (maxk ≤ length row)%nat) (rows output)).
  { eapply Forall_impl; [exact Hshape|]. simpl. intros row ->. exact Hcols. }
  assert (Hpos : (0 < inject_Z (Z.of_nat (length target)))%Q).
  { destruct target; [done|]. simpl. reflexivity. }
  apply Forall_fmap, Forall_forall. intros k Hk; simpl.
  rewrite Forall_forall in Hle. specialize (Hle k Hk).
  rewrite take_tensor_eq by exact Hle. rewrite sum_flat_hits by assumption.
  pose proof (hits_le output target k) as Hhits.
  assert ((inject_Z (Z.of_nat (hits k output target))
           <= inject_Z (Z.of_nat (length target)))%Q) as Hhits'.
  { rewrite <- Zle_Qle. lia. }
  assert ((0 <= 100 / inject_Z (Z.of_nat (length target)))%Q) as Hscale.
  { apply Qle_shift_div_l; [exact Hpos|]. rewrite Qmult_0_l. done. }
  eapply Qle_trans; [apply Qmult_le_compat_r; eassumption|].
  apply Qle_lteq. right. field.
  intros Hzero. rewrite Hzero in Hpos. discriminate Hpos.
Qed.

Lemma acc_at_facts it accs :
  accuracy (output_all it) (target_all it) [1; 5]%nat = Ok accs →
  (0 < batch_size it)%Z
  ∧ (0 <= acc_at 0 it)%Q ∧ (acc_at 0 it <= acc_at 1 it)%Q
  ∧ (shapes_agree it → (acc_at 1 it <= 100)%Q).
Proof.
  intros Hacc. unfold acc_at, batch_size. rewrite Hacc.
  destruct (accuracy_1_5_Ok _ _ _ Hacc) as (acc1 & acc5 & -> & Hne & H0 & H15). simpl.
  split; [destruct (target_all it); [done | simpl; lia]|].
  split; [exact H0|]. split; [exact H15|].
  intros [Hshape Hbatch].
  pose proof (accuracy_range _ _ _ _ Hshape Hbatch Hacc) as Hrange.
  apply Forall_cons_1 in Hrange as [_ Hrange].
  apply Forall_cons_1 in Hrange as [H5 _]. exact H5.
Qed.

Lemma avg_div_mono (s1 s5 : Q) (c : Z) :
  (0 < c)%Z → (s1 <= s5)%Q → (s1 / inject_Z c <= s5 / inject_Z c)%Q.
Proof.
  intros Hc Hs. unfold Qdiv. apply Qmult_le_compat_r; [exact Hs|].
  apply Qinv_le_0_compat. rewrite <- (Zle_Qle 0). lia.
Qed.

Lemma step_top_ordered master m pbar it m' pbar' :
  step master (m, pbar) it = Ok (m', pbar') →
  (top_ordered m → top_ordered m')
  ∧ (shapes_agree it → top_bounded m → top_bounded m').
Proof.
  intros Hstep. apply step_Ok in Hstep as ([accs Hacc] & _ & H1 & H5 & _).
  destruct (acc_at_facts it accs Hacc) as (Hsize & H0 & H15 & H100).
  apply update_Ok in H1 as (Hs1 & Hc1 & Ha1 & _).
  apply update_Ok in H5 as (Hs5 & Hc5 & Ha5 & _).
  assert (0 < inject_Z (batch_size it))%Q as HB by (rewrite <- (Zlt_Qlt 0); exact Hsize).
  split.
  - intros (Hc & Hc0 & Hsum0 & Hsum & _ & _). unfold top_ordered.
    assert (AverageMeter.count (top1 m') = AverageMeter.count (top5 m')) as Hc' by lia.
    assert (0 <= AverageMeter.sum (top1 m'))%Q as Hsum0' by (rewrite Hs1; nra).
    assert (AverageMeter.sum (top1 m') <= AverageMeter.sum (top5 m'))%Q as Hsum'
      by (rewrite Hs1, Hs5; nra).
    split; [exact Hc'|]. split; [lia|]. split; [exact Hsum0'|]. split; [exact Hsum'|].
    rewrite Ha1, Ha5, <- Hc'. split.
    + apply Qle_shift_div_l; [rewrite <- (Zlt_Qlt 0); lia|]. rewrite Qmult_0_l. exact Hsum0'.
    + apply avg_div_mono; [lia | exact Hsum'].
  - intros Hshapes (Hc0 & Hsum & _). specialize (H100 Hshapes). unfold top_bounded.
    assert (AverageMeter.sum (top5 m')
            <= 100 * inject_Z (AverageMeter.count (top5 m')))%Q as Hsum'.
    { rewrite Hs5, Hc5, inject_Z_plus. nra. }
    split; [lia|]. split; [exact Hsum'|].
    rewrite Ha5. apply Qle_shift_div_r; [rewrite <- (Zlt_Qlt 0); lia|]. exact Hsum'.
Qed.

Lemma loop_top_ordered master val_loader : ∀ m pbar m' pbar',
  loop master (m, pbar) val_loader = Ok (m', pbar') →
  (top_ordered m → top_ordered m')
  ∧ (Forall shapes_agree val_loader → top_bounded m → top_bounded m').
Proof.
  induction val_loader as [|it rest IH]; intros m pbar m' pbar' Hloop.
  - injection Hloop as <- <-. done.
  - rewrite loop_cons in Hloop.
    destruct (step master (m, pbar) it) as [[m1 pbar1]|] eqn:Hstep; [|discriminate Hloop].
    simpl in Hloop. apply IH in Hloop as [IHo IHb].
    apply step_top_ordered in Hstep as [Ho Hb]. split; [tauto|].
    intros Hshapes Hm. apply Forall_cons_1 in Hshapes as [Hit Hrest]. tauto.
Qed.

(** X17: in exact arithmetic (accuracies and meter values as rational
    numbers), whenever [validate] returns, the top-1 average it returns is
    not negative and not above the top-5 average; when moreover every
    gathered score matrix has one row per gathered label, the top-5 average
    is at most 100.  (In single precision a batch accuracy can round to
    just above 100.) *)
Theorem validate_top1_le_top5 flag val_loader top1_avg top5_avg loss_avg pbar :
  validate flag val_loader = Ok ((top1_avg, top5_avg, loss_avg), pbar) →
  (0 <= top1_avg)%Q ∧ (top1_avg <= top5_avg)%Q
  ∧ (Forall shapes_agree val_loader → (top5_avg <= 100)%Q).
Proof.
  unfold validate. intros Hrun.
  destruct (loop _ _ val_loader) as [[m p]|] eqn:Hloop; [|discriminate Hrun].
  simpl in Hrun. injection Hrun as <- <- <- _.
  apply loop_top_ordered in Hloop as [Hordered Hbounded]. simpl in *.
  destruct Hordered as (_ & _ & _ & _ & H0 & H15).
  { unfold top_ordered; simpl. repeat split; done. }
  split; [exact H0|]. split; [exact H15|].
  intros Hshapes. apply Hbounded; [exact Hshapes|].
  unfold top_bounded; simpl. repeat split; done.
Qed.

(** Two gathered batches over six classes, no two scores of a sample equal:
    the label of the first sample is its top class, the label of the second
    its second class, the label of the third its last. *)
Lemma validate_top1_le_top5_witness :
  ∃ t1 t5 l pbar,
    validate 0
      [ {| output_all := {| ncols := 6; rows := [[1; 6; 2; 3; 4; 5]; [6; 5; 4; 3; 2; 1]]%Q |};
           target_all := [1; 1]%Z; loss := 1 # 2; elapsed := 1 |};
        {| output_all := {| ncols := 6; rows := [[0; 1; 2; 3; 4; 9]]%Q |};
           target_all := [0]%Z; loss := 3 # 2; elapsed := 1 |} ]
    = Ok ((t1, t5, l), pbar)
    ∧ (0 <= t1)%Q ∧ (t1 <= t5)%Q ∧ (t5 <= 100)%Q.
Proof.
  eexists _, _, _, _. split; [reflexivity|].
  edestruct (validate_top1_le_top5 0
               [ {| output_all := {| ncols := 6;
                                     rows := [[1; 6; 2; 3; 4; 5]; [6; 5; 4; 3; 2; 1]]%Q |};
                    target_all := [1; 1]%Z; loss := 1 # 2; elapsed := 1 |};
                 {| output_all := {| ncols := 6; rows := [[0; 1; 2; 3; 4; 9]]%Q |};
                    target_all := [0]%Z; loss := 3 # 2; elapsed := 1 |} ])
    as (H0 & H15 & H100); [reflexivity|].
  split; [exact H0|]. split; [exact H15|]. apply H100.
  repeat constructor.
Defined.

Lemma loop_master_description val_loader : ∀ m bar m' pbar',
  loop true (m, Some bar) val_loader = Ok (m', pbar') →
  ∃ bar', pbar' = Some bar'
          ∧ description bar'
            = match val_loader with
              | [] => description bar
              | _ => Some (AverageMeter.avg (top1 m'), AverageMeter.avg (top5 m'))
              end.
Proof.
  induction val_loader as [|it rest IH]; intros m bar m' pbar' Hloop.
  - injection Hloop as <- <-. eexists. done.
  - rewrite loop_cons in Hloop.
    destruct (step true (m, Some bar) it) as [[m1 pbar1]|] eqn:Hstep; [|discriminate Hloop].
    simpl in Hloop. apply step_Ok in Hstep as (_ & _ & _ & _ & _ & ->). simpl in Hloop.
    destruct (IH _ _ _ _ Hloop) as (bar' & -> & Hdesc).
    exists bar'. split; [reflexivity|]. rewrite Hdesc.
    destruct rest; [|reflexivity].
    simpl in Hloop. injection Hloop as <- _. reflexivity.
Qed.

(** X18: the role flag decides the display and nothing else.  With the
    flag at 0 [validate] makes no progress bar.  With any other value the
    bar is as long as the loader, has advanced once per iteration, is
    closed when [validate] returns, and its last description was made from
    the very top-1 and top-5 averages that are returned. *)
Theorem validate_progress_bar flag val_loader top1_avg top5_avg loss_avg pbar :
  validate flag val_loader = Ok ((top1_avg, top5_avg, loss_avg), pbar) →
  (flag = 0%Z → pbar = None)
  ∧ (flag ≠ 0%Z →
     ∃ bar, pbar = Some bar
            ∧ total bar = length val_loader
            ∧ shown bar = length val_loader
            ∧ closed bar = true
            ∧ description bar
              = match val_loader with
                | [] => None
                | _ => Some (top1_avg, top5_avg)
                end).
Proof.
  unfold validate. intros Hrun.
  destruct (loop _ _ val_loader) as [[m p]|] eqn:Hloop; [|discriminate Hrun].
  simpl in Hrun. injection Hrun as <- <- _ <-. split.
  - intros ->. simpl in *. apply loop_pbar in Hloop. exact Hloop.
  - intros Hflag. apply Z.eqb_neq in Hflag. rewrite Hflag in *. simpl in *.
    pose proof (loop_pbar _ _ _ _ _ _ Hloop) as (bar' & -> & Htotal & Hclosed & Hshown).
    destruct (loop_master_description _ _ _ _ _ Hloop) as (bar'' & [= <-] & Hdesc).
    simpl in *. eexists. split; [reflexivity|]. simpl.
    repeat split; assumption.
Qed.

Lemma validate_progress_bar_witness :
  ∃ t1 t5 l bar,
    validate 1 example_loader = Ok ((t1, t5, l), Some bar)
    ∧ shown bar = 2%nat ∧ closed bar = true ∧ description bar = Some (t1, t5).
Proof.
  pose proof (validate_progress_bar 1 example_loader) as Hbar.
  destruct (validate 1 example_loader) as [[[[t1 t5] l] pbar]|e] eqn:Hrun;
    [|vm_compute in Hrun; discriminate Hrun].
  destruct (Hbar t1 t5 l pbar eq_refl) as [_ Hmaster].
  destruct Hmaster as (bar & -> & _ & Hshown & Hclosed & Hdesc); [discriminate|].
  exists t1, t5, l, bar. done.
Defined.

End ValidateMore.

(** ** Top-k accuracy *)

Section AccuracyMore.

Local Open Scope nat_scope.

Lemma insert_desc_fmap (f : Q → Q) x l :
  (∀ a b, Qle_bool (f a) (f b) = Qle_bool a b) →
  insert_desc (prod_map (fun i : nat => i) f x) (prod_map (fun i : nat => i) f <$> l)
  = prod_map (fun i : nat => i) f <$> insert_desc x l.
Proof.
  intros Hf. induction l as [|y l IH]; simpl; [reflexivity|].
  rewrite Hf. destruct (Qle_bool y.2 x.2); simpl; [reflexivity|].
  f_equal. exact IH.
Qed.

Lemma foldr_insert_desc_fmap (f : Q → Q) l :
  (∀ a b, Qle_bool (f a) (f b) = Qle_bool a b) →
  foldr insert_desc [] (prod_map (fun i : nat => i) f <$> l)
  = prod_map (fun i : nat => i) f <$> foldr insert_desc [] l.
Proof.
  intros Hf. induction l as [|x l IH]; [reflexivity|].
  change (insert_desc (prod_map (fun i : nat => i) f x)
            (foldr insert_desc [] (prod_map (fun i : nat => i) f <$> l))
          = prod_map (fun i : nat => i) f <$> insert_desc x (foldr insert_desc [] l)).
  rewrite IH. apply insert_desc_fmap. exact Hf.
Qed.

Lemma argsort_desc_fmap (f : Q → Q) row :
  (∀ a b, Qle_bool (f a) (f b) = Qle_bool a b) →
  argsort_desc (f <$> row) = argsort_desc row.
Proof.
  intros Hf. unfold argsort_desc. rewrite imap_fmap.
  assert (imap (fun n => (fun x => (n, x)) ∘ f) row
          = prod_map (fun i : nat => i) f <$> imap (fun i x => (i, x)) row) as ->.
  { rewrite fmap_imap. apply imap_ext. reflexivity. }
  rewrite foldr_insert_desc_fmap by exact Hf.
  rewrite <- list_fmap_compose. apply list_fmap_ext. intros _ [i x] _. reflexivity.
Qed.

(** X19: [accuracy] sees the scores only through their order within a row:
    applying to every score a function that preserves and reflects [<=]
    (a positive rescaling, a shift, the logarithm of a softmax) leaves the
    result as it is, errors included.  The selection among equal scores is
    the one of [tensor_topk], lowest class index first. *)
Theorem accuracy_order_invariant (f : Q → Q) output target topk :
  (∀ a b, (f a <= f b)%Q ↔ (a <= b)%Q) →
  accuracy (map_scores f output) target topk = accuracy output target topk.
Proof.
  intros Hf.
  assert (Hbool : ∀ a b, Qle_bool (f a) (f b) = Qle_bool a b).
  { intros a b. destruct (Qle_bool a b) eqn:Hab.
    - apply Qle_bool_iff. apply Hf. apply Qle_bool_iff. exact Hab.
    - destruct (Qle_bool (f a) (f b)) eqn:Hfab; [|reflexivity].
      pose proof (proj2 (Qle_bool_iff a b) (proj1 (Hf a b) (proj1 (Qle_bool_iff _ _) Hfab))).
      congruence. }
  unfold accuracy, tensor_topk, map_scores; simpl.
  rewrite length_fmap.
  destruct (py_max topk) as [maxk|]; simpl; [|reflexivity].
  assert (topk_row maxk <$> ((fun row : list Q => f <$> row) <$> rows output)
          = topk_row maxk <$> rows output) as ->; [|reflexivity].
  rewrite <- list_fmap_compose. apply list_fmap_ext. intros _ row _.
  unfold compose, topk_row. rewrite argsort_desc_fmap by exact Hbool. reflexivity.
Qed.

Lemma accuracy_order_invariant_witness :
  accuracy (map_scores (fun x => 2 * x + 1)%Q
              {| ncols := 3; rows := [[1; 3; 2]; [5; 5; 0]]%Q |}) [1; 1]%Z [1; 2]
  = accuracy {| ncols := 3; rows := [[1; 3; 2]; [5; 5; 0]]%Q |} [1; 1]%Z [1; 2].
Proof.
  apply (accuracy_order_invariant (fun x => 2 * x + 1)%Q).
  intros a b. split; intros Hle; lra.
Defined.

Lemma count_true_zip_with_all {A B} (h : A → B → bool) (l : list A) : ∀ (t : list B),
  length t = length l →
  (∀ x y, x ∈ l → y ∈ t → h x y = true) →
  count_true (zip_with h l t) = length t.
Proof.
  induction l as [|x l IH]; intros [|y t] Hlen Hall; simpl in *; try done.
  rewrite count_true_cons, Hall by apply list_elem_of_here. rewrite IH; [lia | lia |].
  intros x' y' Hx Hy. apply Hall; apply list_elem_of_further; assumption.
Qed.

(** Asked for as many classes as the row has, the selection lists them all. *)
Lemma topk_contract_all_classes sel (row : list Q) c :
  topk_contract sel → c < length row → c ∈ sel (length row) row.
Proof.
  intros contract Hc.
  destruct (contract (length row) row (le_n _)) as (Hlen & Hnodup & Hrange & _).
  assert (sel (length row) row ≡ₚ seq 0 (length row)) as Hperm.
  { apply submseteq_length_Permutation.
    - apply NoDup_submseteq; [exact Hnodup|]. intros x Hx. apply elem_of_seq.
      specialize (Hrange x Hx). lia.
    - rewrite length_seq, Hlen. done. }
  rewrite Hperm. apply elem_of_seq. lia.
Qed.

(** X20: asking for as many classes as there are selects every class,
    whatever the library's choice among equal scores: when all labels are
    valid class indices, every sample is a hit for [k = classes], and the
    entry reported is the batch size scaled as
    [correct_k.mul_(100.0 / batch_size)] scales it, which in exact
    arithmetic is 100; the entry reported for [k = 0] is 0 scaled, which in
    exact arithmetic is 0. *)
Theorem accuracy_extreme_k sel {F} (scale : Z → nat → result F) output target topk res :
  topk_contract sel →
  well_shaped output →
  length target = length (rows output) →
  Forall (fun label => (0 ≤ label < Z.of_nat (ncols output))%Z) target →
  accuracy_with sel scale output target topk = Ok res →
  (∀ i acc,
     res !! i = Some acc →
     (topk !! i = Some (ncols output) →
      scale (Z.of_nat (length target)) (length target) = Ok acc)
     ∧ (topk !! i = Some 0 → scale 0%Z (length target) = Ok acc))
  ∧ (∀ acc, exact_scale (Z.of_nat (length target)) (length target) = Ok acc → (acc == 100)%Q)
  ∧ (∀ acc, exact_scale 0%Z (length target) = Ok acc → (acc == 0)%Q).
Proof.
  intros contract Hshape Hbatch Hlabels Hacc. split; [|split].
  - intros i acc Hi.
    destruct (accuracy_with_hits sel contract scale output target topk res Hshape Hbatch Hacc)
      as (maxk & Hmax & Hcols & Hres).
    apply py_max_Ok in Hmax as (_ & _ & Hle). rewrite Forall_forall in Hle.
    split; intros Hk.
    + pose proof (Forall2_lookup_lr _ _ _ _ _ _ Hres Hk Hi) as Hentry. simpl in Hentry.
      assert (maxk = ncols output) as ->.
      { specialize (Hle (ncols output) (list_elem_of_lookup_2 _ _ _ Hk)). lia. }
      assert (hits_with sel (ncols output) (ncols output) output target = length target)
        as Hhits; [|rewrite Hhits in Hentry; exact Hentry].
      unfold hits_with. apply count_true_zip_with_all; [lia|].
      intros row label Hrow Hlabel. apply bool_decide_eq_true.
      unfold well_shaped in Hshape. rewrite Forall_forall in Hshape.
      specialize (Hshape row Hrow).
      destruct (contract (ncols output) row ltac:(lia)) as (Hlen & _).
      rewrite take_ge by lia.
      rewrite Forall_forall in Hlabels. specialize (Hlabels label Hlabel).
      apply list_elem_of_fmap. exists (Z.to_nat label). split; [lia|].
      rewrite <- Hshape. apply topk_contract_all_classes; [exact contract | lia].
    + pose proof (Forall2_lookup_lr _ _ _ _ _ _ Hres Hk Hi) as Hentry. simpl in Hentry.
      rewrite hits_with_0 in Hentry. exact Hentry.
  - intros acc. unfold exact_scale, percent_scale.
    destruct (length target =? 0) eqn:Hlen; [discriminate|]. simpl. intros [= <-].
    apply Nat.eqb_neq in Hlen. field.
    intros Hzero. apply (Qeq_bool_neq (inject_Z (Z.of_nat (length target))) 0); [|exact Hzero].
    unfold Qeq_bool, inject_Z. simpl. apply Z.eqb_neq. lia.
  - intros acc. unfold exact_scale, percent_scale.
    destruct (length target =? 0) eqn:Hlen; [discriminate|]. simpl. intros [= <-].
    ring.
Qed.

(** Two samples over three classes, with [k = 0] and [k = 3], in single
    precision: 0 and 100. *)
Lemma accuracy_extreme_k_witness :
  float32_scale 0 2 = Ok (S754_zero false)
  ∧ float32_scale 2 2 = Ok (S754_finite false 13107200 (-17)).
Proof.
  assert (well_shaped {| ncols := 3; rows := [[1; 3; 2]; [5; 4; 0]]%Q |}) as Hshape
    by (repeat constructor).
  assert (Forall (fun label => (0 ≤ label < Z.of_nat 3)%Z) [1; 2]%Z) as Hlabels
    by (repeat constructor; lia).
  destruct (accuracy_extreme_k topk_row float32_scale
              {| ncols := 3; rows := [[1; 3; 2]; [5; 4; 0]]%Q |} [1; 2]%Z [0; 3]
              [S754_zero false; S754_finite false 13107200 (-17)]
              topk_row_contract Hshape eq_refl Hlabels eq_refl) as (Hentries & _).
  split.
  - apply (Hentries 0 (S754_zero false) eq_refl). reflexivity.
  - apply (Hentries 1 (S754_finite false 13107200 (-17)) eq_refl). reflexivity.
Defined.

Lemma expand_as_cases target batch :
  match expand_as target batch with
  | Ok labels =>
      (length target = batch ∧ labels = target)
      ∨ (length target ≠ batch ∧ ∃ label, target = [label] ∧ labels = replicate batch label)
  | Raise e => length target ≠ batch ∧ length target ≠ 1 ∧ e = RuntimeError
  end.
Proof.
  unfold expand_as. destruct (length target =? batch) eqn:Hlen.
  - apply Nat.eqb_eq in Hlen. left. done.
  - apply Nat.eqb_neq in Hlen. destruct target as [|label [|label' target]]; simpl in *.
    + done.
    + right. split; [exact Hlen|]. exists label. done.
    + split; [exact Hlen|]. split; [lia | reflexivity].
Qed.

(** X21: [accuracy] raises in exactly four cases, checked in this order:
    [ValueError] for an empty [topk]; [RuntimeError] when [max(topk)]
    exceeds the number of classes; [RuntimeError] when the number of labels
    is neither the number of rows nor 1; [ZeroDivisionError] for an empty
    batch.  In every other case it returns. *)
Theorem accuracy_raises_iff output target topk e :
  accuracy output target topk = Raise e
  ↔ (topk = [] ∧ e = ValueError)
    ∨ ∃ maxk,
        py_max topk = Ok maxk
        ∧ ((ncols output < maxk ∧ e = RuntimeError)
           ∨ (maxk ≤ ncols output
              ∧ length target ≠ length (rows output) ∧ length target ≠ 1
              ∧ e = RuntimeError)
           ∨ (maxk ≤ ncols output
              ∧ target = [] ∧ rows output = [] ∧ e = ZeroDivisionError)).
Proof.
  destruct topk as [|k0 ks].
  { simpl. split.
    - intros [= <-]. left. done.
    - intros [[_ ->] | (maxk & Hmax & _)]; [reflexivity | discriminate Hmax]. }
  set (topk := k0 :: ks). set (maxk := foldr Nat.max k0 ks).
  assert (py_max topk = Ok maxk) as Hmax by reflexivity.
  assert (Hright : ∀ P : nat → Prop,
            ((topk = [] ∧ e = ValueError) ∨ ∃ maxk', py_max topk = Ok maxk' ∧ P maxk')
            ↔ P maxk).
  { intros P. split.
    - intros [[Hnil _] | (maxk' & [= <-] & HP)]; [discriminate Hnil | exact HP].
    - intros HP. right. exists maxk. done. }
  rewrite Hright. clear Hright.
  destruct (decide (maxk ≤ ncols output)) as [Hcols | Hcols]; cycle 1.
  { unfold accuracy, tensor_topk. rewrite Hmax; simpl.
    apply Nat.leb_nle in Hcols as Hleb. rewrite Hleb. split.
    - intros [= <-]. left. split; [lia | reflexivity].
    - intros [[_ ->] | [(? & _) | (? & _)]]; [reflexivity | exfalso; lia..]. }
  pose proof (expand_as_cases target (length (rows output))) as Hexp.
  destruct (expand_as target (length (rows output))) as [labels|e'] eqn:Hlabels.
  - rewrite (accuracy_unfold _ _ _ _ _ Hmax Hcols Hlabels).
    destruct target as [|label target].
    + simpl. destruct Hexp as [[Hlen _] | (_ & label & Hsingle & _)];
        [|discriminate Hsingle].
      split.
      * intros [= <-]. right; right. split; [exact Hcols|].
        split; [reflexivity|]. split; [|reflexivity].
        destruct (rows output); [reflexivity | discriminate Hlen].
      * intros [(? & _) | [(_ & Hne & _) | (_ & _ & _ & ->)]];
          [exfalso; lia | destruct (Hne Hlen) | reflexivity].
    + erewrite mapM_Ok; [|apply Forall_true; intros k; reflexivity].
      split; [discriminate|].
      intros [(? & _) | [(_ & Hne & Hne1 & _) | (_ & Hnil & _)]];
        [exfalso; lia | exfalso | discriminate Hnil].
      destruct Hexp as [[Hlen _] | (_ & label' & Hsingle & _)]; [lia|].
      injection Hsingle as _ ->. simpl in Hne1. lia.
  - destruct Hexp as (Hne & Hne1 & ->).
    unfold accuracy, tensor_topk. rewrite Hmax; simpl.
    apply Nat.leb_le in Hcols as Hleb. rewrite Hleb; simpl. rewrite Hlabels; simpl.
    split.
    + intros [= <-]. right; left. done.
    + intros [(? & _) | [(_ & _ & _ & ->) | (_ & -> & Hrows & _)]];
        [exfalso; lia | reflexivity | exfalso].
      rewrite Hrows in Hne. simpl in Hne. lia.
Qed.

(** X22: a single label given for a batch of several samples is not an
    error: it is compared with every sample, and the count is scaled by
    [100 / 1], so the reported value is 100 times the number of samples
    whose selected classes contain the label, and can exceed 100. *)
Theorem accuracy_single_label_broadcast output label topk maxk :
  well_shaped output →
  py_max topk = Ok maxk →
  maxk ≤ ncols output →
  ∃ res,
    accuracy output [label] topk = Ok res
    ∧ Forall2 Qeq res
        ((fun k => 100 * inject_Z (Z.of_nat
                     (hits k output (replicate (length (rows output)) label))))%Q
         <$> topk).
Proof.
  intros Hshape Hmax Hcols.
  assert (expand_as [label] (length (rows output))
          = Ok (replicate (length (rows output)) label)) as Hlabels.
  { unfold expand_as. change (length [label]) with 1.
    destruct (1 =? length (rows output)) eqn:Hlen; [|reflexivity].
    apply Nat.eqb_eq in Hlen. rewrite <- Hlen. reflexivity. }
  rewrite (accuracy_unfold _ _ _ _ _ Hmax Hcols Hlabels).
  erewrite mapM_Ok; [|apply Forall_true; intros k; reflexivity].
  eexists. split; [reflexivity|].
  apply Forall2_fmap, Forall_Forall2_diag, Forall_forall. intros k Hk.
  apply py_max_Ok in Hmax as (_ & _ & Hle). rewrite Forall_forall in Hle.
  rewrite take_tensor_eq by (apply Hle; exact Hk).
  rewrite sum_flat_hits; [|apply Hle; exact Hk|].
  - simpl. field.
  - eapply Forall_impl; [exact Hshape|]. simpl. intros row ->. exact Hcols.
Qed.

(** Two samples whose best class is 1, and the single label 1. *)
Lemma accuracy_single_label_broadcast_witness :
  ∃ res,
    accuracy {| ncols := 3; rows := [[1; 3; 2]; [0; 5; 0]]%Q |} [1]%Z [1] = Ok res
    ∧ Forall2 Qeq res [200%Q].
Proof.
  destruct (accuracy_single_label_broadcast
              {| ncols := 3; rows := [[1; 3; 2]; [0; 5; 0]]%Q |} 1%Z [1] 1)
    as (res & Hacc & Hres); [repeat constructor | reflexivity | simpl; lia |].
  exists res. split; [exact Hacc|]. exact Hres.
Defined.

Lemma mapM_ext {A B} (f g : A → result B) (l : list A) :
  Forall (fun x => f x = g x) l → mapM f l = mapM g l.
Proof.
  induction l as [|x l IH]; intros Hl; simpl; [reflexivity|].
  apply Forall_cons_1 in Hl as [Hx Hl]. rewrite Hx, (IH Hl). reflexivity.
Qed.

Lemma hits_batch_of k classes (samples : list (list Q * Z)) :
  hits k (batch_of classes samples).1 (batch_of classes samples).2
  = count_true ((fun s : list Q * Z => in_topk k s.1 s.2) <$> samples).
Proof.
  unfold hits, batch_of; simpl. f_equal. rewrite zip_with_fst_snd.
  apply list_fmap_ext. intros _ [row label] _. reflexivity.
Qed.

Lemma hits_Permutation k classes (samples samples' : list (list Q * Z)) :
  samples ≡ₚ samples' →
  hits k (batch_of classes samples).1 (batch_of classes samples).2
  = hits k (batch_of classes samples').1 (batch_of classes samples').2.
Proof.
  intros Hperm. rewrite !hits_batch_of. unfold count_true. rewrite Hperm. reflexivity.
Qed.

(** X23: the order of the samples in a batch does not matter: presenting
    the same (scores, label) pairs in another order gives the same result,
    errors included. *)
Theorem accuracy_sample_order classes (samples samples' : list (list Q * Z)) topk :
  samples ≡ₚ samples' →
  Forall (fun s : list Q * Z => length s.1 = classes) samples →
  accuracy (batch_of classes samples).1 (batch_of classes samples).2 topk
  = accuracy (batch_of classes samples').1 (batch_of classes samples').2 topk.
Proof.
  intros Hperm Hshape.
  assert (Forall (fun s : list Q * Z => length s.1 = classes) samples') as Hshape'
    by (rewrite <- Hperm; exact Hshape).
  destruct (py_max topk) as [maxk|e] eqn:Hmax;
    [|unfold accuracy; rewrite Hmax; reflexivity].
  destruct (decide (maxk ≤ classes)) as [Hcols | Hcols]; cycle 1.
  { unfold accuracy, tensor_topk. rewrite Hmax; simpl.
    apply Nat.leb_nle in Hcols. rewrite Hcols. reflexivity. }
  rewrite (accuracy_unfold _ _ _ maxk (samples.*2));
    [|exact Hmax | exact Hcols
     |apply expand_as_same; simpl; rewrite !length_fmap; reflexivity].
  rewrite (accuracy_unfold _ _ _ maxk (samples'.*2));
    [|exact Hmax | exact Hcols
     |apply expand_as_same; simpl; rewrite !length_fmap; reflexivity].
  apply mapM_ext, Forall_forall. intros k Hk.
  apply py_max_Ok in Hmax as (_ & _ & Hle). rewrite Forall_forall in Hle.
  specialize (Hle k Hk).
  rewrite !take_tensor_eq by exact Hle.
  pose proof (sum_flat_hits maxk (batch_of classes samples).1 (samples.*2) k Hle) as Hs.
  pose proof (sum_flat_hits maxk (batch_of classes samples').1 (samples'.*2) k Hle) as Hs'.
  rewrite Hs, Hs'.
  - change (samples.*2) with (batch_of classes samples).2.
    change (samples'.*2) with (batch_of classes samples').2.
    rewrite (hits_Permutation k classes _ _ Hperm). unfold batch_of; simpl.
    rewrite !length_fmap, (Permutation_length Hperm). reflexivity.
  - apply Forall_fmap. eapply Forall_impl; [exact Hshape'|]. simpl. intros s ->. exact Hcols.
  - apply Forall_fmap. eapply Forall_impl; [exact Hshape|]. simpl. intros s ->. exact Hcols.
Qed.

Lemma accuracy_sample_order_witness :
  accuracy {| ncols := 3; rows := [[1; 3; 2]; [5; 5; 0]]%Q |} [1; 0]%Z [1; 2]
  = accuracy {| ncols := 3; rows := [[5; 5; 0]; [1; 3; 2]]%Q |} [0; 1]%Z [1; 2].
Proof.
  apply (accuracy_sample_order 3 [([1; 3; 2]%Q, 1%Z); ([5; 5; 0]%Q, 0%Z)]
           [([5; 5; 0]%Q, 0%Z); ([1; 3; 2]%Q, 1%Z)]).
  - apply Permutation_swap.
  - repeat constructor.
Defined.

End AccuracyMore.

(** ** Log messages, checkpoints and the model table *)

Section LogFacts.

Import Log.

Lemma color_map_lookup mode color :
  color_map !! mode = Some color
  ↔ (mode = "INFO" ∧ color = 36%Z) ∨ (mode = "TRAIN" ∧ color = 32%Z)
    ∨ (mode = "EVAL" ∧ color = 31%Z).
Proof.
  unfold color_map. rewrite !lookup_insert_Some, lookup_empty. split.
  - intros [[<- <-] | [_ [[<- <-] | [_ [[<- <-] | [_ Hnone]]]]]];
      [tauto | tauto | tauto | discriminate Hnone].
  - intros [[-> ->] | [[-> ->] | [-> ->]]].
    + left. done.
    + right. split; [discriminate|]. left. done.
    + right. split; [discriminate|]. right. split; [discriminate|]. left. done.
Qed.

Lemma string_length_app (a b : string) :
  String.length (a +:+ b) = (String.length a + String.length b)%nat.
Proof. induction a as [|c a IH]; simpl; [reflexivity|]. rewrite IH. reflexivity. Qed.

Lemma string_app_cancel_r (tail a b : string) : a +:+ tail = b +:+ tail → a = b.
Proof.
  intros Hab.
  assert (String.length a = String.length b) as Hlen.
  { apply (f_equal String.length) in Hab. rewrite !string_length_app in Hab. lia. }
  revert b Hab Hlen. induction a as [|c a IH]; intros [|c' b] Hab Hlen;
    simpl in *; try done.
  injection Hab as -> Hab. f_equal. apply IH; [exact Hab | lia].
Qed.

Lemma log_msg_Ok msg mode s :
  log_msg msg mode = Ok s →
  ∃ color, color_map !! mode = Some color
           ∧ s = ESC +:+ "[" +:+ pretty color +:+ "m[" +:+ mode +:+ "] " +:+ msg
                     +:+ ESC +:+ "[0m".
Proof.
  unfold log_msg, Schedule.getitem.
  destruct (color_map !! mode) as [color|]; [|discriminate].
  intros [= <-]. exists color. done.
Qed.

(** X24: [log_msg] raises [KeyError] exactly when the mode is not one of
    INFO, TRAIN and EVAL.  Otherwise it returns the message unaltered
    between a header that depends on the mode only and the reset sequence:
    the result is 12 characters longer than mode and message together, and
    two messages logged in the same mode give the same string only if they
    are the same message. *)
Theorem log_msg_spec msg mode :
  (∀ e, log_msg msg mode = Raise e
        ↔ mode ≠ "INFO" ∧ mode ≠ "TRAIN" ∧ mode ≠ "EVAL" ∧ e = KeyError mode)
  ∧ (∀ s, log_msg msg mode = Ok s →
          String.length s = (String.length msg + String.length mode + 12)%nat
          ∧ ∀ msg', log_msg msg' mode = Ok s → msg' = msg).
Proof.
  split.
  - intros e. unfold log_msg, Schedule.getitem.
    destruct (color_map !! mode) as [color|] eqn:Hcolor; simpl.
    + split; [discriminate|]. intros (Hi & Ht & He & _).
      apply color_map_lookup in Hcolor as [[? _] | [[? _] | [? _]]]; congruence.
    + split.
      * intros [= <-].
        repeat split; try reflexivity; intros ->; vm_compute in Hcolor; discriminate Hcolor.
      * intros (_ & _ & _ & ->). reflexivity.
  - intros s Hs. apply log_msg_Ok in Hs as (color & Hcolor & ->). split.
    + assert (String.length (pretty color) = 2%nat) as Hlen.
      { apply color_map_lookup in Hcolor as [[_ ->] | [[_ ->] | [_ ->]]]; reflexivity. }
      rewrite !string_length_app, Hlen. simpl. lia.
    + intros msg' Hs'. apply log_msg_Ok in Hs' as (color' & Hcolor' & Heq).
      rewrite Hcolor in Hcolor'. injection Hcolor' as <-.
      do 6 (apply (inj (String.append _)) in Heq).
      symmetry. eapply string_app_cancel_r. exact Heq.
Qed.

Lemma log_msg_spec_witness :
  ∃ s, log_msg "Top-1:50.000| Top-5:100.000" "EVAL" = Ok s
       ∧ String.length s = 43%nat.
Proof.
  eexists. split; [reflexivity|].
  apply (proj2 (log_msg_spec "Top-1:50.000| Top-5:100.000" "EVAL")). reflexivity.
Defined.

End LogFacts.

Section CheckpointMore.

Import Checkpoint.

Context {State : Type} {serializer : Serializer State}
        {laws : SerializerLaws State}.

(** X25: checkpoints on the file system.  Loading a path that holds no
    file raises [OSError].  A save can be repeated on the same path and the
    last one wins: the second save succeeds although the file exists, and
    loading returns the state saved last. *)
Theorem checkpoint_files (first second : State) path fs fs1 :
  save_checkpoint first path fs = Ok fs1 →
  (files fs !! path = None → load_checkpoint (State := State) path fs = Raise OSError)
  ∧ (∃ fs2, save_checkpoint second path fs1 = Ok fs2
            ∧ load_checkpoint path fs2 = Ok (to_cpu second)).
Proof.
  intros Hsave. pose proof (save_checkpoint_files _ _ _ _ Hsave) as [Hfiles Hcreatable].
  split.
  - intros Hnone. unfold load_checkpoint. rewrite Hnone. reflexivity.
  - assert (creatable fs1 path = true) as Hpath.
    { rewrite Hcreatable. unfold save_checkpoint in Hsave.
      destruct (creatable fs path); [reflexivity | discriminate Hsave]. }
    unfold save_checkpoint. rewrite Hpath. eexists. split; [reflexivity|].
    unfold load_checkpoint; simpl. rewrite lookup_insert_eq. apply load_save.
Qed.

End CheckpointMore.

Section CheckpointMoreExample.

Import Checkpoint.

#[local] Existing Instance flagged_serializer.

Lemma checkpoint_files_witness :
  load_checkpoint (State := bool * list byte) "latest"
    {| files := ∅; creatable := λ _, true |} = Raise OSError
  ∧ ∃ fs1 fs2,
      save_checkpoint (true, [x01]) "latest" {| files := ∅; creatable := λ _, true |} = Ok fs1
      ∧ save_checkpoint (false, [x02]) "latest" fs1 = Ok fs2
      ∧ load_checkpoint "latest" fs2 = Ok (false, [x02]).
Proof.
  edestruct (checkpoint_files (laws := flagged_serializer_laws)
               (true, [x01]) (false, [x02]) "latest"
               {| files := ∅; creatable := λ _, true |})
    as (Hmissing & (fs2 & Hsave & Hload)); [reflexivity|].
  split; [apply Hmissing; reflexivity|].
  eexists _, fs2. split; [reflexivity|]. split; [exact Hsave | exact Hload].
Defined.

End CheckpointMoreExample.

Section ModelTable.

Import ImagenetModels.

Lemma dict_literal_lookup {V : Type} (items : list (string * V)) name v :
  NoDup items.*1 →
  dict_literal items !! name = Some v ↔ (name, v) ∈ items.
Proof.
  intros Hnodup. unfold dict_literal.
  rewrite <- elem_of_list_to_map.
  - apply elem_of_reverse.
  - rewrite fmap_reverse, reverse_Permutation. exact Hnodup.
Qed.

Lemma imagenet_model_items_NoDup : NoDup imagenet_model_items.*1.
Proof. apply (bool_decide_unpack (NoDup imagenet_model_items.*1)). vm_compute. exact I. Qed.

Lemma unic_alias_inv name full :
  name +:+ ".unic" = full +:+ ".unic" → name = full.
Proof. apply string_app_cancel_r. Qed.

Lemma unic_suffix name full :
  name +:+ ".unic" = full →
  drop (String.length full - 5) (String.list_ascii_of_string full)
  = String.list_ascii_of_string ".unic".
Proof.
  intros <-. rewrite string_length_app. simpl String.length.
  replace (String.length name + 5 - 5)%nat with (String.length name) by lia.
  induction name as [|c name IH]; [reflexivity|]. simpl. exact IH.
Qed.

Ltac elem_of_literal :=
  repeat first [apply list_elem_of_here | apply list_elem_of_further].

Ltac resolve_alias H :=
  first
    [ apply (unic_alias_inv _ "vit_tiny") in H as ->; elem_of_literal
    | apply (unic_alias_inv _ "vit_base") in H as ->; elem_of_literal
    | exfalso; apply unic_suffix in H; vm_compute in H; discriminate H ].

(** X26: the table of ImageNet models.  A name resolves exactly when it
    is one of the eleven listed, to the constructor listed with it.  No
    name resolves to [resnet152], although it is imported.  A name with the
    suffix [".unic"] resolves to the same constructor as the name without
    it. *)
Theorem imagenet_model_dict_spec :
  (∀ name m, imagenet_model_dict !! name = Some m ↔ (name, m) ∈ imagenet_model_items)
  ∧ size imagenet_model_dict = 11%nat
  ∧ (∀ name, imagenet_model_dict !! name ≠ Some resnet152)
  ∧ (∀ name m, imagenet_model_dict !! (name +:+ ".unic") = Some m →
               imagenet_model_dict !! name = Some m).
Proof.
  assert (Hlookup : ∀ name m,
            imagenet_model_dict !! name = Some m ↔ (name, m) ∈ imagenet_model_items).
  { intros name m. apply dict_literal_lookup, imagenet_model_items_NoDup. }
  split; [exact Hlookup|]. split; [|split].
  - unfold imagenet_model_dict, dict_literal.
    rewrite map_size_list_to_map.
    + reflexivity.
    + rewrite fmap_reverse, reverse_Permutation. apply imagenet_model_items_NoDup.
  - intros name Hname. apply Hlookup in Hname. unfold imagenet_model_items in Hname.
    repeat (apply elem_of_cons in Hname as [Hname | Hname]; [discriminate Hname|]).
    by apply elem_of_nil in Hname.
  - intros name m Hname. apply Hlookup in Hname. apply Hlookup.
    unfold imagenet_model_items in *.
    repeat (apply elem_of_cons in Hname as [Hname | Hname];
            [injection Hname as Hname ->; resolve_alias Hname|]).
    by apply elem_of_nil in Hname.
Qed.

End ModelTable.
